(** * GWebGPUEngine: scene-graph hierarchy component, the Fruchterman
      example driver and its kernel, and the compute pipeline.

    The hierarchy component and the modules on the example driver embed
    code of the repository
    (packages/core/src/components/scenegraph/HierarchyComponent.ts and the
    example driver's [buildTextureData], [renderCircles] and kernel text).
    The compute scheduler, binding resolver and code generator are not
    part of the sources at hand; they are modelled from the specification
    and marked as such. *)

From stdpp Require Import gmap strings list fin_maps pretty.
From Stdlib Require Import ZArith Lia.
From Stdlib Require QArith.

Local Open Scope Z_scope.
Local Open Scope nat_scope.

(* ===================================================================== *)
(** ** HierarchyComponent *)
(* ===================================================================== *)

Module Hierarchy.

(** [Entity] is a JavaScript number.  For the constructor only the
    truthiness of the number matters: [0] (and [-0]) and [NaN] are the
    falsy numbers, every other number is truthy. *)
Inductive Entity : Type :=
| Num (z : Z)
| NaN.

Definition truthy (e : Entity) : bool :=
  match e with
  | Num z => negb (z =? 0)%Z
  | NaN => false
  end.

(** [Partial<NonFunctionProperties<HierarchyComponent>>]: the only data
    property is [parentID], and it may be absent ([undefined]). *)
Record Data : Type := mkData { data_parentID : option Entity }.

Record HierarchyComponent : Type := mkHierarchy { parentID : Entity }.

(** JavaScript's [a || b] on an optional number. *)
Definition js_or (a : option Entity) (b : Entity) : Entity :=
  match a with
  | Some e => if truthy e then e else b
  | None => b
  end.

(** [constructor(data) { super(data); this.parentID = data.parentID || -1; }] *)
Definition constructor (data : Data) : HierarchyComponent :=
  {| parentID := js_or (data_parentID data) (Num (-1)) |}.

End Hierarchy.

(* ===================================================================== *)
(** ** The Fruchterman driver: [buildTextureData] *)
(* ===================================================================== *)

Module Fruchterman.

(** Rounding of an integer to the nearest IEEE binary32 value, ties to
    even: integers of magnitude below [2^24] are representable, larger
    ones keep 24 significant bits.  (JavaScript array lengths stay below
    [2^32], far from the binary32 overflow threshold.) *)
Definition fround_Z (z : Z) : Z :=
  let a := Z.abs z in
  if (a <? 2 ^ 24)%Z then z
  else
    let e := (Z.log2 a - 23)%Z in
    let q := Z.shiftr a e in
    let r := Z.land a (Z.ones e) in
    let half := Z.shiftl 1 (e - 1) in
    let q' := if (half <? r)%Z || ((r =? half)%Z && Z.odd q)
              then (q + 1)%Z else q in
    (Z.sgn z * Z.shiftl q' e)%Z.

Record edge : Type := mkEdge { source : string; target : string }.

(** Module-level variables of the driver. *)
Record Globals : Type := mkGlobals {
  lineIndexBufferData : list nat;
  maxEdgePerVetex : option nat   (* [let maxEdgePerVetex;] starts undefined *)
}.

Inductive outcome (A : Type) : Type :=
| Return (a : A)
| TypeError (g : Globals)      (* a thrown TypeError, with the globals as left *)
| OutOfFuel.
Arguments Return {A} a.
Arguments TypeError {A} g.
Arguments OutOfFuel {A}.

Section WithCoordinates.

(** The node coordinates [n.x], [n.y] are whatever JavaScript values the
    caller supplies; they are copied into the array and converted by
    [Float32Array] like every other element, and never inspected. *)
Context {coord : Type} (fround : coord -> coord).

Record node : Type := mkNode { x : coord; y : coord; id : string }.

(** Elements of the plain array [dataArray]. *)
Inductive value : Type :=
| VCoord (c : coord)
| VInt (z : Z)
| VUndefined.

(** Elements of the returned [Float32Array]. *)
Inductive float32 : Type :=
| FCoord (c : coord)
| FInt (z : Z)
| FNaN.

Definition toFloat32 (v : value) : float32 :=
  match v with
  | VCoord c => FCoord (fround c)
  | VInt z => FInt (fround_Z z)
  | VUndefined => FNaN
  end.

(** [new Float32Array(dataArray)] *)
Definition Float32Array (dataArray : list value) : list float32 :=
  map toFloat32 dataArray.

(** [mapIdPos[k] = i] on an object literal [{}]: an ordinary key becomes
    an own property; the key [__proto__] reaches the prototype setter,
    which ignores a number. *)
Definition set_prop (m : gmap string nat) (k : string) (i : nat)
  : gmap string nat :=
  if decide (k = "__proto__") then m else <[k := i]> m.

(** [mapIdPos[k]] as an index into [nodeDict]: an own property gives the
    stored position; a missing key gives [undefined], and a key found
    only on [Object.prototype] gives a function or object: neither
    indexes an element of [nodeDict]. *)
Definition get_prop (m : gmap string nat) (k : string) : option nat :=
  m !! k.

(** [a[i] = v] on a plain array: in range it overwrites, out of range
    it extends the array with holes. *)
Definition js_set (a : list value) (i : nat) (v : value) : list value :=
  if decide (i < length a) then <[i := v]> a
  else a ++ replicate (i - length a) VUndefined ++ [v].

(** First loop: one vec4 per node, an empty adjacency list per node,
    and the id-to-position dictionary. *)
Fixpoint loop_nodes (nodes : list node) (i : nat)
    (dataArray : list value) (nodeDict : list (list nat))
    (mapIdPos : gmap string nat)
  : list value * list (list nat) * gmap string nat :=
  match nodes with
  | [] => (dataArray, nodeDict, mapIdPos)
  | n :: rest =>
      loop_nodes rest (S i)
        (dataArray ++ [VCoord (x n); VCoord (y n); VInt 0; VInt 0])
        (nodeDict ++ [[]])
        (set_prop mapIdPos (id n) i)
  end.

(** [nodeDict[i].push(v)]; [None] when [nodeDict[i]] is undefined. *)
Definition push_at (nodeDict : list (list nat)) (i v : nat)
  : option (list (list nat)) :=
  match nodeDict !! i with
  | Some l => Some (<[i := l ++ [v]]> nodeDict)
  | None => None
  end.

(** Second loop.  An endpoint that does not resolve makes
    [nodeDict[...]] undefined and the [push] on it throws; the local
    [nodeDict] is lost with the exception, so only the globals as they
    stand are kept. *)
Fixpoint loop_edges (edges : list edge) (nodeDict : list (list nat))
    (mapIdPos : gmap string nat) (lineIndex : list nat)
  : list (list nat) * list nat + list nat :=
  match edges with
  | [] => inl (nodeDict, lineIndex)
  | e :: rest =>
      match get_prop mapIdPos (source e), get_prop mapIdPos (target e) with
      | Some s, Some t =>
          match push_at nodeDict s t with
          | Some nd1 =>
              match push_at nd1 t s with
              | Some nd2 => loop_edges rest nd2 mapIdPos (lineIndex ++ [s; t])
              | None => inr lineIndex
              end
          | None => inr lineIndex
          end
      | _, _ => inr lineIndex
      end
  end.

(** Inner loop of the third loop: [dataArray.push(+dest)] for each
    destination. *)
Fixpoint push_dests (dests : list nat) (dataArray : list value)
  : list value :=
  match dests with
  | [] => dataArray
  | dest :: rest => push_dests rest (dataArray ++ [VInt (Z.of_nat dest)])
  end.

(** Third loop, for [i] running over [count] further nodes. *)
Fixpoint loop_offsets (count i : nat) (nodeDict : list (list nat))
    (dataArray : list value) (maxE : nat)
  : option (list value * nat) :=
  match count with
  | 0 => Some (dataArray, maxE)
  | S count' =>
      match nodeDict !! i with
      | None => None             (* [dests.length] of undefined *)
      | Some dests =>
          let offset := length dataArray in
          let len := length dests in
          let d1 := js_set dataArray (i * 4 + 2) (VInt (Z.of_nat offset)) in
          let d2 := js_set d1 (i * 4 + 3) (VInt (Z.of_nat len)) in
          loop_offsets count' (S i) nodeDict (push_dests dests d2)
            (Nat.max maxE len)
      end
  end.

(** [while (dataArray.length % 4 !== 0) dataArray.push(0);] *)
Fixpoint pad_loop (fuel : nat) (dataArray : list value)
  : option (list value) :=
  if decide (length dataArray mod 4 = 0) then Some dataArray
  else match fuel with
       | 0 => None
       | S fuel' => pad_loop fuel' (dataArray ++ [VInt 0])
       end.

Definition buildTextureData (fuel : nat) (nodes : list node)
    (edges : list edge) (g : Globals)
  : outcome (list float32 * Globals) :=
  let '(dataArray, nodeDict, mapIdPos) := loop_nodes nodes 0 [] [] ∅ in
  match loop_edges edges nodeDict mapIdPos (lineIndexBufferData g) with
  | inr lineIndex =>
      TypeError {| lineIndexBufferData := lineIndex;
                   maxEdgePerVetex := maxEdgePerVetex g |}
  | inl (nodeDict', lineIndex) =>
      let g1 := {| lineIndexBufferData := lineIndex;
                   maxEdgePerVetex := Some 0 |} in
      match loop_offsets (length nodes) 0 nodeDict' dataArray 0 with
      | None => TypeError g1
      | Some (dataArray', maxE) =>
          let g2 := {| lineIndexBufferData := lineIndex;
                       maxEdgePerVetex := Some maxE |} in
          match pad_loop fuel dataArray' with
          | None => OutOfFuel
          | Some padded => Return (Float32Array padded, g2)
          end
      end
  end.

(** *** Closed forms of the loops, used to state what they compute *)

(** The dictionary built by the first loop. *)
Fixpoint register (nodes : list node) (i : nat) (m : gmap string nat) : gmap string nat :=
  match nodes with
  | [] => m
  | n :: rest => register rest (S i) (set_prop m (id n) i)
  end.

Definition header (nodes : list node) : list value :=
  flat_map (λ n, [VCoord (x n); VCoord (y n); VInt 0; VInt 0]) nodes.

(** The destinations the second loop pushes onto [nodeDict[i]]. *)
Definition dests_of (m : gmap string nat) (edges : list edge) (i : nat)
  : list nat :=
  flat_map (λ e,
    match m !! source e, m !! target e with
    | Some s, Some t =>
        (if decide (s = i) then [t] else []) ++ (if decide (t = i) then [s] else [])
    | _, _ => []
    end) edges.

Definition resolved (m : gmap string nat) (e : edge) : Prop :=
  is_Some (m !! source e) ∧ is_Some (m !! target e).

(** An edge endpoint the dictionary can resolve: the id of some node, other
    than the key [__proto__]. *)
Definition known (nodes : list node) (k : string) : Prop :=
  k ≠ "__proto__" ∧ k ∈ id <$> nodes.

(** *** What the array is meant to hold, in the words of its description *)

(** The number of edges incident to node [i], each edge counted once for
    each of its endpoints that is node [i] (matched by id). *)
Definition incidence_count (nodes : list node) (edges : list edge) (i : nat)
  : nat :=
  match nodes !! i with
  | Some n =>
      length (filter (λ e, source e = id n) edges)
      + length (filter (λ e, target e = id n) edges)
  | None => 0
  end.

(** The position of the node with a given id. *)
Definition position_of (nodes : list node) (k : string) : option nat :=
  fst <$> list_find (λ n, id n = k) nodes.

(** The adjacency list of node [i]: for each edge in order, the position of
    the other endpoint, once for each endpoint that is node [i]. *)
Definition adjacency (nodes : list node) (edges : list edge) (i : nat)
  : list nat :=
  match nodes !! i with
  | Some n =>
      flat_map (λ e,
        (if decide (source e = id n)
         then option_list (position_of nodes (target e)) else [])
        ++ (if decide (target e = id n)
            then option_list (position_of nodes (source e)) else []))
        edges
  | None => []
  end.

(** The largest incidence count over all nodes (0 for no nodes). *)
Definition max_incidence (nodes : list node) (edges : list edge) : nat :=
  max_list (incidence_count nodes edges <$> seq 0 (length nodes)).

End WithCoordinates.

Arguments VInt {coord} z.
Arguments VUndefined {coord}.
Arguments FInt {coord} z.
Arguments FNaN {coord}.

(** *** Small inputs used to run the function *)

Definition plain_node (k : string) : @node unit := mkNode tt tt k.
Definition no_rounding (c : unit) : unit := c.
Definition fresh_globals : Globals := mkGlobals [] None.

(** A path a - b - c with a loop on a. *)
Definition path_nodes : list (@node unit) :=
  [plain_node "a"; plain_node "b"; plain_node "c"].
Definition path_edges : list edge :=
  [mkEdge "a" "b"; mkEdge "b" "c"; mkEdge "a" "a"].

(** Two nodes carrying the same id [a], a node [b], and the edge a - b. *)
Definition twin_nodes : list (@node unit) :=
  [plain_node "a"; plain_node "a"; plain_node "b"].
Definition twin_edges : list edge := [mkEdge "a" "b"].

End Fruchterman.

(* ===================================================================== *)
(** ** The compute pipeline: binding resolver and scheduler

    The scheduler, the resolver and the backend are not among the sources;
    this module is written from the specification (sections 3 to 7). *)
(* ===================================================================== *)

Module Pipeline.

(** Modelled from the spec: the data model of section 3 (the compiler
    package that declares it is not among the sources).  A [Binding] is a
    named kernel parameter with its direction, element type and kind. *)
Inductive Direction : Type := In | Out | InOut.
Inductive ElementType : Type := Float | Int | Vec2 | Vec3 | Vec4.
Inductive Kind : Type := Uniform | ArrayBuffer.
Inductive TargetDialect : Type := GLSL100 | GLSL450 | WGSL.

(** Modelled from the spec: [Binding] of section 3. *)
Record Binding : Type := mkBinding {
  name : string;
  direction : Direction;
  elementType : ElementType;
  kind : Kind;
  isCompileTimeConstant : bool
}.

(** Number of scalar components of one element. *)
Definition arity (t : ElementType) : nat :=
  match t with
  | Float | Int => 1
  | Vec2 => 2
  | Vec3 => 3
  | Vec4 => 4
  end.

(** Modelled from the spec: [DispatchDescriptor] of section 3.  The
    scheduler that consumes it is not among the sources. *)
Record DispatchDescriptor : Type := mkDispatch {
  counts : nat * nat * nat;      (* total invocation extents *)
  maxIterations : nat
}.

(** Modelled from the spec: [activeBufferSet] of the iteration state. *)
Inductive BufferSet : Type := Front | Back.

Definition swap (s : BufferSet) : BufferSet :=
  match s with Front => Back | Back => Front end.

(** Modelled from the spec: the error taxonomy of section 7, as far as a
    run can raise it.  A [BindingError] carries the offending binding's
    name, a [BackendError] the iteration whose dispatch failed. *)
Inductive BindingError : Type :=
| MissingBinding (n : string)
| ShapeMismatch (n : string)
| UnresolvedConstant (n : string).

Definition named (e : BindingError) : string :=
  match e with
  | MissingBinding n | ShapeMismatch n | UnresolvedConstant n => n
  end.

Inductive SchedulerError : Type := NoTerminationCondition.

Inductive Error : Type :=
| EBinding (e : BindingError)
| EScheduler (e : SchedulerError)
| EBackend (iteration : nat).

(** Modelled from the spec: the scheduler states of section 4.5, with the
    terminal [Cancelled] state of its cancellation rule. *)
Inductive State : Type :=
| Idle | Compiling | Ready | Running | Completed | Failed | Cancelled.

(** Modelled from the spec: the compiled unit of section 3.  The helper
    functions are kept by name; their declarations are those of the AST. *)
Record ShaderContext : Type := mkContext {
  entryPoint : string;
  workgroupSize : nat * nat * nat;
  bindings : list Binding;
  helperFunctions : list string;
  targetDialect : TargetDialect
}.

Definition BufferHandle : Type := nat.

Section WithNumbers.

Context {num : Type} (zero : num).

(** Modelled from the spec: the host-supplied values of the
    [BindingTable] of section 3, a scalar or a typed numeric array. *)
Inductive HostValue : Type :=
| Scalar (v : num)
| NumericArray (vs : list num).

(** *** The rendering backend, as a fake that records its calls *)

(** Modelled from the spec: what the scheduler binds to a kernel parameter
    for one dispatch (the [bindings] argument of the backend's [dispatch],
    section 6). *)
Inductive Resource : Type :=
| UniformValue (vs : list num)
| ReadOnly (h : BufferHandle)
| WriteOnly (h : BufferHandle)
| ReadWrite (rd wr : BufferHandle).

Definition write_handle (r : Resource) : option BufferHandle :=
  match r with
  | WriteOnly h | ReadWrite _ h => Some h
  | _ => None
  end.

(** Modelled from the spec: a compiled program, opaque to the scheduler
    (section 2).  The fake backend runs it as a function from what an
    invocation can read, and the invocation's index, to the writes the
    invocation performs. *)
Record Write : Type := mkWrite {
  w_binding : string;
  w_index : nat;
  w_value : num
}.

Definition Env : Type := string -> option (list num).
Definition Program : Type := Env -> nat * nat * nat -> list Write.

(** Modelled from the spec: the rendering backend of section 6, as the
    fake of section 9 that records its dispatch calls: its buffers, its
    log, and which of its dispatch calls fail. *)
Record DispatchCall : Type := mkCall {
  call_resources : list (string * Resource);
  call_counts : nat * nat * nat;
  call_workgroup : nat * nat * nat;
  call_read : list (string * list num);     (* contents read, per binding *)
  call_written : list (string * list num)   (* contents left in each write target *)
}.

Record Backend : Type := mkBackend {
  buffers : list (list num);          (* the buffer at handle h is buffers !! h *)
  dispatchLog : list DispatchCall;
  dispatchFails : nat -> bool         (* does the n-th dispatch call fail? *)
}.

(** Modelled from the spec: [allocateBuffer(sizeBytes, initialData?)] and
    [readBuffer(handle)] of section 6; a new buffer gets the next handle. *)
Definition allocateBuffer (initialData : list num) (be : Backend)
  : BufferHandle * Backend :=
  (length (buffers be),
   {| buffers := buffers be ++ [initialData];
      dispatchLog := dispatchLog be;
      dispatchFails := dispatchFails be |}).

Definition readBuffer (be : Backend) (h : BufferHandle) : option (list num) :=
  buffers be !! h.

Fixpoint assoc {A} (k : string) (l : list (string * A)) : option A :=
  match l with
  | [] => None
  | (k', a) :: rest => if decide (k = k') then Some a else assoc k rest
  end.

(** The work items of one dispatch over the extents [(cx, cy, cz)]. *)
Definition invocations (c : nat * nat * nat) : list (nat * nat * nat) :=
  let '(cx, cy, cz) := c in
  z ← seq 0 cz; y ← seq 0 cy; x ← seq 0 cx; [(x, y, z)].

Definition readable (bufs : list (list num)) (r : Resource) : option (list num) :=
  match r with
  | UniformValue vs => Some vs
  | ReadOnly h | ReadWrite h _ => bufs !! h
  | WriteOnly _ => None
  end.

Definition write_target (bufs : list (list num)) (r : Resource)
  : option (list num) :=
  h ← write_handle r; bufs !! h.

Definition contents (look : Resource -> option (list num))
    (rs : list (string * Resource)) : list (string * list num) :=
  omap (λ '(n, r), (λ b, (n, b)) <$> look r) rs.

(** A write lands in the write target of the named binding; a write to a
    binding without one, or past the end of the buffer, is dropped. *)
Definition apply_write (rs : list (string * Resource))
    (bufs : list (list num)) (w : Write) : list (list num) :=
  match assoc (w_binding w) rs ≫= write_handle with
  | Some h => alter (λ b, <[w_index w := w_value w]> b) h bufs
  | None => bufs
  end.

(** Modelled from the spec: [dispatch(program, bindings, workgroupCounts)]
    of section 6.  Every invocation over the extents reads the buffers as
    they were when the dispatch started.  The result is the backend after
    the call and whether the call succeeded. *)
Definition dispatch (program : Program) (rs : list (string * Resource))
    (extents workgroup : nat * nat * nat) (be : Backend) : Backend * bool :=
  let read := contents (readable (buffers be)) rs in
  if dispatchFails be (length (dispatchLog be)) then
    ({| buffers := buffers be;
        dispatchLog := dispatchLog be ++ [mkCall rs extents workgroup read []];
        dispatchFails := dispatchFails be |}, false)
  else
    let env : Env := λ n, assoc n rs ≫= readable (buffers be) in
    let writes := i ← invocations extents; program env i in
    let bufs := foldl (apply_write rs) (buffers be) writes in
    ({| buffers := bufs;
        dispatchLog := dispatchLog be
                       ++ [mkCall rs extents workgroup read
                             (contents (write_target bufs) rs)];
        dispatchFails := dispatchFails be |}, true).

(** *** Binding Resolver *)

(** Modelled from the spec: the checks of the Binding Resolver (section
    4.4), binding by binding in the order of [ctx.bindings]: a
    compile-time constant needs a scalar; an [Out] binding needs nothing
    and is sized from the dispatch extent; every other binding needs an
    entry of the right shape.  No backend call is made while an error can
    still be found. *)
Inductive Planned : Type :=
| PUniform (vs : list num)
| PInput (data : list num)
| POutput (size : nat)
| PPingPong (seed : list num).

Definition extent (d : DispatchDescriptor) : nat :=
  let '(cx, cy, cz) := counts d in cx * cy * cz.

Definition plan_binding (table : gmap string HostValue) (d : DispatchDescriptor)
    (b : Binding) : Planned + BindingError :=
  if isCompileTimeConstant b then
    match table !! name b with
    | Some (Scalar v) => inl (PUniform [v])
    | Some (NumericArray _) => inr (ShapeMismatch (name b))
    | None => inr (UnresolvedConstant (name b))
    end
  else
    match direction b with
    | Out => inl (POutput (extent d * arity (elementType b)))
    | dir =>
        match table !! name b with
        | None => inr (MissingBinding (name b))
        | Some v =>
            match kind b, v with
            | Uniform, Scalar x =>
                if decide (arity (elementType b) = 1) then inl (PUniform [x])
                else inr (ShapeMismatch (name b))
            | Uniform, NumericArray xs =>
                if decide (length xs = arity (elementType b)) then inl (PUniform xs)
                else inr (ShapeMismatch (name b))
            | ArrayBuffer, NumericArray xs =>
                if decide (length xs mod arity (elementType b) = 0) then
                  inl (match dir with InOut => PPingPong xs | _ => PInput xs end)
                else inr (ShapeMismatch (name b))
            | ArrayBuffer, Scalar _ => inr (ShapeMismatch (name b))
            end
        end
    end.

Fixpoint plan (table : gmap string HostValue) (d : DispatchDescriptor)
    (bs : list Binding) : list (string * Planned) + BindingError :=
  match bs with
  | [] => inl []
  | b :: rest =>
      match plan_binding table d b with
      | inr e => inr e
      | inl p =>
          match plan table d rest with
          | inr e => inr e
          | inl ps => inl ((name b, p) :: ps)
          end
      end
  end.

(** Modelled from the spec: the allocations of the Binding Resolver
    (section 4.4).  A resolved binding is a uniform value, a single
    buffer, or the front/back pair of an [InOut] array, whose front is
    seeded with the supplied value; an [Out] buffer and a back buffer are
    zero-initialized. *)
Inductive Resolved : Type :=
| RUniform (vs : list num)
| RInput (h : BufferHandle)
| ROutput (h : BufferHandle)
| RPingPong (front back : BufferHandle).

Definition allocate_one (p : Planned) (be : Backend) : Resolved * Backend :=
  match p with
  | PUniform vs => (RUniform vs, be)
  | PInput data => let '(h, be1) := allocateBuffer data be in (RInput h, be1)
  | POutput size =>
      let '(h, be1) := allocateBuffer (replicate size zero) be in (ROutput h, be1)
  | PPingPong seed =>
      let '(f, be1) := allocateBuffer seed be in
      let '(b, be2) := allocateBuffer (replicate (length seed) zero) be1 in
      (RPingPong f b, be2)
  end.

Fixpoint allocate (ps : list (string * Planned)) (be : Backend)
  : list (string * Resolved) * Backend :=
  match ps with
  | [] => ([], be)
  | (n, p) :: rest =>
      let '(r, be1) := allocate_one p be in
      let '(rs, be2) := allocate rest be1 in
      ((n, r) :: rs, be2)
  end.

(** Modelled from the spec: [resolve(table, ctx)] of section 4.4. *)
Definition resolve (table : gmap string HostValue) (ctx : ShaderContext)
    (d : DispatchDescriptor) (be : Backend)
  : list (string * Resolved) * Backend + BindingError :=
  match plan table d (bindings ctx) with
  | inr e => inr e
  | inl ps => inl (allocate ps be)
  end.

(** *** Compute Scheduler *)

Definition active_of (s : BufferSet) (front back : BufferHandle) : BufferHandle :=
  match s with Front => front | Back => back end.

(** Modelled from the spec: per iteration, an [InOut] binding is read from
    the currently-active buffer and written to the currently-inactive one. *)
Definition resource_of (active : BufferSet) (r : Resolved) : Resource :=
  match r with
  | RUniform vs => UniformValue vs
  | RInput h => ReadOnly h
  | ROutput h => WriteOnly h
  | RPingPong f b => ReadWrite (active_of active f b) (active_of (swap active) f b)
  end.

Definition resources (active : BufferSet) (rb : list (string * Resolved))
  : list (string * Resource) :=
  prod_map (λ n, n) (resource_of active) <$> rb.

Inductive LoopExit : Type := ExitCompleted | ExitFailed | ExitCancelled.

Record Iteration : Type := mkIteration {
  currentIteration : nat;
  activeBufferSet : BufferSet
}.

(** The externally supplied per-iteration predicate, when there is one, is
    asked after an iteration has run, about that iteration. *)
Definition reports (completed : option (nat -> bool)) (n : nat) : bool :=
  match completed, n with
  | Some p, S _ => p n
  | _, _ => false
  end.

(** Modelled from the spec: the dispatch loop of section 4.5 and the
    cooperative cancellation of section 5.  At each iteration boundary the
    scheduler looks for a cancellation request, then asks the predicate
    about the iteration just finished, then compares [currentIteration]
    with [maxIterations]; [remaining] is their difference.  Otherwise it
    issues one dispatch, and after a successful one swaps the buffer sets
    and counts the iteration. *)
Fixpoint dispatchLoop (remaining : nat) (program : Program)
    (rb : list (string * Resolved)) (extents workgroup : nat * nat * nat)
    (completed : option (nat -> bool)) (cancelRequested : nat -> bool)
    (it : Iteration) (be : Backend) : LoopExit * Iteration * Backend :=
  if cancelRequested (currentIteration it) then (ExitCancelled, it, be)
  else if reports completed (currentIteration it) then (ExitCompleted, it, be)
  else
    match remaining with
    | 0 => (ExitCompleted, it, be)
    | S remaining' =>
        match dispatch program (resources (activeBufferSet it) rb)
                extents workgroup be with
        | (be1, false) => (ExitFailed, it, be1)
        | (be1, true) =>
            dispatchLoop remaining' program rb extents workgroup
              completed cancelRequested
              {| currentIteration := S (currentIteration it);
                 activeBufferSet := swap (activeBufferSet it) |}
              be1
        end
    end.

(** Modelled from the spec: the read-back on [Running -> Completed], the
    currently-active buffer of every [Out] and [InOut] buffer binding. *)
Definition snapshot (active : BufferSet) (rb : list (string * Resolved))
    (be : Backend) : list (string * list num) :=
  omap (λ '(n, r),
          match r with
          | ROutput h => (λ b, (n, b)) <$> readBuffer be h
          | RPingPong f b => (λ b, (n, b)) <$> readBuffer be (active_of active f b)
          | _ => None
          end) rb.

(** Modelled from the spec: a compiled kernel (section 6), the compiled
    unit's metadata with its program handle. *)
Record CompiledKernel : Type := mkKernel {
  context : ShaderContext;
  program : Program
}.

(** What a run leaves behind: the states it went through, the error it
    surfaced, the calls of the completion handoff, the iteration state,
    the resolved bindings and the backend. *)
Record RunResult : Type := mkResult {
  visited : list State;                           (* the states, in order *)
  failure : option Error;
  handoffs : list (list (string * list num));     (* calls of [onCompleted] *)
  iteration : Iteration;
  resolved : list (string * Resolved);
  backend : Backend
}.

Definition final (r : RunResult) : State := List.last (visited r) Idle.

(** Modelled from the spec: [run(compiledKernel, dispatch, bindings,
    onCompleted)] of section 6, driving the state machine of section 4.5
    from [Idle]: the bindings are resolved on the way to [Ready], a run
    without a termination condition is rejected at [Ready], and the loop's
    exit decides between [Completed] (with the one handoff), [Failed] and
    [Cancelled]. *)
Definition run (k : CompiledKernel) (d : DispatchDescriptor)
    (table : gmap string HostValue) (completed : option (nat -> bool))
    (cancelRequested : nat -> bool) (be : Backend) : RunResult :=
  let start := {| currentIteration := 0; activeBufferSet := Front |} in
  match resolve table (context k) d be with
  | inr e =>
      mkResult [Idle; Compiling; Failed] (Some (EBinding e)) [] start [] be
  | inl (rb, be1) =>
      match maxIterations d, completed with
      | 0, None =>
          mkResult [Idle; Compiling; Ready; Failed]
            (Some (EScheduler NoTerminationCondition)) [] start rb be1
      | _, _ =>
        match dispatchLoop (maxIterations d) (program k) rb (counts d)
                (workgroupSize (context k)) completed cancelRequested
                start be1 with
        | (ExitCompleted, it, be2) =>
            mkResult [Idle; Compiling; Ready; Running; Completed] None
              [snapshot (activeBufferSet it) rb be2] it rb be2
        | (ExitFailed, it, be2) =>
            mkResult [Idle; Compiling; Ready; Running; Failed]
              (Some (EBackend (currentIteration it))) [] it rb be2
        | (ExitCancelled, it, be2) =>
            mkResult [Idle; Compiling; Ready; Running; Cancelled] None [] it rb be2
        end
      end
  end.

(** The dispatch calls a run has added to the backend's log. *)
Definition issued (be : Backend) (r : RunResult) : list DispatchCall :=
  drop (length (dispatchLog be)) (dispatchLog (backend r)).

(** The buffer set that is active when dispatch number [j] (from 0) of a
    run is issued. *)
Definition active_at (j : nat) : BufferSet := Nat.iter j swap Front.

(** A sequence of dispatch calls as the loop issues them from a given
    active set and buffer contents: each call binds the resources of the
    current active set and reads the buffers as they stand; a call that
    succeeds leaves new contents, and the next call starts from them with
    the sets swapped; a call that fails ends the sequence. *)
Inductive chained (rb : list (string * Resolved))
  : BufferSet -> list (list num) -> list DispatchCall -> Prop :=
| chained_nil a bufs : chained rb a bufs []
| chained_failed a bufs c :
    call_resources c = resources a rb ->
    call_read c = contents (readable bufs) (resources a rb) ->
    chained rb a bufs [c]
| chained_cons a bufs bufs' c cs :
    call_resources c = resources a rb ->
    call_read c = contents (readable bufs) (resources a rb) ->
    call_written c = contents (write_target bufs') (resources a rb) ->
    length bufs' = length bufs ->
    chained rb (swap a) bufs' cs ->
    chained rb a bufs (c :: cs).

(** Handles of a resolved binding that lie within [n] allocated buffers,
    the two of a pair being different buffers. *)
Definition valid_handles (n : nat) (r : Resolved) : Prop :=
  match r with
  | RUniform _ => True
  | RInput h | ROutput h => h < n
  | RPingPong f b => f < n ∧ b < n ∧ f ≠ b
  end.

End WithNumbers.

(** *** The increment scenario *)

Section Scenario.

Context {num : Type} (zero one : num) (add : num -> num -> num).

(** Modelled from the spec: the kernel of the scenario of section 8, with
    one [InOut] vec4-array binding [u_Data], workgroup size (1,1,1) and
    entry body [u_Data[i] = u_Data[i] + [1,0,0,0]], the sum taken
    component by component in the kernel's arithmetic. *)
Definition increment_first : @Program num :=
  λ env '(i, _, _),
    match env "u_Data" with
    | Some buf =>
        match buf !! (4 * i), buf !! (4 * i + 1),
              buf !! (4 * i + 2), buf !! (4 * i + 3) with
        | Some a, Some b, Some c, Some d =>
            [mkWrite "u_Data" (4 * i) (add a one);
             mkWrite "u_Data" (4 * i + 1) (add b zero);
             mkWrite "u_Data" (4 * i + 2) (add c zero);
             mkWrite "u_Data" (4 * i + 3) (add d zero)]
        | _, _, _, _ => []
        end
    | None => []
    end.

Definition u_Data : Binding := mkBinding "u_Data" InOut Vec4 ArrayBuffer false.

Definition increment_kernel : @CompiledKernel num :=
  {| context := {| entryPoint := "compute";
                   workgroupSize := (1, 1, 1);
                   bindings := [u_Data];
                   helperFunctions := [];
                   targetDialect := WGSL |};
     program := increment_first |}.

Definition increment_dispatch : DispatchDescriptor :=
  {| counts := (4, 1, 1); maxIterations := 1 |}.

End Scenario.

(** A backend with no buffers and an empty log whose dispatches succeed,
    and one whose second dispatch fails. *)
Definition fresh_backend : @Backend Z := mkBackend [] [] (λ _, false).
Definition failing_backend : @Backend Z :=
  mkBackend [] [] (λ n, bool_decide (n = 1)).

Definition seed_data : list Z :=
  [10; 20; 30; 40; 1; 2; 3; 4; 5; 6; 7; 8; 9; 9; 9; 9]%Z.

(** A kernel with a uniform input [u_K] next to [u_Data], and a binding
    table that supplies [u_Data] only. *)
Definition u_K : Binding := mkBinding "u_K" In Float Uniform false.

Definition scaled_kernel : @CompiledKernel Z :=
  {| context := {| entryPoint := "compute";
                   workgroupSize := (1, 1, 1);
                   bindings := [u_K; u_Data];
                   helperFunctions := [];
                   targetDialect := WGSL |};
     program := increment_first 0%Z 1%Z Z.add |}.

Definition seed_table : gmap string (@HostValue Z) :=
  {["u_Data" := NumericArray seed_data]}.

Definition three_iterations : DispatchDescriptor :=
  {| counts := (4, 1, 1); maxIterations := 3 |}.

Definition never : nat -> bool := λ _, false.

End Pipeline.

(* ===================================================================== *)
(** ** The scheduler, step by step *)
(* ===================================================================== *)

Module Scheduler.
Import Pipeline.

Section WithNumbers.

Context {num : Type} (zero : num).

(** Modelled from the spec: what a run does that can be observed from
    outside, in the order it happens (sections 4.5 and 6; the scheduler is
    not among the sources): a change of state, a dispatch call returning
    from the backend, an error surfaced to the caller, and a call of the
    completion handoff [onCompleted] with the buffers read back. *)
Inductive Event : Type :=
| Transition (from to : State)
| Dispatched (ok : bool)
| Surfaced (e : Error)
| Handoff (finalBuffers : list (string * list num)).

(** Modelled from the spec: a pipeline instance between two steps of the
    state machine of section 4.5: its state, the iteration state, the
    resolved bindings, the backend, and what has happened so far. *)
Record Machine : Type := mkMachine {
  m_state : State;
  m_iteration : Iteration;
  m_resolved : list (string * @Resolved num);
  m_backend : @Backend num;
  m_events : list Event
}.

Definition idle (be : @Backend num) : Machine :=
  mkMachine Idle {| currentIteration := 0; activeBufferSet := Front |} [] be [].

(** Modelled from the spec: one step of the state machine of section 4.5.
    [Idle -> Compiling] on the run request; [Compiling -> Ready] with the
    buffers allocated by the resolver, or [Compiling -> Failed] with its
    error; [Ready -> Running], or [Ready -> Failed] for a run without a
    termination condition; while [Running], at an iteration boundary, a
    cancellation request leads to [Cancelled], the predicate's word or the
    iteration bound to [Completed], where the buffers are read back and
    handed over, and otherwise one dispatch is issued, whose failure
    leads to [Failed].  The three last states are terminal. *)
Definition advance (k : @CompiledKernel num) (d : DispatchDescriptor)
    (table : gmap string (@HostValue num)) (completed : option (nat -> bool))
    (cancelRequested : nat -> bool) (m : Machine) : option Machine :=
  let it := m_iteration m in
  let rb := m_resolved m in
  let be := m_backend m in
  let go st it' rb' be' evs := Some (mkMachine st it' rb' be' (m_events m ++ evs)) in
  match m_state m with
  | Idle => go Compiling it rb be [Transition Idle Compiling]
  | Compiling =>
      match resolve zero table (context k) d be with
      | inr e =>
          go Failed it rb be [Transition Compiling Failed; Surfaced (EBinding e)]
      | inl (rb1, be1) => go Ready it rb1 be1 [Transition Compiling Ready]
      end
  | Ready =>
      match maxIterations d, completed with
      | 0, None =>
          go Failed it rb be
            [Transition Ready Failed; Surfaced (EScheduler NoTerminationCondition)]
      | _, _ => go Running it rb be [Transition Ready Running]
      end
  | Running =>
      if cancelRequested (currentIteration it) then
        go Cancelled it rb be [Transition Running Cancelled]
      else if reports completed (currentIteration it)
              || bool_decide (maxIterations d ≤ currentIteration it) then
        go Completed it rb be
          [Transition Running Completed;
           Handoff (snapshot (activeBufferSet it) rb be)]
      else
        match dispatch (program k) (resources (activeBufferSet it) rb)
                (counts d) (workgroupSize (context k)) be with
        | (be1, false) =>
            go Failed it rb be1
              [Dispatched false; Transition Running Failed;
               Surfaced (EBackend (currentIteration it))]
        | (be1, true) =>
            go Running
              {| currentIteration := S (currentIteration it);
                 activeBufferSet := swap (activeBufferSet it) |}
              rb be1 [Dispatched true]
        end
  | Completed | Failed | Cancelled => None
  end.

(** The machine after at most [steps] steps, or fewer when it has reached
    a terminal state before. *)
Fixpoint execute (k : @CompiledKernel num) (d : DispatchDescriptor)
    (table : gmap string (@HostValue num)) (completed : option (nat -> bool))
    (cancelRequested : nat -> bool) (steps : nat) (m : Machine) : Machine :=
  match steps with
  | 0 => m
  | S steps' =>
      match advance k d table completed cancelRequested m with
      | Some m' => execute k d table completed cancelRequested steps' m'
      | None => m
      end
  end.

(** The calls of [onCompleted], the states gone through and the errors
    surfaced, as the events tell them. *)
Definition handoffs_of (evs : list Event) : list (list (string * list num)) :=
  omap (λ e, match e with Handoff s => Some s | _ => None end) evs.

Definition states_of (evs : list Event) : list State :=
  Idle :: omap (λ e, match e with Transition _ to => Some to | _ => None end) evs.

Definition errors_of (evs : list Event) : list Error :=
  omap (λ e, match e with Surfaced e => Some e | _ => None end) evs.

Definition completed_dispatches (evs : list Event) : nat :=
  length (omap (λ e, match e with Dispatched true => Some e | _ => None end) evs).

(** Events that belong to the end of a run: reaching a terminal state, the
    handoff, an error. *)
Definition closing (e : Event) : bool :=
  match e with
  | Transition _ (Completed | Failed | Cancelled) | Handoff _ | Surfaced _ => true
  | _ => false
  end.

Definition calm (evs : list Event) : Prop :=
  Forall (λ e, closing e = false) evs.

(** How the events of a machine end, state by state. *)
Definition settled (m : Machine) : Prop :=
  completed_dispatches (m_events m) = currentIteration (m_iteration m)
  ∧ match m_state m with
    | Completed =>
        ∃ pre, calm pre
          ∧ m_events m
            = pre ++ [Transition Running Completed;
                      Handoff (snapshot (activeBufferSet (m_iteration m))
                                 (m_resolved m) (m_backend m))]
    | Failed =>
        ∃ pre from e, calm pre
          ∧ m_events m = pre ++ [Transition from Failed; Surfaced e]
          ∧ ∀ n, e = EBackend n →
              n = currentIteration (m_iteration m) ∧ Dispatched false ∈ pre
    | Cancelled =>
        ∃ pre, calm pre ∧ m_events m = pre ++ [Transition Running Cancelled]
    | _ => calm (m_events m)
    end.

(** The state a loop exit leads to. *)
Definition exit_state (e : LoopExit) : State :=
  match e with
  | ExitCompleted => Completed
  | ExitFailed => Failed
  | ExitCancelled => Cancelled
  end.

End WithNumbers.

End Scheduler.

(* ===================================================================== *)
(** ** Ping-pong buffers from dispatch to dispatch *)
(* ===================================================================== *)

Module PingPong.
Import Pipeline.

Section WithNumbers.
Context {num : Type}.

(** The writes of one dispatch, as [dispatch] collects them: those of every
    invocation over the extents, in order, each invocation reading through
    the same [env]. *)
Definition dispatch_writes (prog : @Program num) (env : @Env num)
    (extents : nat * nat * nat) : list (@Write num) :=
  i ← invocations extents; prog env i.

(** A buffer after the writes addressed to binding [x] have been applied to
    it in order; a write past the end is dropped. *)
Definition overwrite (x : string) (old : list num) (ws : list (@Write num))
  : list num :=
  foldl (λ buf w, if decide (w_binding w = x)
                  then <[w_index w := w_value w]> buf else buf) old ws.

(** The value of the last write to element [e] of binding [x], if any. *)
Fixpoint last_write (x : string) (e : nat) (ws : list (@Write num))
  : option num :=
  match ws with
  | [] => None
  | w :: rest =>
      match last_write x e rest with
      | Some v => Some v
      | None =>
          if decide (w_binding w = x ∧ w_index w = e) then Some (w_value w)
          else None
      end
  end.

(** The buffers after one dispatch that succeeds, as [dispatch] computes
    them from the resolved bindings and the active set. *)
Definition settle (prog : @Program num) (rb : list (string * @Resolved num))
    (extents : nat * nat * nat) (a : BufferSet) (bufs : list (list num))
  : list (list num) :=
  let rs := resources a rb in
  let env : Env := λ n, assoc n rs ≫= readable bufs in
  foldl (apply_write rs) bufs (dispatch_writes prog env extents).

(** The buffers as dispatch number [j] of a loop finds them, when the loop
    starts from the active set [a] and the buffers [bufs]. *)
Fixpoint buffers_at (prog : @Program num) (rb : list (string * @Resolved num))
    (extents : nat * nat * nat) (j : nat) (a : BufferSet)
    (bufs : list (list num)) : list (list num) :=
  match j with
  | 0 => bufs
  | S j' =>
      settle prog rb extents (Nat.iter j' swap a)
        (buffers_at prog rb extents j' a bufs)
  end.

(** The buffer handles of a resolved binding. *)
Definition handles (r : @Resolved num) : list BufferHandle :=
  match r with
  | RUniform _ => []
  | RInput h | ROutput h => [h]
  | RPingPong f b => [f; b]
  end.

(** One write as it lands in the buffer at handle [h]. *)
Definition hit (rs : list (string * @Resource num)) (h : BufferHandle)
    (buf : list num) (w : @Write num) : list num :=
  if decide (assoc (w_binding w) rs ≫= write_handle = Some h)
  then <[w_index w := w_value w]> buf else buf.

End WithNumbers.

(** A dispatch over two work items only: the increment kernel then writes
    the first two elements of [u_Data] and leaves the other two alone. *)
Definition half_dispatch : DispatchDescriptor :=
  {| counts := (2, 1, 1); maxIterations := 3 |}.

End PingPong.

(* ===================================================================== *)
(** ** Kernels with missing and with output bindings *)
(* ===================================================================== *)

Module Resolution.
Import Pipeline.

(** A kernel with two inputs [u_A] and [u_K] and an output [u_Out] next to
    [u_Data]; the table [seed_table] supplies [u_Data] only. *)
Definition u_A : Binding := mkBinding "u_A" In Float Uniform false.
Definition u_Out : Binding := mkBinding "u_Out" Out Vec4 ArrayBuffer false.

Definition unbound_kernel : @CompiledKernel Z :=
  {| context := {| entryPoint := "compute";
                   workgroupSize := (1, 1, 1);
                   bindings := [u_A; u_K; u_Data; u_Out];
                   helperFunctions := [];
                   targetDialect := WGSL |};
     program := increment_first 0%Z 1%Z Z.add |}.

Definition output_kernel : @CompiledKernel Z :=
  {| context := {| entryPoint := "compute";
                   workgroupSize := (1, 1, 1);
                   bindings := [u_Data; u_Out];
                   helperFunctions := [];
                   targetDialect := WGSL |};
     program := increment_first 0%Z 1%Z Z.add |}.

End Resolution.

(* ===================================================================== *)
(** ** The code generators

    The parser, analyzer and generators are not among the sources either;
    this module is written from sections 4.1 to 4.3 of the specification. *)
(* ===================================================================== *)

Module Codegen.
Import Pipeline.

Inductive CodegenError : Type := UnsupportedConstruct | DialectUnsupported.

Inductive CompileError : Type :=
| CEBinding (e : BindingError)
| CECodegen (e : CodegenError).

Section WithNumbers.

Context {num : Type}.

(** Modelled from the spec: what section 4.3 says the two generators
    differ in, left open as the dialect's own words: the
    builtin that holds the invocation index, the spelling of the element
    types and of a numeric literal, and the qualifier of a binding
    declaration, derived from the binding's kind and direction. *)
Record DialectSyntax : Type := mkSyntax {
  invocation_builtin : TargetDialect -> string;
  type_name : TargetDialect -> ElementType -> string;
  binding_qualifier : TargetDialect -> Kind -> Direction -> string;
  literal_text : TargetDialect -> num -> string
}.

Local Unset Elimination Schemes.

(** Modelled from the spec: the AST of sections 4.1 to 4.3 (the parser is
    not among the sources), restricted to what the generators are said to
    map: references to locals, parameters and compile-time constants, the
    canonical invocation-id reference, bindings, indexing, operators, the
    ternary, calls, and the statements [if], [for], [break] and [return]
    besides declarations and assignments. *)
Inductive Expr : Type :=
| ELit (v : num)
| EIdent (x : string)
| EInvocationId
| EMember (x : string)
| EIndex (a i : Expr)
| EUnary (op : string) (e : Expr)
| EBinary (op : string) (l r : Expr)
| ETernary (c a b : Expr)
| ECall (f : string) (args : list Expr).

Inductive Stmt : Type :=
| SDeclare (x : string) (ty : option ElementType) (init : option Expr)
| SAssign (target value : Expr)
| SIf (c : Expr) (thn els : list Stmt)
| SFor (init : Stmt) (c : Expr) (step : Stmt) (body : list Stmt)
| SBreak
| SReturn (e : option Expr)
| SExpr (e : Expr).

Local Set Elimination Schemes.

(** Induction over expressions and statements, with the induction
    hypothesis for every element of a nested list. *)
Section Expr_induction.
Context (P : Expr -> Prop).
Context (Hlit : ∀ v, P (ELit v)) (Hident : ∀ x, P (EIdent x)).
Context (Hinv : P EInvocationId) (Hmember : ∀ x, P (EMember x)).
Context (Hindex : ∀ a i, P a -> P i -> P (EIndex a i)).
Context (Hunary : ∀ op e, P e -> P (EUnary op e)).
Context (Hbinary : ∀ op l r, P l -> P r -> P (EBinary op l r)).
Context (Hternary : ∀ c a b, P c -> P a -> P b -> P (ETernary c a b)).
Context (Hcall : ∀ f args, Forall P args -> P (ECall f args)).

Fixpoint Expr_induction (e : Expr) : P e :=
  match e with
  | ELit v => Hlit v
  | EIdent x => Hident x
  | EInvocationId => Hinv
  | EMember x => Hmember x
  | EIndex a i => Hindex a i (Expr_induction a) (Expr_induction i)
  | EUnary op e1 => Hunary op e1 (Expr_induction e1)
  | EBinary op l r => Hbinary op l r (Expr_induction l) (Expr_induction r)
  | ETernary c a b =>
      Hternary c a b (Expr_induction c) (Expr_induction a) (Expr_induction b)
  | ECall f args =>
      Hcall f args
        ((fix go (l : list Expr) : Forall P l :=
            match l with
            | [] => @List.Forall_nil _ P
            | a :: l' => @List.Forall_cons _ P a l' (Expr_induction a) (go l')
            end) args)
  end.
End Expr_induction.

Section Stmt_induction.
Context (P : Stmt -> Prop).
Context (Hdeclare : ∀ x ty init, P (SDeclare x ty init)).
Context (Hassign : ∀ t v, P (SAssign t v)).
Context (Hif : ∀ c thn els, Forall P thn -> Forall P els -> P (SIf c thn els)).
Context (Hfor : ∀ init c step body,
           P init -> P step -> Forall P body -> P (SFor init c step body)).
Context (Hbreak : P SBreak) (Hreturn : ∀ e, P (SReturn e)).
Context (Hexpr : ∀ e, P (SExpr e)).

Fixpoint Stmt_induction (s : Stmt) : P s :=
  let all := fix go (l : list Stmt) : Forall P l :=
    match l with
    | [] => @List.Forall_nil _ P
    | a :: l' => @List.Forall_cons _ P a l' (Stmt_induction a) (go l')
    end in
  match s with
  | SDeclare x ty init => Hdeclare x ty init
  | SAssign t v => Hassign t v
  | SIf c thn els => Hif c thn els (all thn) (all els)
  | SFor init c step body =>
      Hfor init c step body (Stmt_induction init) (Stmt_induction step) (all body)
  | SBreak => Hbreak
  | SReturn e => Hreturn e
  | SExpr e => Hexpr e
  end.
End Stmt_induction.

(** Modelled from the spec: the function declarations and the AST of
    section 4.1. *)
Record FunctionDecl : Type := mkFunction {
  f_name : string;
  f_params : list (string * ElementType);
  f_return : option ElementType;
  f_body : list Stmt
}.

Record AST : Type := mkAST {
  constants : list string;            (* constants declared without a value *)
  functions : list FunctionDecl
}.

(** Modelled from the spec: the generated target source, as its tokens,
    each with the role it plays there. *)
Inductive Token : Type :=
| TLiteral (v : num)
| TIdentifier (x : string)      (* a symbol referenced at run time *)
| TBinding (x : string)         (* a binding referenced at run time *)
| TDeclared (x : string)        (* the name a declaration introduces *)
| TFunction (f : string)
| TBuiltin (s : string)
| TKeyword (s : string)
| TSymbol (s : string).

(** *** Inlining of compile-time constants *)

(** Modelled from the spec: compile-time constants are inlined as
    literals, substituted textually before structural generation (section
    4.3): every reference to a name that has a value, written as a plain
    identifier or as a member of the kernel, is replaced by the literal of
    that value. *)
Fixpoint inline_expr (values : gmap string num) (e : Expr) : Expr :=
  match e with
  | ELit v => ELit v
  | EIdent x =>
      match values !! x with
      | Some v => ELit v
      | None => EIdent x
      end
  | EInvocationId => EInvocationId
  | EMember x =>
      match values !! x with
      | Some v => ELit v
      | None => EMember x
      end
  | EIndex a i => EIndex (inline_expr values a) (inline_expr values i)
  | EUnary op e1 => EUnary op (inline_expr values e1)
  | EBinary op l r => EBinary op (inline_expr values l) (inline_expr values r)
  | ETernary c a b =>
      ETernary (inline_expr values c) (inline_expr values a) (inline_expr values b)
  | ECall f args => ECall f (map (inline_expr values) args)
  end.

Fixpoint inline_stmt (values : gmap string num) (s : Stmt) : Stmt :=
  match s with
  | SDeclare x ty init => SDeclare x ty (option_map (inline_expr values) init)
  | SAssign t v => SAssign (inline_expr values t) (inline_expr values v)
  | SIf c thn els =>
      SIf (inline_expr values c) (map (inline_stmt values) thn)
        (map (inline_stmt values) els)
  | SFor init c step body =>
      SFor (inline_stmt values init) (inline_expr values c)
        (inline_stmt values step) (map (inline_stmt values) body)
  | SBreak => SBreak
  | SReturn e => SReturn (option_map (inline_expr values) e)
  | SExpr e => SExpr (inline_expr values e)
  end.

Definition inline_function (values : gmap string num) (f : FunctionDecl)
  : FunctionDecl :=
  {| f_name := f_name f; f_params := f_params f; f_return := f_return f;
     f_body := map (inline_stmt values) (f_body f) |}.

Definition inlineConstants (values : gmap string num) (ast : AST) : AST :=
  {| constants := constants ast;
     functions := map (inline_function values) (functions ast) |}.

(** *** Structural generation *)

Section Emit.

Context (syntax : DialectSyntax) (dialect : TargetDialect).

(** Modelled from the spec: expressions and control flow map structurally
    (section 4.3), one construct of the target for each construct of the
    source; the dialect's builtin stands for every canonical invocation-id
    reference. *)
Fixpoint emit_expr (e : Expr) : list Token :=
  match e with
  | ELit v => [TLiteral v]
  | EIdent x => [TIdentifier x]
  | EInvocationId => [TBuiltin (invocation_builtin syntax dialect)]
  | EMember x => [TBinding x]
  | EIndex a i => emit_expr a ++ [TSymbol "["] ++ emit_expr i ++ [TSymbol "]"]
  | EUnary op e1 => [TSymbol op] ++ emit_expr e1
  | EBinary op l r =>
      [TSymbol "("] ++ emit_expr l ++ [TSymbol op] ++ emit_expr r ++ [TSymbol ")"]
  | ETernary c a b =>
      [TSymbol "("] ++ emit_expr c ++ [TSymbol "?"] ++ emit_expr a
      ++ [TSymbol ":"] ++ emit_expr b ++ [TSymbol ")"]
  | ECall f args =>
      [TFunction f; TSymbol "("]
      ++ flat_map (λ a, emit_expr a ++ [TSymbol ","]) args ++ [TSymbol ")"]
  end.

Definition emit_type (ty : option ElementType) : Token :=
  match ty with
  | Some t => TKeyword (type_name syntax dialect t)
  | None => TKeyword "auto"
  end.

Definition emit_init (init : option Expr) : list Token :=
  match init with
  | Some e => [TSymbol "="] ++ emit_expr e
  | None => []
  end.

Fixpoint emit_stmt (s : Stmt) : list Token :=
  match s with
  | SDeclare x ty init =>
      [emit_type ty; TDeclared x] ++ emit_init init ++ [TSymbol ";"]
  | SAssign t v => emit_expr t ++ [TSymbol "="] ++ emit_expr v ++ [TSymbol ";"]
  | SIf c thn els =>
      [TKeyword "if"; TSymbol "("] ++ emit_expr c ++ [TSymbol ")"; TSymbol "{"]
      ++ flat_map emit_stmt thn
      ++ [TSymbol "}"; TKeyword "else"; TSymbol "{"]
      ++ flat_map emit_stmt els ++ [TSymbol "}"]
  | SFor init c step body =>
      [TKeyword "for"; TSymbol "("] ++ emit_stmt init ++ emit_expr c
      ++ [TSymbol ";"] ++ emit_stmt step ++ [TSymbol ")"; TSymbol "{"]
      ++ flat_map emit_stmt body ++ [TSymbol "}"]
  | SBreak => [TKeyword "break"; TSymbol ";"]
  | SReturn e =>
      [TKeyword "return"]
      ++ match e with Some e1 => emit_expr e1 | None => [] end ++ [TSymbol ";"]
  | SExpr e => emit_expr e ++ [TSymbol ";"]
  end.

Definition emit_function (entry : bool) (f : FunctionDecl) : list Token :=
  [if entry then TKeyword "entry" else emit_type (f_return f);
   TFunction (f_name f); TSymbol "("]
  ++ flat_map (λ p, [emit_type (Some p.2); TDeclared p.1; TSymbol ","]) (f_params f)
  ++ [TSymbol ")"; TSymbol "{"]
  ++ flat_map emit_stmt (f_body f) ++ [TSymbol "}"].

Definition emit_binding (b : Binding) : list Token :=
  [TKeyword (binding_qualifier syntax dialect (kind b) (direction b));
   TKeyword (type_name syntax dialect (elementType b));
   TDeclared (name b); TSymbol ";"].

End Emit.

Definition find_function (ast : AST) (n : string) : option FunctionDecl :=
  List.find (λ f, bool_decide (f_name f = n)) (functions ast).

(** Modelled from the spec: the functions that are generated, the helper
    functions of the context, in its order, then the entry function. *)
Definition generated_functions (ctx : ShaderContext) (ast : AST)
  : option (list FunctionDecl * FunctionDecl) :=
  helpers ← mapM (find_function ast) (helperFunctions ctx);
  entry ← find_function ast (entryPoint ctx);
  Some (helpers, entry).

(** Modelled from the spec: the names of the compile-time constants of a
    kernel: the bindings the context marks as such, and the constants the
    source declares without a value (sections 3 and 4.2). *)
Definition constant_names (ctx : ShaderContext) (ast : AST) : list string :=
  (name <$> filter (λ b, isCompileTimeConstant b = true) (bindings ctx))
  ++ constants ast.

(** Modelled from the spec: the structural part of
    [generate(ctx, ast, dialect)] of section 4.3: the declarations of the
    run-time bindings, the helper functions and the entry function.  The
    rejection rules of that section are not part of this model. *)
Definition generate_tokens (syntax : DialectSyntax) (ctx : ShaderContext)
    (ast : AST) (dialect : TargetDialect) : list Token + CodegenError :=
  match generated_functions ctx ast with
  | None => inr UnsupportedConstruct
  | Some (helpers, entry) =>
      inl (flat_map (emit_binding syntax dialect)
             (filter (λ b, name b ∉ constant_names ctx ast) (bindings ctx))
           ++ flat_map (emit_function syntax dialect false) helpers
           ++ emit_function syntax dialect true entry)
  end.

(** The text of a token sequence: the tokens' spellings, each followed by
    a space. *)
Definition spelling (syntax : DialectSyntax) (dialect : TargetDialect)
    (t : Token) : string :=
  match t with
  | TLiteral v => literal_text syntax dialect v
  | TIdentifier x | TBinding x | TDeclared x | TFunction x
  | TBuiltin x | TKeyword x | TSymbol x => x
  end.

Definition render (syntax : DialectSyntax) (dialect : TargetDialect)
    (ts : list Token) : string :=
  foldr (λ t text, spelling syntax dialect t +:+ (" " +:+ text)) EmptyString ts.

(** Modelled from the spec: [generate(ctx, ast, dialect) -> string]. *)
Definition generate (syntax : DialectSyntax) (ctx : ShaderContext) (ast : AST)
    (dialect : TargetDialect) : string + CodegenError :=
  match generate_tokens syntax ctx ast dialect with
  | inl ts => inl (render syntax dialect ts)
  | inr e => inr e
  end.

(** Modelled from the spec: the values of the compile-time constants,
    taken from the binding table; every constant needs a scalar there, and
    a missing one is [UnresolvedConstant] (section 4.4). *)
Fixpoint constant_values (table : gmap string (@HostValue num))
    (names : list string) : gmap string num + BindingError :=
  match names with
  | [] => inl ∅
  | n :: rest =>
      match table !! n with
      | Some (Scalar v) =>
          match constant_values table rest with
          | inl values => inl (<[n := v]> values)
          | inr e => inr e
          end
      | Some (NumericArray _) => inr (ShapeMismatch n)
      | None => inr (UnresolvedConstant n)
      end
  end.

(** Modelled from the spec: compiling with the constants bound.  The
    constants are checked before code generation is invoked, inlined as
    literals, and the result is generated structurally. *)
Definition compile (syntax : DialectSyntax)
    (table : gmap string (@HostValue num)) (ctx : ShaderContext) (ast : AST)
    (dialect : TargetDialect) : string + CompileError :=
  match constant_values table (constant_names ctx ast) with
  | inr e => inr (CEBinding e)
  | inl values =>
      match generate syntax ctx (inlineConstants values ast) dialect with
      | inl text => inl text
      | inr e => inr (CECodegen e)
      end
  end.

(** *** The generated text against the kernel source *)

(** The value the binding table gives to [x] when [x] is the name of a
    compile-time constant of the kernel. *)
Definition constant_value (table : gmap string (@HostValue num))
    (ctx : ShaderContext) (ast : AST) (x : string) : option num :=
  if bool_decide (x ∈ constant_names ctx ast)
  then match table !! x with
       | Some (Scalar v) => Some v
       | _ => None
       end
  else None.

(** A token of the source as it stands in the generated text: a
    reference to a name that has a value stands as the literal of that
    value, every other token as it is. *)
Definition inlined (value : string -> option num) (t : Token) : Token :=
  match t with
  | TIdentifier x | TBinding x =>
      match value x with
      | Some v => TLiteral v
      | None => t
      end
  | _ => t
  end.

(** A token that references the name [x] at run time. *)
Definition references (x : string) (t : Token) : Prop :=
  t = TIdentifier x ∨ t = TBinding x.

End WithNumbers.

(** The words of a text: what stands between its spaces, in order. *)
Fixpoint fields (text : string) : list string :=
  match text with
  | EmptyString => [EmptyString]
  | String c rest =>
      if Ascii.eqb c Ascii.Space then EmptyString :: fields rest
      else match fields rest with
           | w :: ws => String c w :: ws
           | [] => [String c EmptyString]
           end
  end.

Fixpoint spaceless (w : string) : bool :=
  match w with
  | EmptyString => true
  | String c rest => negb (Ascii.eqb c Ascii.Space) && spaceless rest
  end.


(** *** A small kernel used to run the generator

    [for (let j = 0; j < VERTEX_COUNT; j++) {
       if (i >= this.MAX_EDGE_PER_VERTEX) break; else {}
       this.u_Data[i] = this.u_Data[j];
     }] with [i] the invocation index; the context marks [VERTEX_COUNT]
    as a compile-time constant, the source declares
    [MAX_EDGE_PER_VERTEX] without a value.  Literals are written in
    decimal. *)

Definition plain_syntax : @DialectSyntax Z :=
  {| invocation_builtin := λ _, "invocation_id";
     type_name := λ _ t,
       match t with
       | Float => "float" | Int => "int"
       | Vec2 => "vec2" | Vec3 => "vec3" | Vec4 => "vec4"
       end;
     binding_qualifier := λ _ k _,
       match k with Uniform => "uniform" | ArrayBuffer => "buffer" end;
     literal_text := λ _ v, pretty v |}.

Definition VERTEX_COUNT : Binding := mkBinding "VERTEX_COUNT" In Int Uniform true.

Definition count_function : @FunctionDecl Z :=
  {| f_name := "compute"; f_params := []; f_return := None;
     f_body :=
       [SDeclare "i" (Some Int) (Some EInvocationId);
        SFor (SDeclare "j" (Some Int) (Some (ELit 0%Z)))
          (EBinary "<" (EIdent "j") (EIdent "VERTEX_COUNT"))
          (SExpr (EUnary "++" (EIdent "j")))
          [SIf (EBinary ">=" (EIdent "i") (EMember "MAX_EDGE_PER_VERTEX")) [SBreak] [];
           SAssign (EIndex (EMember "u_Data") (EIdent "i"))
             (EIndex (EMember "u_Data") (EIdent "j"))]] |}.

Definition count_ast : @AST Z :=
  {| constants := ["MAX_EDGE_PER_VERTEX"]; functions := [count_function] |}.

Definition count_context : ShaderContext :=
  {| entryPoint := "compute";
     workgroupSize := (1, 1, 1);
     bindings := [VERTEX_COUNT; u_Data];
     helperFunctions := [];
     targetDialect := WGSL |}.

Definition count_table : gmap string (@HostValue Z) :=
  <["VERTEX_COUNT" := Scalar 4%Z]>
    (<["MAX_EDGE_PER_VERTEX" := Scalar 7%Z]> seed_table).

End Codegen.

(* ===================================================================== *)
(** ** The Fruchterman driver: [renderCircles] *)
(* ===================================================================== *)

Module Render.
Import Fruchterman.

(** The index pairs the second loop of [buildTextureData] appends to
    [lineIndexBufferData], given the dictionary the first loop built. *)
Definition line_indices (m : gmap string nat) (edges : list edge) : list nat :=
  flat_map (λ e,
    match m !! source e, m !! target e with
    | Some s, Some t => [s; t]
    | _, _ => []
    end) edges.

(** The positions of an edge's two endpoints, by id. *)
Definition endpoint_positions {coord} (nodes : list (@node coord)) (e : edge)
  : list nat :=
  option_list (position_of nodes (source e))
  ++ option_list (position_of nodes (target e)).

(** JavaScript numbers, with the three operations
    [convertWebGLCoord2Canvas] applies to them.  [NaN] is what [undefined]
    becomes as an operand of [+]. *)
Class JSNumber (num : Type) : Type := {
  plus : num -> num -> num;
  divide : num -> num -> num;
  times : num -> num -> num;
  literal : Z -> num;
  NaN : num
}.

Definition CANVAS_HEIGHT : Z := 600.
Definition CANVAS_WIDTH : Z := 600.

(** The calls [group.addShape(type, { attrs })] of the driver. *)
Inductive Shape (num : Type) : Type :=
| line (x1 y1 x2 y2 : num) (stroke : string) (lineWidth : Z)
| circle (x y : num) (r : Z) (fill stroke : string) (lineWidth : Z).
Arguments line {num} x1 y1 x2 y2 stroke lineWidth.
Arguments circle {num} x y r fill stroke lineWidth.

(** [new Canvas({ container, width, height })] and the groups added to it
    by [canvas.addGroup()], each with the shapes added to that group. *)
Record Canvas (num : Type) : Type := mkCanvas {
  container : string;
  width : Z;
  height : Z;
  groups : list (list (Shape num))
}.
Arguments mkCanvas {num} container width height groups.
Arguments container {num} c.
Arguments width {num} c.
Arguments height {num} c.
Arguments groups {num} c.

Section WithNumbers.

Context {num : Type} `{JSNumber num}.

(** [((c + 1) / 2) * size]; [c] is [None] when it was read past the end
    of the data, i.e. is [undefined]. *)
Definition convertWebGLCoord2Canvas (c : option num) (size : Z) : num :=
  times (divide (plus (default NaN c) (literal 1)) (literal 2)) (literal size).

(** [finalParticleData[index * 4 + k]], where [index] is itself the result
    of an array read: an [undefined] index makes the subscript [NaN], and
    the read [undefined]. *)
Definition particle (finalParticleData : list num) (index : option nat)
    (k : nat) : option num :=
  match index with
  | Some a => finalParticleData !! (a * 4 + k)
  | None => None
  end.

(** The body of the first loop: one group holding one line. *)
Definition edge_line (finalParticleData : list num) (a b : option nat)
  : list (Shape num) :=
  let x1 := particle finalParticleData a 0 in
  let y1 := particle finalParticleData a 1 in
  let x2 := particle finalParticleData b 0 in
  let y2 := particle finalParticleData b 1 in
  [line (convertWebGLCoord2Canvas x1 CANVAS_WIDTH)
        (convertWebGLCoord2Canvas y1 CANVAS_HEIGHT)
        (convertWebGLCoord2Canvas x2 CANVAS_WIDTH)
        (convertWebGLCoord2Canvas y2 CANVAS_HEIGHT)
        "#1890FF" 1].

(** [for (let i = 0; i < lineIndexBufferData.length; i += 2)]: the loop
    walks the array two entries at a time; with an odd length the last
    round reads [lineIndexBufferData[i + 1]] past the end. *)
Fixpoint draw_edges (finalParticleData : list num) (rest : list nat)
  : list (list (Shape num)) :=
  match rest with
  | [] => []
  | [a] => [edge_line finalParticleData (Some a) None]
  | a :: b :: rest' =>
      edge_line finalParticleData (Some a) (Some b)
      :: draw_edges finalParticleData rest'
  end.

(** The body of the second loop, for [i = 4 * k]. *)
Definition node_circle (finalParticleData : list num) (k : nat)
  : list (Shape num) :=
  let x := finalParticleData !! (4 * k) in
  let y := finalParticleData !! (4 * k + 1) in
  [circle (convertWebGLCoord2Canvas x CANVAS_WIDTH)
          (convertWebGLCoord2Canvas y CANVAS_HEIGHT)
          5 "red" "blue" 2].

(** [for (let i = 0; i < numParticles * 4; i += 4)] *)
Definition draw_nodes (finalParticleData : list num) (numParticles : nat)
  : list (list (Shape num)) :=
  node_circle finalParticleData <$> seq 0 numParticles.

(** [renderCircles(finalParticleData, numParticles)], reading the
    module-level [lineIndexBufferData]. *)
Definition renderCircles (finalParticleData : list num) (numParticles : nat)
    (g : Globals) : Canvas num :=
  mkCanvas "container" CANVAS_WIDTH CANVAS_HEIGHT
    (draw_edges finalParticleData (lineIndexBufferData g)
     ++ draw_nodes finalParticleData numParticles).

End WithNumbers.

(** *** Small inputs used to run the functions *)

(** Exact rational numbers (kept in lowest terms) with a NaN beside them,
    which every operation hands on; a division by zero, which the driver
    never performs, is taken to NaN as well. *)
Definition rational (z : Z) : option QArith_base.Q :=
  Some (QArith_base.inject_Z z).

Definition rational_numbers : JSNumber (option QArith_base.Q) :=
  {| plus := λ a b,
       match a, b with
       | Some x, Some y => Some (Qreduction.Qred (QArith_base.Qplus x y))
       | _, _ => None
       end;
     divide := λ a b,
       match a, b with
       | Some x, Some y =>
           if QArith_base.Qeq_bool y (QArith_base.inject_Z 0) then None
           else Some (Qreduction.Qred (QArith_base.Qdiv x y))
       | _, _ => None
       end;
     times := λ a b,
       match a, b with
       | Some x, Some y => Some (Qreduction.Qred (QArith_base.Qmult x y))
       | _, _ => None
       end;
     literal := rational;
     NaN := None |}.

(** Three particles at (-1, -1), (1, 1) and (0, -1). *)
Definition final_data : list (option QArith_base.Q) :=
  rational <$> [-1; -1; 12; 3;  1; 1; 15; 2;  0; -1; 17; 1]%Z.

(** What an earlier call for one edge has left behind. *)
Definition earlier_globals : Globals := mkGlobals [0; 1] (Some 5).

(** The path with an edge to an id that is not there in second place. *)
Definition dangling_edges : list edge :=
  [mkEdge "a" "b"; mkEdge "a" "z"; mkEdge "b" "c"].

(** A node list that has a node with the id [__proto__]. *)
Definition proto_nodes : list (@node unit) :=
  [plain_node "__proto__"; plain_node "a"].

End Render.

(* ===================================================================== *)
(** ** The Fruchterman kernel [gCode]

    The kernel is the text the driver hands to [createComputePipeline].
    Its functions are embedded with the meaning of the shading languages
    it is translated to: [int] is a 32-bit integer, [/] on integers
    truncates, and the floating-point operations are those of the
    device, which are left open. *)
(* ===================================================================== *)

Module Kernel.

(** The device's floating-point numbers and the operations the kernel
    applies to them. *)
Class GLSL (float : Type) : Type := {
  zero : float;                         (* [0] and [0.0] *)
  lit_0_01 : float;                     (* [0.01] *)
  lit_0_5 : float;                      (* [0.5] *)
  add : float -> float -> float;
  sub : float -> float -> float;
  mul : float -> float -> float;
  div : float -> float -> float;
  min : float -> float -> float;
  sqrt : float -> float;
  floor : float -> float;
  gt : float -> float -> bool;
  int : float -> Z                      (* the conversion [int(x)] *)
}.

Record vec4 (float : Type) : Type := mkVec4 {
  e0 : float; e1 : float; e2 : float; e3 : float
}.
Arguments mkVec4 {float} e0 e1 e2 e3.
Arguments e0 {float} v.
Arguments e1 {float} v.
Arguments e2 {float} v.
Arguments e3 {float} v.

Definition vec2 (float : Type) : Type := float * float.

(** What the pipeline binds: the two constants, the buffer [u_Data] as
    the kernel reads it, and the uniforms. *)
Record Bindings (float : Type) : Type := mkBindings {
  MAX_EDGE_PER_VERTEX : Z;
  VERTEX_COUNT : Z;
  u_Data : Z -> vec4 float;
  u_K : float;
  u_K2 : float;
  u_Gravity : float;
  u_Speed : float;
  u_MaxDisplace : float
}.
Arguments mkBindings {float}.
Arguments MAX_EDGE_PER_VERTEX {float} b.
Arguments VERTEX_COUNT {float} b.
Arguments u_Data {float} b.
Arguments u_K {float} b.
Arguments u_K2 {float} b.
Arguments u_Gravity {float} b.
Arguments u_Speed {float} b.
Arguments u_MaxDisplace {float} b.

(** A 32-bit two's complement integer. *)
Definition int32 (z : Z) : Z := ((z + 2 ^ 31) mod 2 ^ 32 - 2 ^ 31)%Z.

(** The values [0, 1, ..., n - 1] a counting loop [for (let p = 0; p < n;
    p++)] runs through. *)
Definition range (n : Z) : list Z := Z.of_nat <$> seq 0 (Z.to_nat n).

Section WithDevice.

Context {float : Type} `{GLSL float} (b : Bindings float).

(** [xDist], [yDist] and [dist] of a node to another one. *)
Definition distance (currentNode nextNode : vec4 float)
  : float * float * float :=
  let xDist := sub (e0 currentNode) (e0 nextNode) in
  let yDist := sub (e1 currentNode) (e1 nextNode) in
  let dist := add (sqrt (add (mul xDist xDist) (mul yDist yDist))) lit_0_01 in
  (xDist, yDist, dist).

(** One round of the loop of [calcRepulsive]. *)
Definition repulse (i : Z) (currentNode : vec4 float) (acc : vec2 float)
    (j : Z) : vec2 float :=
  let '(dx, dy) := acc in
  if (i =? j)%Z then acc
  else
    let nextNode := u_Data b j in
    let '(xDist, yDist, dist) := distance currentNode nextNode in
    if gt dist zero then
      let repulsiveF := div (u_K2 b) dist in
      (add dx (mul (div xDist dist) repulsiveF),
       add dy (mul (div yDist dist) repulsiveF))
    else acc.

Definition calcRepulsive (i : Z) (currentNode : vec4 float) : vec2 float :=
  foldl (repulse i currentNode) (zero, zero) (range (VERTEX_COUNT b)).

Definition calcGravity (currentNode : vec4 float) : vec2 float :=
  let d := sqrt (add (mul (e0 currentNode) (e0 currentNode))
                     (mul (e1 currentNode) (e1 currentNode))) in
  let gf := mul (mul (mul lit_0_01 (u_K b)) (u_Gravity b)) d in
  (div (mul gf (e0 currentNode)) d, div (mul gf (e1 currentNode)) d).

(** The pull of [nextNode] on [currentNode], subtracted from [(dx, dy)]. *)
Definition attract (currentNode : vec4 float) (acc : vec2 float)
    (nextNode : vec4 float) : vec2 float :=
  let '(dx, dy) := acc in
  let '(xDist, yDist, dist) := distance currentNode nextNode in
  let attractiveF := div (mul dist dist) (u_K b) in
  if gt dist zero then
    (sub dx (mul (div xDist dist) attractiveF),
     sub dy (mul (div yDist dist) attractiveF))
  else acc.

(** [buf_offset == 0 ? v[0] : buf_offset == 1 ? v[1] : buf_offset == 2 ?
    v[2] : v[3]] *)
Definition component (v : vec4 float) (buf_offset : Z) : float :=
  if (buf_offset =? 0)%Z then e0 v
  else if (buf_offset =? 1)%Z then e1 v
  else if (buf_offset =? 2)%Z then e2 v
  else e3 v.

(** One round of the loop of [calcAttractive] behind the [break]; the
    state is [node_buffer] and [(dx, dy)]. *)
Definition attractive_round (currentNode : vec4 float) (arr_offset : Z)
    (p : Z) (st : vec4 float * vec2 float) : vec4 float * vec2 float :=
  let '(node_buffer, acc) := st in
  let arr_idx := int32 (arr_offset + p) in
  let buf_offset := int32 (arr_idx - int32 (int32 (arr_idx ÷ 4) * 4)) in
  let node_buffer :=
    if (p =? 0)%Z || (buf_offset =? 0)%Z
    then u_Data b (int32 (arr_idx ÷ 4))
    else node_buffer in
  let float_j := component node_buffer buf_offset in
  let nextNode := u_Data b (int float_j) in
  (node_buffer, attract currentNode acc nextNode).

(** [for (let p = 0; p < MAX_EDGE_PER_VERTEX; p++) { if (p >= length)
    break; ... }], over the values of [p] still to come. *)
Fixpoint attractive_loop (ps : list Z) (currentNode : vec4 float)
    (arr_offset length : Z) (st : vec4 float * vec2 float)
  : vec4 float * vec2 float :=
  match ps with
  | [] => st
  | p :: rest =>
      if (length <=? p)%Z then st
      else attractive_loop rest currentNode arr_offset length
             (attractive_round currentNode arr_offset p st)
  end.

(** [calcAttractive(currentNode)].  [node_buffer] is declared without a
    value; [unset] stands for what it holds until the first round assigns
    it. *)
Definition calcAttractive (unset : vec4 float) (currentNode : vec4 float)
  : vec2 float :=
  let arr_offset := int (floor (add (e2 currentNode) lit_0_5)) in
  let length := int (floor (add (e3 currentNode) lit_0_5)) in
  snd (attractive_loop (range (MAX_EDGE_PER_VERTEX b)) currentNode
         arr_offset length (unset, (zero, zero))).

(** [compute()] for the invocation [i = globalInvocationID.x]: the value
    it stores to [u_Data[i]], if it stores one. *)
Definition compute (unset : vec4 float) (i : Z) : option (vec4 float) :=
  let currentNode := u_Data b i in
  let '(dx, dy) := (zero, zero) in
  if (VERTEX_COUNT b <=? i)%Z then Some currentNode
  else
    let repulsive := calcRepulsive i currentNode in
    let dx := add dx (fst repulsive) in
    let dy := add dy (snd repulsive) in
    let attractive := calcAttractive unset currentNode in
    let dx := add dx (fst attractive) in
    let dy := add dy (snd attractive) in
    let gravity := calcGravity currentNode in
    let dx := sub dx (fst gravity) in
    let dy := sub dy (snd gravity) in
    let dx := mul dx (u_Speed b) in
    let dy := mul dy (u_Speed b) in
    let distLength := sqrt (add (mul dx dx) (mul dy dy)) in
    if gt distLength zero then
      let limitedDist := min (mul (u_MaxDisplace b) (u_Speed b)) distLength in
      Some (mkVec4 (add (e0 currentNode) (mul (div dx distLength) limitedDist))
                   (add (e1 currentNode) (mul (div dy distLength) limitedDist))
                   (e2 currentNode)
                   (e3 currentNode))
    else None.

(** *** The buffer seen as a flat array *)

(** Element [q] of the buffer, counting floats and not vec4s. *)
Definition element (q : Z) : float :=
  component (u_Data b (q ÷ 4)) (Z.rem q 4).

(** The stretch of the flat array [calcAttractive] is meant to go
    through for [currentNode]: [length] elements from [arr_offset] on,
    cut off at [MAX_EDGE_PER_VERTEX]. *)
Definition adjacent (currentNode : vec4 float) : list float :=
  let arr_offset := int (floor (add (e2 currentNode) lit_0_5)) in
  let length := int (floor (add (e3 currentNode) lit_0_5)) in
  (λ p, element (arr_offset + p))
  <$> range (Z.min length (MAX_EDGE_PER_VERTEX b)).

End WithDevice.

(** A [Float32Array] bound to a [vec4[]] buffer, as the driver lays its
    data out (one vec4 per node, [dataArray[i * 4 + 2]]): element [q] of
    the buffer is the four array elements from [4q] on.  The engine that
    uploads the array is not among the sources; a read outside the array
    gives [outside]. *)
Definition texels {float} (outside : vec4 float) (arr : list float) (q : Z)
  : vec4 float :=
  if (q <? 0)%Z then outside
  else
    let k := Z.to_nat q in
    match arr !! (4 * k), arr !! (4 * k + 1), arr !! (4 * k + 2),
          arr !! (4 * k + 3) with
    | Some a, Some b, Some c, Some d => mkVec4 a b c d
    | _, _, _, _ => outside
    end.

(** *** A device and a buffer used to run the kernel *)

(** A device on the elements of the array of the path example.  Its
    conversions give back a stored integer; its addition replaces a
    coordinate by the second operand, and the rest of its arithmetic keeps
    the first operand. *)
Definition plain_device : GLSL (@Fruchterman.float32 unit) :=
  {| zero := Fruchterman.FInt 0;
     lit_0_01 := Fruchterman.FInt 0;
     lit_0_5 := Fruchterman.FInt 0;
     add := λ a b, match a with Fruchterman.FCoord _ => b | _ => a end;
     sub := λ a _, a; mul := λ a _, a; div := λ a _, a;
     min := λ a _, a; sqrt := λ a, a; floor := λ a, a;
     gt := λ _ _, true;
     int := λ a, match a with Fruchterman.FInt z => z | _ => 0%Z end |}.

(** The array [buildTextureData] returns for the path a - b - c with a
    loop on a. *)
Definition path_array : list (@Fruchterman.float32 unit) :=
  [Fruchterman.FCoord tt; Fruchterman.FCoord tt;
   Fruchterman.FInt 12; Fruchterman.FInt 3;
   Fruchterman.FCoord tt; Fruchterman.FCoord tt;
   Fruchterman.FInt 15; Fruchterman.FInt 2;
   Fruchterman.FCoord tt; Fruchterman.FCoord tt;
   Fruchterman.FInt 17; Fruchterman.FInt 1;
   Fruchterman.FInt 1; Fruchterman.FInt 0;
   Fruchterman.FInt 0; Fruchterman.FInt 0;
   Fruchterman.FInt 2; Fruchterman.FInt 1;
   Fruchterman.FInt 0; Fruchterman.FInt 0]%Z.

Definition no_texel : vec4 (@Fruchterman.float32 unit) :=
  mkVec4 Fruchterman.FNaN Fruchterman.FNaN Fruchterman.FNaN Fruchterman.FNaN.

(** The bindings of the driver for that array: three nodes, at most three
    edges at a node. *)
Definition path_bindings : Bindings (@Fruchterman.float32 unit) :=
  {| MAX_EDGE_PER_VERTEX := 3;
     VERTEX_COUNT := 3;
     u_Data := texels no_texel path_array;
     u_K := Fruchterman.FInt 0;
     u_K2 := Fruchterman.FInt 0;
     u_Gravity := Fruchterman.FInt 0;
     u_Speed := Fruchterman.FInt 0;
     u_MaxDisplace := Fruchterman.FInt 0 |}.

(** The buffer after the invocation for node 0 has stored its result on
    [plain_device]: the node has moved, the rest is as before. *)
Definition moved_bindings : Bindings (@Fruchterman.float32 unit) :=
  {| MAX_EDGE_PER_VERTEX := 3;
     VERTEX_COUNT := 3;
     u_Data := λ q,
       if (q =? 0)%Z
       then mkVec4 (Fruchterman.FInt 0) (Fruchterman.FInt 0)
                   (Fruchterman.FInt 12) (Fruchterman.FInt 3)
       else texels no_texel path_array q;
     u_K := Fruchterman.FInt 0;
     u_K2 := Fruchterman.FInt 0;
     u_Gravity := Fruchterman.FInt 0;
     u_Speed := Fruchterman.FInt 0;
     u_MaxDisplace := Fruchterman.FInt 0 |}.

End Kernel.

(* ===================================================================== *)
(** ** Facts about [HierarchyComponent] *)
(* ===================================================================== *)

Module HierarchyFacts.
Import Hierarchy.

Lemma truthy_spec (e : Entity) : truthy e = true ↔ e ≠ Num 0 ∧ e ≠ NaN.
Proof.
  destruct e as [z|]; simpl.
  - rewrite negb_true_iff, Z.eqb_neq. split; [intros Hz; split; congruence|].
    intros [Hz _] ->. by apply Hz.
  - split; [done | intros [_ H]; by destruct H].
Qed.

(** Claim C8.  The constructor keeps a supplied [parentID] exactly when it
    is truthy (a number other than 0 and NaN) and stores the sentinel -1 in
    every other case; a supplied 0 therefore gives the same component as
    an omitted [parentID], namely one with [parentID = -1]. *)
Theorem constructor_parentID (data : Data) :
  (∀ e, data_parentID data = Some e → e ≠ Num 0 → e ≠ NaN →
        parentID (constructor data) = e)
  ∧ (data_parentID data = None ∨ data_parentID data = Some (Num 0)
     ∨ data_parentID data = Some NaN →
     parentID (constructor data) = Num (-1))
  ∧ constructor (mkData (Some (Num 0))) = constructor (mkData None)
  ∧ parentID (constructor (mkData (Some (Num 0)))) = Num (-1).
Proof.
  destruct data as [p]. unfold constructor. simpl. repeat split.
  - intros e -> H0 Hn. simpl.
    by rewrite (proj2 (truthy_spec e) (conj H0 Hn)).
  - by intros [->|[->| ->]].
Qed.

Example constructor_keeps_parent :
  parentID (constructor (mkData (Some (Num 7)))) = Num 7.
Proof. reflexivity. Qed.

Example constructor_drops_entity_zero :
  parentID (constructor (mkData (Some (Num 0)))) = Num (-1).
Proof. reflexivity. Qed.

End HierarchyFacts.

(* ===================================================================== *)
(** ** Facts about [buildTextureData] *)
(* ===================================================================== *)

Module FruchtermanFacts.
Import Fruchterman.

Section WithCoordinates.
Context {coord : Type} (fround : coord -> coord).
Implicit Types (nodes : list (@node coord)) (edges : list edge).
Implicit Types (m : gmap string nat) (nd : list (list nat)).
Implicit Types (d : list (@value coord)).


Lemma loop_nodes_spec nodes i d nd m :
  loop_nodes nodes i d nd m
  = (d ++ header nodes, nd ++ replicate (length nodes) [], register nodes i m).
Proof.
  revert i d nd m. induction nodes as [|n rest IH]; intros i d nd m; simpl.
  - by rewrite !app_nil_r.
  - rewrite IH. by rewrite <- !app_assoc.
Qed.

Lemma length_header nodes : length (header nodes) = 4 * length nodes.
Proof. induction nodes as [|n rest IH]; simpl; lia. Qed.

Lemma set_prop_lookup m k i k' :
  set_prop m k i !! k'
  = if decide (k = k' ∧ k ≠ "__proto__") then Some i else m !! k'.
Proof.
  unfold set_prop. destruct (decide (k = "__proto__")) as [->|Hk].
  - case_decide; [|done]. intuition congruence.
  - rewrite lookup_insert. repeat case_decide; intuition congruence.
Qed.

Lemma register_notin nodes i m k :
  (∀ n, n ∈ nodes → id n ≠ k) → register nodes i m !! k = m !! k.
Proof.
  revert i m. induction nodes as [|n rest IH]; intros i m Hk; simpl; [done|].
  rewrite IH; [|intros n' Hn'; apply Hk; by right].
  rewrite set_prop_lookup. case_decide as H; [|done].
  destruct H as [H _]. exfalso. eapply Hk; [by left|done].
Qed.

Lemma register_proto nodes i m :
  m !! "__proto__" = None → register nodes i m !! "__proto__" = None.
Proof.
  revert i m. induction nodes as [|n rest IH]; intros i m Hm; simpl; [done|].
  apply IH. rewrite set_prop_lookup. case_decide; [|done]. intuition congruence.
Qed.

Lemma register_bound nodes i m k p :
  register nodes i m !! k = Some p →
  m !! k = Some p ∨ (i ≤ p < i + length nodes).
Proof.
  revert i m. induction nodes as [|n rest IH]; intros i m H; simpl in *; [by left|].
  apply IH in H as [H|H]; [|right; lia].
  rewrite set_prop_lookup in H. case_decide; [|by left].
  right. simplify_eq. lia.
Qed.

Lemma register_NoDup nodes i m j n :
  NoDup (id <$> nodes) → nodes !! j = Some n → id n ≠ "__proto__" →
  register nodes i m !! id n = Some (i + j).
Proof.
  revert i m j. induction nodes as [|n0 rest IH]; intros i m j Hnd Hj Hp; [done|].
  rewrite fmap_cons in Hnd. apply NoDup_cons in Hnd as [Hn0 Hnd].
  destruct j as [|j]; simpl in *.
  - simplify_eq. rewrite register_notin.
    + rewrite set_prop_lookup. case_decide; [f_equal; lia | intuition congruence].
    + intros n' Hn' Heq. apply Hn0. rewrite <- Heq. by apply list_elem_of_fmap_2.
  - rewrite (IH (S i) _ j); [f_equal; lia | done..].
Qed.


Lemma push_at_Some nd i v nd' :
  push_at nd i v = Some nd' →
  length nd' = length nd ∧
  ∀ j, nd' !! j = (λ l, l ++ if decide (i = j) then [v] else []) <$> nd !! j.
Proof.
  unfold push_at. destruct (nd !! i) as [l|] eqn:Hl; [|done].
  intros [= <-]. split; [by rewrite length_insert|].
  intros j. destruct (decide (i = j)) as [<-|Hne].
  - rewrite list_lookup_insert_eq; [|by eapply lookup_lt_Some]. by rewrite Hl.
  - rewrite list_lookup_insert_ne; [|done].
    destruct (nd !! j); simpl; [|done]. by rewrite app_nil_r.
Qed.

Lemma push_at_is_Some nd i v : i < length nd → is_Some (push_at nd i v).
Proof.
  intros Hi. unfold push_at.
  destruct (lookup_lt_is_Some_2 nd i Hi) as [l ->]. eauto.
Qed.

Lemma loop_edges_inl edges nd m li nd' li' :
  loop_edges edges nd m li = inl (nd', li') →
  length nd' = length nd
  ∧ (∀ i, nd' !! i = (λ l, l ++ dests_of m edges i) <$> nd !! i)
  ∧ Forall (resolved m) edges.
Proof.
  revert nd li. induction edges as [|e rest IH]; intros nd li H; simpl in H.
  - simplify_eq. split; [done|]. split; [|constructor].
    intros i. destruct (nd' !! i); simpl; [|done]. by rewrite app_nil_r.
  - unfold get_prop in H.
    destruct (m !! source e) as [s|] eqn:Hs; [|done].
    destruct (m !! target e) as [t|] eqn:Ht; [|done].
    destruct (push_at nd s t) as [nd1|] eqn:H1; [|done].
    destruct (push_at nd1 t s) as [nd2|] eqn:H2; [|done].
    apply push_at_Some in H1 as [L1 E1]. apply push_at_Some in H2 as [L2 E2].
    apply IH in H as (L & E & F). split; [congruence|]. split.
    + intros i. rewrite E, E2, E1. simpl. rewrite Hs, Ht.
      destruct (nd !! i); simpl; [|done]. by rewrite <- !app_assoc.
    + constructor; [|done]. split; eauto.
Qed.

Lemma loop_edges_inr edges nd m li li' :
  (∀ k p, m !! k = Some p → p < length nd) →
  loop_edges edges nd m li = inr li' → ¬ Forall (resolved m) edges.
Proof.
  intros Hm. revert nd li Hm. induction edges as [|e rest IH]; intros nd li Hm H; simpl in H; [done|].
  unfold get_prop in H. intros HF. apply Forall_cons in HF as [[[s Hs] [t Ht]] HF].
  rewrite Hs, Ht in H.
  destruct (push_at_is_Some nd s t) as [nd1 H1]; [by eapply Hm|].
  rewrite H1 in H. apply push_at_Some in H1 as H1'. destruct H1' as [L1 _].
  destruct (push_at_is_Some nd1 t s) as [nd2 H2]; [rewrite L1; by eapply Hm|].
  rewrite H2 in H. apply push_at_Some in H2 as [L2 _].
  eapply IH; [| exact H | exact HF]. intros k p Hk. rewrite L2, L1. by eapply Hm.
Qed.


Lemma push_dests_app dests d :
  push_dests dests d = d ++ ((λ dest, VInt (Z.of_nat dest)) <$> dests).
Proof.
  revert d. induction dests as [|dest rest IH]; intros d; simpl.
  - by rewrite app_nil_r.
  - rewrite IH. by rewrite <- app_assoc.
Qed.

Lemma js_set_in_range d i v : i < length d → js_set d i v = <[i := v]> d.
Proof. intros Hi. unfold js_set. by rewrite decide_True. Qed.

Lemma loop_offsets_spec count : ∀ i nd d maxE,
  i + count ≤ length nd → 4 * (i + count) ≤ length d →
  ∃ d',
    loop_offsets count i nd d maxE
    = Some (d', Nat.max maxE (max_list_with length (take count (drop i nd))))
    ∧ length d' = length d + sum_list_with length (take count (drop i nd))
    ∧ (∀ p, p < length d →
         (∀ j, i ≤ j < i + count → p ≠ j * 4 + 2 ∧ p ≠ j * 4 + 3) →
         d' !! p = d !! p)
    ∧ (∀ j dests, i ≤ j < i + count → nd !! j = Some dests →
         let off := length d + sum_list_with length (take (j - i) (drop i nd)) in
         d' !! (j * 4 + 2) = Some (VInt (Z.of_nat off))
         ∧ d' !! (j * 4 + 3) = Some (VInt (Z.of_nat (length dests)))
         ∧ ∀ p dest, dests !! p = Some dest →
             d' !! (off + p) = Some (VInt (Z.of_nat dest))).
Proof.
  induction count as [|count IH]; intros i nd d maxE Hnd Hd.
  - exists d. simpl. rewrite Nat.max_0_r. split; [done|]. split; [lia|].
    split; [done|]. intros; lia.
  - assert (Hx : i < length nd) by lia.
    destruct (lookup_lt_is_Some_2 nd i Hx) as [dests0 Hi].
    simpl. rewrite Hi.
    rewrite (js_set_in_range d) by lia.
    rewrite js_set_in_range by (rewrite length_insert; lia).
    rewrite push_dests_app.
    set (d2 := <[i * 4 + 3 := _]> (<[i * 4 + 2 := _]> d)).
    assert (Hl2 : length d2 = length d) by (unfold d2; by rewrite !length_insert).
    set (d3 := d2 ++ _).
    assert (Hl3 : length d3 = length d + length dests0)
      by (unfold d3; by rewrite length_app, length_fmap, Hl2).
    destruct (IH (S i) nd d3 (Nat.max maxE (length dests0)))
      as (d' & Hrun & Hlen & Hkeep & Hnew); [lia | lia |].
    rewrite (drop_S nd dests0 i Hi). simpl.
    exists d'. split; [rewrite Hrun; f_equal; f_equal; lia|].
    split; [lia|]. split.
    + intros p Hp Hj. rewrite Hkeep; [| lia | intros j ?; apply Hj; lia].
      unfold d3. rewrite lookup_app_l by lia. unfold d2.
      destruct (Hj i) as [? ?]; [lia|].
      by rewrite !list_lookup_insert_ne.
    + intros j dests Hj Hjd. destruct (decide (j = i)) as [->|Hne].
      * rewrite Nat.sub_diag. simpl. rewrite Nat.add_0_r.
        assert (dests = dests0) as -> by congruence.
        rewrite !Hkeep; [| lia | intros; lia | lia | intros; lia].
        unfold d3. rewrite !lookup_app_l by lia. unfold d2.
        rewrite list_lookup_insert_ne by lia.
        rewrite list_lookup_insert_eq by lia.
        rewrite list_lookup_insert_eq by (rewrite length_insert; lia).
        split; [done|]. split; [done|].
        intros p dest Hp.
        assert (p < length dests0) by (by eapply lookup_lt_Some).
        rewrite Hkeep; [| lia | intros; lia].
        unfold d3. rewrite lookup_app_r by lia.
        rewrite Hl2, Nat.add_comm, Nat.add_sub.
        by rewrite list_lookup_fmap, Hp.
      * destruct (Hnew j dests) as (H2 & H3 & Hd'); [lia | done |].
        replace (j - i) with (S (j - S i)) by lia. simpl.
        replace (length d + (length dests0 + sum_list_with length (take (j - S i) (drop (S i) nd))))
          with (length d3 + sum_list_with length (take (j - S i) (drop (S i) nd))) by lia.
        done.
Qed.

Lemma pad_loop_spec fuel d d' :
  pad_loop fuel d = Some d' →
  length d' mod 4 = 0 ∧ ∃ k, d' = d ++ replicate k (VInt 0%Z).
Proof.
  revert d. induction fuel as [|fuel IH]; intros d; simpl; case_decide as Hm.
  - intros [= <-]. split; [done|]. exists 0. by rewrite app_nil_r.
  - done.
  - intros [= <-]. split; [done|]. exists 0. by rewrite app_nil_r.
  - intros H. apply IH in H as [? [k ->]]. split; [done|].
    exists (S k). by rewrite <- app_assoc.
Qed.

Lemma mod4_cases (n : nat) :
  (n mod 4 = 0 ∧ (n + 1) mod 4 = 1) ∨ (n mod 4 = 1 ∧ (n + 1) mod 4 = 2)
  ∨ (n mod 4 = 2 ∧ (n + 1) mod 4 = 3) ∨ (n mod 4 = 3 ∧ (n + 1) mod 4 = 0).
Proof.
  pose proof (Nat.mod_upper_bound n 4).
  pose proof (Nat.div_mod_eq n 4).
  assert (n mod 4 = 0 ∨ n mod 4 = 1 ∨ n mod 4 = 2 ∨ n mod 4 = 3)
    as [E|[E|[E|E]]] by lia.
  - left. split; [done|]. symmetry. apply (Nat.mod_unique _ 4 (n / 4)); lia.
  - right; left. split; [done|]. symmetry. apply (Nat.mod_unique _ 4 (n / 4)); lia.
  - do 2 right; left. split; [done|]. symmetry. apply (Nat.mod_unique _ 4 (n / 4)); lia.
  - do 3 right. split; [done|]. symmetry. apply (Nat.mod_unique _ 4 (S (n / 4))); lia.
Qed.

Lemma pad_loop_total fuel d :
  (4 - length d mod 4) mod 4 ≤ fuel → is_Some (pad_loop fuel d).
Proof.
  revert d. induction fuel as [|fuel IH]; intros d Hf; simpl; case_decide as Hm; eauto.
  - exfalso.
    destruct (mod4_cases (length d)) as [[E _]|[[E _]|[[E _]|[E _]]]];
      rewrite E in *; [done | vm_compute in Hf; lia ..].
  - apply IH. rewrite length_app. cbn [length].
    destruct (mod4_cases (length d)) as [[E E']|[[E E']|[[E E']|[E E']]]];
      rewrite E in *; rewrite E'; [done | vm_compute in Hf |- *; lia ..].
Qed.


Lemma register_inv nodes i m k p :
  register nodes i m !! k = Some p →
  m !! k = Some p
  ∨ (i ≤ p ∧ k ≠ "__proto__" ∧ ∃ n, nodes !! (p - i) = Some n ∧ id n = k).
Proof.
  revert i m. induction nodes as [|n rest IH]; intros i m H; simpl in *; [by left|].
  apply IH in H as [H|(Hp & Hk & n' & Hn' & Hid)].
  - rewrite set_prop_lookup in H. case_decide as Hd; [|by left].
    destruct Hd as [<- Hk]. simplify_eq. right. split; [lia|]. split; [done|].
    exists n. by rewrite Nat.sub_diag.
  - right. split; [lia|]. split; [done|]. exists n'.
    replace (p - i) with (S (p - S i)) by lia. done.
Qed.

Lemma nodeDict_after_edges nodes edges li nd' li' :
  loop_edges edges (replicate (length nodes) []) (register nodes 0 ∅) li
  = inl (nd', li') →
  nd' = dests_of (register nodes 0 ∅) edges <$> seq 0 (length nodes).
Proof.
  intros H. apply loop_edges_inl in H as (L & E & _).
  rewrite length_replicate in L.
  apply list_eq. intros i. rewrite E, list_lookup_fmap.
  destruct (decide (i < length nodes)) as [Hi|Hi].
  - rewrite lookup_replicate_2 by done. by rewrite lookup_seq_lt.
  - rewrite (proj1 (lookup_replicate_None _ _ _)) by lia.
    by rewrite lookup_seq_ge by lia.
Qed.

(** The array before padding and conversion, read off the three loops. *)
Lemma buildTextureData_Return fuel nodes edges g arr g' :
  buildTextureData fround fuel nodes edges g = Return (arr, g') →
  let m := register nodes 0 ∅ in
  let dests := dests_of m edges in
  let off j := 4 * length nodes + sum_list_with length (dests <$> seq 0 j) in
  Forall (resolved m) edges
  ∧ length arr mod 4 = 0
  ∧ off (length nodes) ≤ length arr
  ∧ maxEdgePerVetex g' = Some (max_list_with length (dests <$> seq 0 (length nodes)))
  ∧ ∀ j, j < length nodes →
      arr !! (j * 4 + 2) = Some (FInt (fround_Z (Z.of_nat (off j))))
      ∧ arr !! (j * 4 + 3) = Some (FInt (fround_Z (Z.of_nat (length (dests j)))))
      ∧ ∀ p dest, dests j !! p = Some dest →
          arr !! (off j + p) = Some (FInt (fround_Z (Z.of_nat dest))).
Proof.
  intros H m dests off.
  unfold buildTextureData in H. rewrite loop_nodes_spec in H. simpl in H.
  destruct (loop_edges _ _ _ _) as [[nd' li']|] eqn:He; [|done].
  pose proof (nodeDict_after_edges _ _ _ _ _ He) as Hnd.
  apply loop_edges_inl in He as (_ & _ & HF).
  fold m in Hnd, HF. fold dests in Hnd.
  assert (Hlen : length nd' = length nodes)
    by (by rewrite Hnd, length_fmap, length_seq).
  destruct (loop_offsets_spec (length nodes) 0 nd' (header nodes) 0)
    as (d' & Hrun & Hl' & Hkeep & Hnew);
    [lia | rewrite length_header; lia |].
  rewrite Hrun in H. rewrite drop_0 in *. rewrite firstn_all2 in * by lia.
  destruct (pad_loop fuel d') as [padded|] eqn:Hp; [|done].
  injection H as <- <-. apply pad_loop_spec in Hp as [Hmod [k ->]].
  unfold Float32Array. rewrite length_map. rewrite length_header in *.
  split; [done|]. split; [done|]. split.
  { rewrite length_app, Hl'. unfold off. rewrite <- Hnd. lia. }
  split; [simpl; by rewrite Hnd|].
  intros j Hj.
  assert (Hjd : nd' !! j = Some (dests j)).
  { rewrite Hnd, list_lookup_fmap, lookup_seq_lt by done. done. }
  destruct (Hnew j (dests j)) as (H2 & H3 & Hd); [lia | done |].
  rewrite Nat.sub_0_r in *.
  assert (Htake : take j nd' = dests <$> seq 0 j).
  { rewrite Hnd, <- fmap_take, take_seq. f_equal. f_equal. lia. }
  rewrite Htake in *. fold (off j) in H2, Hd.
  assert (Hlk : ∀ p v, d' !! p = Some v →
            map (toFloat32 fround) (d' ++ replicate k (VInt 0%Z)) !! p
            = Some (toFloat32 fround v)).
  { intros p v Hpv. change (map (toFloat32 fround)) with (fmap (M:=list) (toFloat32 fround)).
    rewrite list_lookup_fmap, lookup_app_l by (by eapply lookup_lt_Some).
    by rewrite Hpv. }
  split; [by rewrite (Hlk _ _ H2)|]. split; [by rewrite (Hlk _ _ H3)|].
  intros p dest Hpd. by rewrite (Hlk _ _ (Hd p dest Hpd)).
Qed.


Lemma register_elem nodes i m k :
  known nodes k → is_Some (register nodes i m !! k).
Proof.
  intros [Hk Hin]. revert i m.
  induction nodes as [|n rest IH]; intros i m; simpl.
  - by apply elem_of_nil in Hin.
  - destruct (decide (k ∈ id <$> rest)) as [Hr|Hr]; [by apply IH|].
    rewrite fmap_cons in Hin. apply elem_of_cons in Hin as [->|]; [|done].
    rewrite register_notin.
    + rewrite set_prop_lookup. rewrite decide_True by done. eauto.
    + intros n' Hn' Heq. apply Hr. rewrite <- Heq. by apply list_elem_of_fmap_2.
Qed.

Lemma resolved_known nodes e :
  resolved (register nodes 0 ∅) e ↔ known nodes (source e) ∧ known nodes (target e).
Proof.
  assert (∀ k, is_Some (register nodes 0 ∅ !! k) ↔ known nodes k) as Hk.
  { intros k. split; [|apply register_elem].
    intros [p Hp]. apply register_inv in Hp as [Hp|(_ & Hne & n & Hn & <-)]; [done|].
    split; [done|]. apply list_elem_of_fmap_2. by eapply list_elem_of_lookup_2. }
  unfold resolved. by rewrite !Hk.
Qed.

Lemma buildTextureData_outcome fuel nodes edges g :
  3 ≤ fuel →
  match buildTextureData fround fuel nodes edges g with
  | Return _ => Forall (λ e, known nodes (source e) ∧ known nodes (target e)) edges
  | TypeError _ => ¬ Forall (λ e, known nodes (source e) ∧ known nodes (target e)) edges
  | OutOfFuel => False
  end.
Proof.
  intros Hfuel.
  assert (HF : Forall (resolved (register nodes 0 ∅)) edges
               ↔ Forall (λ e, known nodes (source e) ∧ known nodes (target e)) edges).
  { apply Forall_proper; [|done]. intros e. apply resolved_known. }
  destruct (buildTextureData fround fuel nodes edges g) as [[arr g']| g' |] eqn:H.
  - apply buildTextureData_Return in H as (Hres & _). by apply HF.
  - rewrite <- HF. unfold buildTextureData in H. rewrite loop_nodes_spec in H.
    simpl in H.
    destruct (loop_edges _ _ _ _) as [[nd' li']|li'] eqn:He.
    + exfalso. apply loop_edges_inl in He as (L & _ & _).
      rewrite length_replicate in L.
      destruct (loop_offsets_spec (length nodes) 0 nd' (header nodes) 0)
        as (d' & Hrun & _); [lia | rewrite length_header; lia |].
      rewrite Hrun in H. destruct (pad_loop fuel d'); done.
    + eapply loop_edges_inr; [|exact He].
      intros k p Hp. rewrite length_replicate.
      apply register_bound in Hp as [Hp|Hp]; [done | lia].
  - unfold buildTextureData in H. rewrite loop_nodes_spec in H. simpl in H.
    destruct (loop_edges _ _ _ _) as [[nd' li']|li'] eqn:He; [|done].
    destruct (loop_offsets _ _ _ _ _) as [[d' mx]|]; [|done].
    destruct (pad_loop_total fuel d') as [padded Hp].
    + pose proof (Nat.mod_upper_bound (4 - length d' mod 4) 4). lia.
    + by rewrite Hp in H.
Qed.

(** Claim C9.  Whatever the nodes and edges, a call of [buildTextureData]
    that returns hands back a [Float32Array] whose length is a multiple of
    four, so it splits into whole vec4 elements.  The padding loop never
    needs more than three rounds; the only other way out of the function
    is the TypeError thrown for an edge whose endpoint is not the id of a
    node. *)
Theorem buildTextureData_length_multiple_of_4 fuel nodes edges g :
  3 ≤ fuel →
  match buildTextureData fround fuel nodes edges g with
  | Return (arr, _) => length arr mod 4 = 0
  | TypeError _ =>
      ¬ Forall (λ e, known nodes (source e) ∧ known nodes (target e)) edges
  | OutOfFuel => False
  end.
Proof.
  intros Hfuel. pose proof (buildTextureData_outcome fuel nodes edges g Hfuel) as Ho.
  destruct (buildTextureData fround fuel nodes edges g) as [[arr g']| g' |] eqn:H;
    [|done..].
  by apply buildTextureData_Return in H as (_ & Hmod & _).
Qed.


Lemma fround_Z_exact (z : Z) : (Z.abs z ≤ 2 ^ 24)%Z → fround_Z z = z.
Proof.
  intros Hz. unfold fround_Z.
  destruct (Z.ltb_spec (Z.abs z) (2 ^ 24)) as [|Hge]; [done|].
  assert (Z.abs z = 2 ^ 24)%Z as Habs by lia.
  destruct (Z.abs_eq_or_opp z) as [E|E]; rewrite E in Habs.
  - by rewrite Habs.
  - replace z with (- 2 ^ 24)%Z by lia. done.
Qed.

Lemma position_of_NoDup nodes j n :
  NoDup (id <$> nodes) → nodes !! j = Some n → position_of nodes (id n) = Some j.
Proof.
  intros Hnd Hj. unfold position_of.
  destruct (list_find (λ n0, id n0 = id n) nodes) as [[j' n']|] eqn:Hf; simpl.
  - apply list_find_Some in Hf as (Hj' & Heq & _). f_equal.
    apply (NoDup_lookup _ j' j (id n) Hnd).
    + by rewrite list_lookup_fmap, Hj', <- Heq.
    + by rewrite list_lookup_fmap, Hj.
  - exfalso. eapply list_find_None in Hf.
    eapply Forall_lookup_1 in Hf; [|exact Hj]. by apply Hf.
Qed.

Section distinct_ids.
Context (nodes : list (@node coord)) (HNoDup : NoDup (id <$> nodes)).
Local Abbreviation m := (register nodes 0 ∅).

Lemma register_position k s :
  m !! k = Some s →
  position_of nodes k = Some s ∧ ∃ n, nodes !! s = Some n ∧ id n = k.
Proof.
  intros Hs. apply register_inv in Hs as [Hs|(_ & _ & n & Hn & <-)]; [done|].
  rewrite Nat.sub_0_r in Hn. split; [by apply position_of_NoDup | eauto].
Qed.

Lemma register_is_node k s j n :
  m !! k = Some s → nodes !! j = Some n → s = j ↔ k = id n.
Proof.
  intros Hs Hj. apply register_position in Hs as (_ & n' & Hn' & <-). split.
  - intros ->. congruence.
  - intros Heq. apply (NoDup_lookup _ s j (id n) HNoDup).
    + by rewrite list_lookup_fmap, Hn', <- Heq.
    + by rewrite list_lookup_fmap, Hj.
Qed.

Lemma dests_of_adjacency edges j :
  Forall (resolved m) edges → j < length nodes →
  dests_of m edges j = adjacency nodes edges j
  ∧ length (dests_of m edges j) = incidence_count nodes edges j.
Proof.
  intros HF Hj. unfold adjacency, incidence_count.
  destruct (lookup_lt_is_Some_2 nodes j Hj) as [n Hn]. rewrite Hn.
  induction HF as [|e rest [[s Hs] [t Ht]] HF IH]; [done|].
  destruct IH as [IH1 IH2].
  pose proof (register_is_node _ _ _ _ Hs Hn) as Es.
  pose proof (register_is_node _ _ _ _ Ht Hn) as Et.
  unfold dests_of in *. simpl. rewrite Hs, Ht.
  apply register_position in Hs as [Ps _]. apply register_position in Ht as [Pt _].
  split.
  - rewrite IH1, Ps, Pt. simpl.
    f_equal. f_equal; repeat case_decide; intuition congruence.
  - rewrite !filter_cons, !length_app, IH2.
    repeat case_decide; simpl; try lia; intuition congruence.
Qed.

End distinct_ids.

Lemma max_list_with_fmap {A B} (f : B → nat) (g : A → B) (l : list A) :
  max_list_with f (g <$> l) = max_list_with (λ a, f (g a)) l.
Proof. induction l as [|a l IH]; simpl; [done | f_equal; exact IH]. Qed.

Lemma max_list_with_ext (f g : nat → nat) (l : list nat) :
  (∀ i, i ∈ l → f i = g i) →
  max_list_with f l = max_list (g <$> l).
Proof.
  induction l as [|a l IH]; intros H; simpl; [done|].
  rewrite H by (by left). f_equal. apply IH. intros i Hi. apply H. by right.
Qed.


(** Claim C10, as the code has it.  When the node ids are pairwise
    distinct and the call returns, then for every node index [i] the
    array stores at [4i+2] the offset where the adjacency list of node [i]
    begins and at [4i+3] the number of edges incident to node [i] (an edge
    counted once per endpoint), both as rounded by [Float32Array]; the
    adjacency list itself sits at that offset; and [maxEdgePerVetex] ends
    as the largest incidence count.  The rounding changes nothing while
    the array has at most [2^24] elements. *)
Theorem buildTextureData_layout fuel nodes edges g arr g' :
  NoDup (id <$> nodes) →
  buildTextureData fround fuel nodes edges g = Return (arr, g') →
  maxEdgePerVetex g' = Some (max_incidence nodes edges)
  ∧ ∀ i, i < length nodes →
      let count := incidence_count nodes edges i in
      ∃ offset : nat,
        4 * length nodes ≤ offset
        ∧ offset + count ≤ length arr
        ∧ take count (drop offset arr)
          = (λ p, FInt (fround_Z (Z.of_nat p))) <$> adjacency nodes edges i
        ∧ arr !! (4 * i + 2) = Some (FInt (fround_Z (Z.of_nat offset)))
        ∧ arr !! (4 * i + 3) = Some (FInt (fround_Z (Z.of_nat count)))
        ∧ ((Z.of_nat (length arr) ≤ 2 ^ 24)%Z →
           arr !! (4 * i + 2) = Some (FInt (Z.of_nat offset))
           ∧ arr !! (4 * i + 3) = Some (FInt (Z.of_nat count))
           ∧ take count (drop offset arr)
             = (λ p, FInt (Z.of_nat p)) <$> adjacency nodes edges i).
Proof.
  intros Hnd H. apply buildTextureData_Return in H as (HF & _ & Hlen & Hmax & Hat).
  set (m := register nodes 0 ∅) in *. set (dests := dests_of m edges) in *.
  assert (Hlink : ∀ j, j < length nodes →
            dests j = adjacency nodes edges j
            ∧ length (dests j) = incidence_count nodes edges j)
    by (intros j Hj; by apply dests_of_adjacency).
  split.
  { rewrite Hmax. f_equal. unfold max_incidence.
    rewrite max_list_with_fmap. apply max_list_with_ext.
    intros i Hi. apply elem_of_seq in Hi. apply Hlink. lia. }
  intros i Hi count.
  destruct (Hat i Hi) as (H2 & H3 & Hd). destruct (Hlink i Hi) as [Hadj Hcnt].
  set (offset := 4 * length nodes + sum_list_with length (dests <$> seq 0 i)) in *.
  assert (Hle : offset + count ≤ length arr).
  { etrans; [|exact Hlen]. unfold offset, count. rewrite <- Hcnt.
    replace (length nodes) with (i + S (length nodes - S i)) at 3 by lia.
    rewrite seq_app, fmap_app, sum_list_with_app. simpl. lia. }
  assert (Hslice : take count (drop offset arr)
            = (λ p, FInt (fround_Z (Z.of_nat p))) <$> adjacency nodes edges i).
  { apply list_eq. intros p. rewrite list_lookup_fmap, <- Hadj.
    destruct (decide (p < count)) as [Hp|Hp].
    - rewrite lookup_take_lt, lookup_drop by done.
      destruct (lookup_lt_is_Some_2 (dests i) p) as [dest Hdest];
        [unfold count in Hp; lia|].
      rewrite Hdest. simpl. by apply Hd.
    - rewrite lookup_take_ge by lia. unfold count in Hp.
      by rewrite lookup_ge_None_2 by lia. }
  exists offset. rewrite (Nat.mul_comm 4 i).
  split; [unfold offset; lia|]. split; [done|]. split; [done|].
  split; [done|]. split; [by rewrite Hcnt in H3|].
  intros Hsmall.
  assert (Hex : ∀ k : nat, k ≤ length arr → fround_Z (Z.of_nat k) = Z.of_nat k).
  { intros k Hk. apply fround_Z_exact. lia. }
  rewrite H2, H3, Hcnt, Hslice, !Hex by (unfold count in *; lia).
  split; [done|]. split; [done|].
  apply list_fmap_ext. intros p q Hq. rewrite Hex; [done|].
  rewrite <- Hadj in Hq. apply list_elem_of_lookup_2 in Hq.
  unfold dests, dests_of in Hq.
  apply list_elem_of_In, in_flat_map in Hq as (e & _ & Hq).
  apply list_elem_of_In in Hq.
  destruct (m !! source e) as [s|] eqn:Hs; [|by apply elem_of_nil in Hq].
  destruct (m !! target e) as [t|] eqn:Ht; [|by apply elem_of_nil in Hq].
  apply register_bound in Hs as [?|?]; [done|].
  apply register_bound in Ht as [?|?]; [done|].
  enough (q < length nodes) by lia.
  apply elem_of_app in Hq as [Hq|Hq]; case_decide;
    (by apply elem_of_nil in Hq) || (apply list_elem_of_singleton in Hq; lia).
Qed.

End WithCoordinates.

(** The function on the path a - b - c with a loop on a: three vec4
    headers, the three adjacency lists from offset 12, and three zeros of
    padding. *)
Example buildTextureData_path :
  buildTextureData no_rounding 3 path_nodes path_edges fresh_globals
  = Return
      ([FCoord (); FCoord (); FInt 12; FInt 3;
        FCoord (); FCoord (); FInt 15; FInt 2;
        FCoord (); FCoord (); FInt 17; FInt 1;
        FInt 1; FInt 0; FInt 0; FInt 0;
        FInt 2; FInt 1; FInt 0; FInt 0]%Z,
       {| lineIndexBufferData := [0; 1; 1; 2; 0; 0];
          maxEdgePerVetex := Some 3 |}).
Proof. reflexivity. Qed.

(** An edge to an unknown id throws before [maxEdgePerVetex] is touched. *)
Example buildTextureData_dangling_edge :
  buildTextureData no_rounding 3 path_nodes [mkEdge "a" "z"] fresh_globals
  = TypeError fresh_globals.
Proof. reflexivity. Qed.

(** Above [2^24] the conversion to float32 rounds odd integers. *)
Example fround_Z_rounds : fround_Z 16777217 = 16777216%Z.
Proof. reflexivity. Qed.

(** The run of claim C9's theorem on the path. *)
Lemma buildTextureData_length_multiple_of_4_witness :
  match buildTextureData no_rounding 3 path_nodes path_edges fresh_globals with
  | Return (arr, _) => length arr mod 4 = 0
  | TypeError _ =>
      ¬ Forall (λ e, known path_nodes (source e) ∧ known path_nodes (target e))
          path_edges
  | OutOfFuel => False
  end.
Proof.
  apply (buildTextureData_length_multiple_of_4 no_rounding 3 path_nodes
           path_edges fresh_globals).
  lia.
Defined.

Lemma path_nodes_NoDup : NoDup (id <$> path_nodes).
Proof.
  cbv [path_nodes plain_node fmap list_fmap id].
  repeat (apply NoDup_cons_2;
          [rewrite ?not_elem_of_cons; repeat split;
           try discriminate; apply not_elem_of_nil|]).
  apply NoDup_nil_2.
Qed.

(** The layout theorem on the path, where nothing is rounded. *)
Lemma buildTextureData_layout_witness :
  ∃ arr g',
    buildTextureData no_rounding 3 path_nodes path_edges fresh_globals
    = Return (arr, g')
    ∧ maxEdgePerVetex g' = Some (max_incidence path_nodes path_edges)
    ∧ ∀ i, i < length path_nodes →
        ∃ offset : nat,
          arr !! (4 * i + 2) = Some (FInt (Z.of_nat offset))
          ∧ arr !! (4 * i + 3)
            = Some (FInt (Z.of_nat (incidence_count path_nodes path_edges i)))
          ∧ take (incidence_count path_nodes path_edges i) (drop offset arr)
            = (λ p, FInt (Z.of_nat p)) <$> adjacency path_nodes path_edges i.
Proof.
  eexists _, _. split; [vm_compute; reflexivity|].
  destruct (buildTextureData_layout no_rounding 3 path_nodes path_edges
              fresh_globals _ _ path_nodes_NoDup eq_refl) as [Hmax Hat].
  split; [exact Hmax|]. intros i Hi.
  destruct (Hat i Hi) as (offset & _ & _ & _ & _ & _ & Hsmall).
  exists offset. apply Hsmall. vm_compute. discriminate.
Defined.

(** Claim C10 as stated fails when two nodes share an id: the dictionary
    keeps the last position only, so the edge a - b is credited to node 1
    (and node 2) alone, and node 0, whose id is an endpoint of the edge,
    is stored with a count of 0. *)
Lemma buildTextureData_twin_ids_counterexample :
  ∃ arr g',
    buildTextureData no_rounding 3 twin_nodes twin_edges fresh_globals
    = Return (arr, g')
    ∧ incidence_count twin_nodes twin_edges 0 = 1
    ∧ arr !! (4 * 0 + 3) = Some (FInt 0%Z)
    ∧ arr !! (4 * 0 + 3)
      ≠ Some (FInt (Z.of_nat (incidence_count twin_nodes twin_edges 0))).
Proof.
  eexists _, _. split; [vm_compute; reflexivity|].
  split; [reflexivity|]. split; [reflexivity|]. vm_compute. discriminate.
Qed.

End FruchtermanFacts.

(* ===================================================================== *)
(** ** Facts about the compute pipeline *)
(* ===================================================================== *)

Module PipelineFacts.
Import Pipeline.

Section WithNumbers.
Context {num : Type} (zero : num).
Implicit Types (be : @Backend num) (rb : list (string * @Resolved num)).
Implicit Types (rs : list (string * @Resource num)) (bufs : list (list num)).

(** **** Allocation *)

Lemma valid_handles_mono n n' (r : @Resolved num) :
  n ≤ n' → valid_handles n r → valid_handles n' r.
Proof. destruct r; simpl; lia. Qed.

Lemma allocate_one_spec (p : @Planned num) be :
  let '(r, be') := allocate_one zero p be in
  dispatchLog be' = dispatchLog be
  ∧ dispatchFails be' = dispatchFails be
  ∧ (∃ new, buffers be' = buffers be ++ new)
  ∧ valid_handles (length (buffers be')) r.
Proof.
  destruct p as [vs|data|size|seed]; simpl.
  - split; [done|]. split; [done|]. split; [exists []; by rewrite app_nil_r|done].
  - split; [done|]. split; [done|]. split; [by eexists|].
    rewrite length_app. simpl. lia.
  - split; [done|]. split; [done|]. split; [by eexists|].
    rewrite length_app. simpl. lia.
  - split; [done|]. split; [done|]. split.
    + rewrite <- app_assoc. by eexists.
    + rewrite !length_app. simpl. lia.
Qed.

Lemma allocate_spec (ps : list (string * @Planned num)) be :
  let '(rb, be') := allocate zero ps be in
  dispatchLog be' = dispatchLog be
  ∧ dispatchFails be' = dispatchFails be
  ∧ (∃ new, buffers be' = buffers be ++ new)
  ∧ Forall (λ nr, valid_handles (length (buffers be')) nr.2) rb
  ∧ rb.*1 = ps.*1.
Proof.
  revert be. induction ps as [|[n p] ps IH]; intros be; simpl.
  - repeat split; try done. exists []. by rewrite app_nil_r.
  - pose proof (allocate_one_spec p be) as H1.
    destruct (allocate_one zero p be) as [r be1].
    specialize (IH be1). destruct (allocate zero ps be1) as [rb be2].
    destruct H1 as (L1 & F1 & [new1 B1] & V1).
    destruct IH as (L2 & F2 & [new2 B2] & V2 & N2).
    split; [congruence|]. split; [congruence|]. split.
    { exists (new1 ++ new2). by rewrite B2, B1, app_assoc. }
    split; [|rewrite !fmap_cons; simpl; by rewrite N2].
    constructor; [|done]. simpl. eapply valid_handles_mono; [|exact V1].
    rewrite B2, length_app. lia.
Qed.

(** **** One dispatch *)

Lemma apply_write_length rs bufs (w : @Write num) :
  length (apply_write rs bufs w) = length bufs.
Proof.
  unfold apply_write. destruct (_ ≫= _); [|done]. by rewrite length_alter.
Qed.

Lemma foldl_apply_write_length rs (ws : list (@Write num)) bufs :
  length (foldl (apply_write rs) bufs ws) = length bufs.
Proof.
  revert bufs. induction ws as [|w ws IH]; intros bufs; simpl; [done|].
  by rewrite IH, apply_write_length.
Qed.

Lemma dispatch_spec (prog : @Program num) rs ext wg be :
  let '(be', ok) := dispatch prog rs ext wg be in
  ok = negb (dispatchFails be (length (dispatchLog be)))
  ∧ dispatchFails be' = dispatchFails be
  ∧ length (buffers be') = length (buffers be)
  ∧ ∃ c, dispatchLog be' = dispatchLog be ++ [c]
         ∧ call_resources c = rs
         ∧ call_read c = contents (readable (buffers be)) rs
         ∧ (ok = true → call_written c = contents (write_target (buffers be')) rs).
Proof.
  unfold dispatch. destruct (dispatchFails be _); simpl.
  - repeat split; try done. eexists. repeat split; done.
  - repeat split; try done; [by rewrite foldl_apply_write_length|].
    eexists. repeat split; done.
Qed.


(** **** The dispatch loop *)

Section loop.
Context (prog : @Program num) (rb : list (string * @Resolved num)).
Context (ext wg : nat * nat * nat).
Context (completed : option (nat → bool)) (cancelRequested : nat → bool).

Local Abbreviation loop rem it be :=
  (dispatchLoop rem prog rb ext wg completed cancelRequested it be).

Lemma dispatchLoop_calls rem : ∀ it be exit it' be',
  loop rem it be = (exit, it', be') →
  dispatchFails be' = dispatchFails be
  ∧ length (buffers be') = length (buffers be)
  ∧ ∃ calls,
      dispatchLog be' = dispatchLog be ++ calls
      ∧ chained rb (activeBufferSet it) (buffers be) calls
      ∧ length calls
        = currentIteration it' - currentIteration it
          + (if exit is ExitFailed then 1 else 0)
      ∧ currentIteration it ≤ currentIteration it'
      ∧ currentIteration it' ≤ currentIteration it + rem.
Proof.
  assert (Hstop : ∀ (it : Iteration) be (exit : LoopExit),
            exit ≠ ExitFailed →
            dispatchFails be = dispatchFails be
            ∧ length (buffers be) = length (buffers be)
            ∧ ∃ calls,
                dispatchLog be = dispatchLog be ++ calls
                ∧ chained rb (activeBufferSet it) (buffers be) calls
                ∧ length calls
                  = currentIteration it - currentIteration it
                    + (if exit is ExitFailed then 1 else 0)
                ∧ currentIteration it ≤ currentIteration it
                ∧ currentIteration it ≤ currentIteration it + 0).
  { intros it be exit Hexit. split; [done|]. split; [done|].
    exists []. rewrite app_nil_r, Nat.sub_diag.
    split; [done|]. split; [constructor|]. destruct exit; try done; simpl; lia. }
  induction rem as [|rem IH]; intros it be exit it' be'; simpl.
  - destruct (cancelRequested _); [|destruct (reports _ _)];
      intros H; simplify_eq;
      first [by apply (Hstop _ _ ExitCancelled) | by apply (Hstop _ _ ExitCompleted)].
  - destruct (cancelRequested _); [|destruct (reports _ _)].
    1,2: intros H; simplify_eq; split; [done|]; split; [done|];
      exists []; rewrite app_nil_r, Nat.sub_diag;
      (split; [done|]); (split; [constructor|]); simpl; lia.
    pose proof (dispatch_spec prog (resources (activeBufferSet it) rb) ext wg be) as Hd.
    destruct (dispatch _ _ _ _ be) as [be1 ok].
    destruct Hd as (Hok & Hf & Hl & c & Hlog & Hres & Hread & Hwr).
    destruct ok; intros H.
    + apply IH in H as (Hf' & Hl' & calls & Hlog' & Hch & Hlen & Hle & Hub).
      simpl in *. split; [congruence|]. split; [congruence|].
      exists (c :: calls). split; [by rewrite Hlog', Hlog, <- app_assoc|].
      split; [by econstructor; eauto|]. simpl. rewrite Hlen. lia.
    + simplify_eq. split; [done|]. split; [done|].
      exists [c]. split; [done|]. split; [by constructor|]. simpl. lia.
Qed.

(** Without a predicate, a cancellation request or a failing dispatch the
    loop runs for exactly the remaining number of iterations. *)
Lemma dispatchLoop_bound rem : ∀ it be,
  completed = None →
  (∀ n, cancelRequested n = false) →
  (∀ n, dispatchFails be n = false) →
  ∃ it' be',
    loop rem it be = (ExitCompleted, it', be')
    ∧ currentIteration it' = currentIteration it + rem
    ∧ activeBufferSet it' = Nat.iter rem swap (activeBufferSet it).
Proof.
  intros it be Hp Hc. revert it be.
  assert (Hr : ∀ n, reports completed n = false) by (by rewrite Hp).
  induction rem as [|rem IH]; intros it be Hf; simpl; rewrite Hc, Hr.
  - eexists _, _. split; [done|]. split; [lia|done].
  - pose proof (dispatch_spec prog (resources (activeBufferSet it) rb) ext wg be) as Hd.
    destruct (dispatch _ _ _ _ be) as [be1 ok].
    destruct Hd as (Hok & Hf' & _). rewrite Hf in Hok. simpl in Hok. subst ok.
    destruct (IH {| currentIteration := S (currentIteration it);
                    activeBufferSet := swap (activeBufferSet it) |} be1)
      as (it' & be' & Hrun & Hit & Hact); [by intros n; rewrite Hf' |].
    exists it', be'. split; [done|]. simpl in *. split; [lia|].
    rewrite Hact. apply Nat.iter_swap.
Qed.

(** The loop leaves through [ExitCompleted] only at the iteration bound or
    on the predicate's word. *)
Lemma dispatchLoop_completed rem : ∀ it be it' be',
  loop rem it be = (ExitCompleted, it', be') →
  currentIteration it' = currentIteration it + rem
  ∨ ∃ p, completed = Some p ∧ 0 < currentIteration it'
         ∧ p (currentIteration it') = true.
Proof.
  assert (Hpred : ∀ it : Iteration,
            reports completed (currentIteration it) = true →
            ∃ p, completed = Some p ∧ 0 < currentIteration it
                 ∧ p (currentIteration it) = true).
  { intros it Hp. unfold reports in Hp. destruct completed as [p|]; [|done].
    destruct (currentIteration it) eqn:E; [done|]. exists p. split; [done|]. split; [lia|done]. }
  induction rem as [|rem IH]; intros it be it' be'; simpl;
    (destruct (cancelRequested _); [done|]);
    destruct (reports _ _) eqn:Hp.
  - intros H; simplify_eq. right. by apply Hpred.
  - intros H; simplify_eq. left. lia.
  - intros H; simplify_eq. right. by apply Hpred.
  - destruct (dispatch _ _ _ _ be) as [be1 []]; [|done].
    intros H. apply IH in H as [H|H]; [left; simpl in H; lia | by right].
Qed.

End loop.


(** **** Resolution *)

Lemma plan_binding_named table d (b : Binding) (e : BindingError) :
  plan_binding (num:=num) table d b = inr e → named e = name b.
Proof.
  unfold plan_binding. intros H.
  repeat (match type of H with
          | context [match ?x with _ => _ end] => destruct x
          | context [if ?x then _ else _] => destruct x
          end; simplify_eq; try done).
Qed.

Lemma plan_binding_missing table d (b : Binding) :
  direction b = In → table !! name b = None →
  plan_binding (num:=num) table d b
  = inr (if isCompileTimeConstant b then UnresolvedConstant (name b)
         else MissingBinding (name b)).
Proof.
  intros Hd Ht. unfold plan_binding. rewrite Hd, Ht. by destruct (isCompileTimeConstant b).
Qed.

Lemma plan_binding_Out table d (b : Binding) :
  direction b = Out → isCompileTimeConstant b = false →
  plan_binding (num:=num) table d b
  = inl (POutput (extent d * arity (elementType b))).
Proof. intros Hd Hc. unfold plan_binding. by rewrite Hc, Hd. Qed.

Lemma plan_inr table d bs e :
  plan (num:=num) table d bs = inr e →
  ∃ pre b post, bs = pre ++ b :: post
    ∧ Forall (λ b', ∃ p, plan_binding table d b' = inl p) pre
    ∧ plan_binding table d b = inr e.
Proof.
  induction bs as [|b bs IH]; simpl; [done|].
  destruct (plan_binding table d b) as [p|e'] eqn:Hb.
  - destruct (plan table d bs) as [ps|e'']; [done|]. intros [= ->].
    destruct IH as (pre & b' & post & -> & Hpre & Hb'); [done|].
    exists (b :: pre), b', post. split; [done|]. split; [|done].
    constructor; [by exists p | done].
  - intros [= ->]. exists [], b, bs. split; [done|]. split; [constructor | done].
Qed.

Lemma plan_first_failure table d pre b post e :
  Forall (λ b', ∃ p, plan_binding (num:=num) table d b' = inl p) pre →
  plan_binding table d b = inr e →
  plan table d (pre ++ b :: post) = inr e.
Proof.
  intros Hpre Hb. induction Hpre as [|b' pre [p Hp] _ IH]; simpl.
  - by rewrite Hb.
  - by rewrite Hp, IH.
Qed.

Lemma plan_some_failure table d bs b e :
  b ∈ bs → plan_binding (num:=num) table d b = inr e →
  ∃ e', plan table d bs = inr e'.
Proof.
  intros Hin Hb. induction bs as [|b0 bs IH]; [by apply elem_of_nil in Hin|].
  simpl. destruct (plan_binding table d b0) as [p|e0] eqn:H0; [|by eexists].
  apply elem_of_cons in Hin as [->|Hin]; [congruence|].
  destruct (IH Hin) as [e' ->]. by eexists.
Qed.

(** **** Claims about [run] *)

Section run.
Context (k : @CompiledKernel num) (d : DispatchDescriptor).
Context (table : gmap string (@HostValue num)).
Context (completed : option (nat → bool)) (cancelRequested : nat → bool).
Context (be : @Backend num).

Local Abbreviation r := (run zero k d table completed cancelRequested be).

Lemma Completed_only_by_bound_or_predicate :
  final r = Completed →
  length (issued be r) = currentIteration (iteration r)
  ∧ (currentIteration (iteration r) = maxIterations d
     ∨ ∃ p, completed = Some p ∧ 0 < currentIteration (iteration r)
            ∧ p (currentIteration (iteration r)) = true).
Proof.
  unfold run.
  destruct (resolve zero table (context k) d be) as [[rb be1]|e] eqn:Hres; [|done].
  assert (Hlog : dispatchLog be1 = dispatchLog be).
  { unfold resolve in Hres. destruct (plan table d _) as [ps|]; [|done].
    pose proof (allocate_spec ps be) as Ha. simplify_eq.
    destruct (allocate zero ps be); simplify_eq. by destruct Ha. }
  assert (Hgo : ∀ rem, rem = maxIterations d →
    let '(exit, it, be2) :=
      dispatchLoop rem (program k) rb (counts d) (workgroupSize (context k))
        completed cancelRequested
        {| currentIteration := 0; activeBufferSet := Front |} be1 in
    exit = ExitCompleted →
    length (drop (length (dispatchLog be)) (dispatchLog be2)) = currentIteration it
    ∧ (currentIteration it = maxIterations d
       ∨ ∃ p, completed = Some p ∧ 0 < currentIteration it
              ∧ p (currentIteration it) = true)).
  { intros rem ->.
    destruct (dispatchLoop _ _ _ _ _ _ _ _ _) as [[exit it] be2] eqn:Hl.
    intros ->. split.
    - apply dispatchLoop_calls in Hl as (_ & _ & calls & Hl & _ & Hn & _).
      rewrite Hl, Hlog, drop_app_length, Hn. simpl. lia.
    - apply dispatchLoop_completed in Hl as [Hl|Hl]; [left; simpl in Hl; lia | by right]. }
  destruct (maxIterations d) as [|m] eqn:Hm; [destruct completed as [p|] eqn:Hc|].
  2: done.
  all: match goal with
       | |- context [dispatchLoop ?rem _ _ _ _ _ _ _ _] =>
           specialize (Hgo rem eq_refl)
       end;
       destruct (dispatchLoop _ _ _ _ _ _ _ _ _) as [[[] it] be2]; try done;
       intros _; by apply Hgo.
Qed.

End run.

Section bounded_run.
Context (k : @CompiledKernel num) (d : DispatchDescriptor).
Context (table : gmap string (@HostValue num)).
Context (completed : option (nat → bool)) (cancelRequested : nat → bool).
Context (be : @Backend num).

Local Abbreviation r := (run zero k d table completed cancelRequested be).

(** Claim C3.  With [maxIterations = M >= 1], no completion predicate (and
    a run that is neither cancelled nor hit by a backend error, its
    bindings resolving), the loop issues exactly [M] dispatches and the
    scheduler then reaches [Completed].  A run that reaches [Completed] has
    always left the loop either at the iteration bound or because the
    predicate reported completion. *)
Theorem maxIterations_dispatches_then_Completed :
  1 ≤ maxIterations d →
  completed = None →
  (∀ n, cancelRequested n = false) →
  (∀ n, dispatchFails be n = false) →
  (∀ e, resolve zero table (context k) d be ≠ inr e) →
  visited r = [Idle; Compiling; Ready; Running; Completed]
  ∧ final r = Completed
  ∧ length (issued be r) = maxIterations d
  ∧ currentIteration (iteration r) = maxIterations d
  ∧ (∀ completed' cancelRequested' be',
       let r' := run zero k d table completed' cancelRequested' be' in
       final r' = Completed →
       currentIteration (iteration r') = maxIterations d
       ∨ ∃ p, completed' = Some p ∧ p (currentIteration (iteration r')) = true).
Proof.
  intros HM Hp Hc Hf Hres.
  assert (Hvis : visited r = [Idle; Compiling; Ready; Running; Completed]
                 ∧ currentIteration (iteration r) = maxIterations d).
  { unfold run.
    destruct (resolve zero table (context k) d be) as [[rb be1]|e] eqn:Hr;
      [|by destruct (Hres e)].
    assert (Hf1 : ∀ n, dispatchFails be1 n = false).
    { unfold resolve in Hr. destruct (plan table d _) as [ps|]; [|done].
      pose proof (allocate_spec ps be) as Ha. simplify_eq.
      destruct (allocate zero ps be); simplify_eq.
      destruct Ha as (_ & -> & _). done. }
    destruct (dispatchLoop_bound (program k) rb (counts d)
                (workgroupSize (context k)) completed cancelRequested
                (maxIterations d)
                {| currentIteration := 0; activeBufferSet := Front |} be1 Hp Hc Hf1)
      as (it' & be' & Hrun & Hit & _).
    destruct (maxIterations d) as [|m] eqn:Hm; [lia|].
    rewrite Hrun. simpl in *. split; [done | lia]. }
  destruct Hvis as [Hvis Hit].
  assert (Hfin : final r = Completed) by (unfold final; by rewrite Hvis).
  split; [done|]. split; [done|].
  split; [by rewrite (proj1 (Completed_only_by_bound_or_predicate
                                k d table completed cancelRequested be Hfin))|].
  split; [done|].
  intros completed' cancelRequested' be' r' Hfin'.
  destruct (Completed_only_by_bound_or_predicate
              k d table completed' cancelRequested' be' Hfin')
    as [_ [Hb|(p & Hp' & _ & Hrep)]]; [by left | right; eauto].
Qed.

End bounded_run.


(** **** Ping-pong *)

Lemma assoc_resources a rb x :
  assoc x (resources a rb) = resource_of a <$> assoc x rb.
Proof.
  induction rb as [|[n res] rb IH]; simpl; [done|].
  case_decide; [done | exact IH].
Qed.

Lemma assoc_contents (look : @Resource num → option (list num)) rs x res v :
  assoc x rs = Some res → look res = Some v →
  assoc x (contents look rs) = Some v.
Proof.
  intros Hx Hv. induction rs as [|[n res'] rs IH]; simpl in *; [done|].
  case_decide as Hn.
  - simplify_eq. unfold contents. simpl. rewrite Hv. simpl. by rewrite decide_True.
  - specialize (IH Hx). unfold contents in *. simpl.
    destruct (look res'); simpl; [by rewrite decide_False|done].
Qed.

Lemma assoc_elem_of {A} x (l : list (string * A)) v :
  assoc x l = Some v → (x, v) ∈ l.
Proof.
  induction l as [|[n a] l IH]; simpl; [done|].
  case_decide; intros; simplify_eq; [by left | right; by apply IH].
Qed.

Lemma assoc_NoDup {A} (l : list (string * A)) i x v :
  NoDup l.*1 → l !! i = Some (x, v) → assoc x l = Some v.
Proof.
  revert i. induction l as [|[n a] l IH]; intros i Hnd Hi; [done|].
  rewrite fmap_cons in Hnd. apply NoDup_cons in Hnd as [Hn Hnd].
  destruct i as [|i]; simpl in *.
  - simplify_eq. by rewrite decide_True.
  - rewrite decide_False; [by eapply IH|].
    intros ->. apply Hn. apply list_elem_of_fmap. exists (n, v).
    split; [done|]. by eapply list_elem_of_lookup_2.
Qed.

Lemma plan_lookup table d bs ps i (b : Binding) :
  plan (num:=num) table d bs = inl ps → bs !! i = Some b →
  ∃ p, ps !! i = Some (name b, p) ∧ plan_binding table d b = inl p.
Proof.
  revert ps i. induction bs as [|b0 bs IH]; intros ps i Hp Hi; [done|].
  simpl in Hp. destruct (plan_binding table d b0) as [p0|] eqn:H0; [|done].
  destruct (plan table d bs) as [ps0|]; [|done]. simplify_eq.
  destruct i as [|i]; simpl in *; simplify_eq; [eauto|]. by eapply IH.
Qed.

Lemma plan_binding_InOut table d (b : Binding) p :
  direction b = InOut → kind b = ArrayBuffer → isCompileTimeConstant b = false →
  plan_binding (num:=num) table d b = inl p → ∃ seed, p = PPingPong seed.
Proof.
  intros Hd Hk Hc. unfold plan_binding. rewrite Hc, Hd, Hk.
  destruct (table !! name b) as [[v|vs]|]; try done.
  case_decide; [|done]. intros [= <-]. eauto.
Qed.

Lemma plan_names table d bs ps :
  plan (num:=num) table d bs = inl ps → ps.*1 = name <$> bs.
Proof.
  revert ps. induction bs as [|b0 bs IH]; intros ps Hp; simpl in Hp; [by simplify_eq|].
  destruct (plan_binding table d b0) as [p0|]; [|done].
  destruct (plan table d bs) as [ps0|]; [|done]. simplify_eq.
  rewrite !fmap_cons. simpl. f_equal. by apply IH.
Qed.

End WithNumbers.

Section Scenario.
Context {num : Type} (zero one : num) (add : num → num → num).

Lemma foldl_apply_write_same rs h (ws : list (@Write num)) : ∀ bufs,
  Forall (λ w, assoc (w_binding w) rs ≫= write_handle = Some h) ws →
  foldl (apply_write rs) bufs ws
  = alter (λ b, foldl (λ b w, <[w_index w := w_value w]> b) b ws) h bufs.
Proof.
  induction ws as [|w ws IH]; intros bufs Hws; simpl.
  - by rewrite list_alter_id.
  - apply Forall_cons in Hws as [Hw Hws]. rewrite IH by done.
    unfold apply_write. rewrite Hw.
    apply list_eq. intros i. rewrite !list_lookup_alter.
    repeat case_decide; try done. by rewrite <- option_fmap_compose.
Qed.

(** Claim C2.  In the increment scenario (one [InOut] vec4 array [u_Data]
    of four elements, workgroup size (1,1,1), dispatch counts (4,1,1),
    [maxIterations = 1], entry body [u_Data[i] = u_Data[i] + [1,0,0,0]]) a
    run on a backend whose dispatch succeeds completes and hands over one
    buffer for [u_Data], of the seed's length, in which the first
    component of every element is the seed's plus one and components 1 to
    3 are the seed's (adding zero leaves a number as it is). *)
Theorem increment_scenario (seed : list num) table be :
  (∀ x, add x zero = x) →
  length seed = 16 →
  table !! "u_Data" = Some (NumericArray seed) →
  (∀ n, dispatchFails be n = false) →
  let r := run zero (increment_kernel zero one add) increment_dispatch table
             None (λ _, false) be in
  final r = Completed
  ∧ ∃ out, handoffs r = [[("u_Data", out)]]
      ∧ length out = length seed
      ∧ ∀ i, i < 4 →
          out !! (4 * i) = (λ v, add v one) <$> seed !! (4 * i)
          ∧ out !! (4 * i + 1) = seed !! (4 * i + 1)
          ∧ out !! (4 * i + 2) = seed !! (4 * i + 2)
          ∧ out !! (4 * i + 3) = seed !! (4 * i + 3).
Proof.
  intros Hadd Hlen Htable Hok.
  do 16 (destruct seed as [|? seed]; [done|]). destruct seed; [|done]. clear Hlen.
  set (s := [_; _; _; _; _; _; _; _; _; _; _; _; _; _; _; _]) in *.
  destruct be as [bufs log fails]. simpl in Hok.
  unfold run, resolve. cbn [increment_kernel context bindings plan].
  unfold plan_binding. cbn [u_Data isCompileTimeConstant direction name kind elementType].
  rewrite Htable. rewrite decide_True by done.
  cbn [allocate allocate_one allocateBuffer buffers dispatchLog dispatchFails
       increment_dispatch maxIterations counts workgroupSize program].
  cbn [dispatchLoop currentIteration activeBufferSet reports].
  unfold dispatch. cbn [buffers dispatchLog dispatchFails]. rewrite Hok.
  set (f := length bufs). set (b := length (bufs ++ [s])).
  assert (Hb : b = S f) by (unfold b, f; rewrite length_app; simpl; lia).
  set (store := (bufs ++ [s]) ++ [replicate (length s) zero]).
  assert (Hsf : store !! f = Some s).
  { unfold store. rewrite <- app_assoc, lookup_app_r by (unfold f; lia).
    unfold f. by rewrite Nat.sub_diag. }
  assert (Hsb : store !! b = Some (replicate (length s) zero)).
  { unfold store. rewrite lookup_app_r by (unfold b; lia).
    unfold b. by rewrite Nat.sub_diag. }
  cbn [resources fmap list_fmap prod_map resource_of active_of swap fst snd].
  set (rs := [("u_Data", ReadWrite f b)]).
  assert (Hrs : assoc "u_Data" rs = Some (ReadWrite f b))
    by reflexivity.
  set (env := λ n15 : string, assoc n15 rs ≫= readable store).
  assert (Henv : env "u_Data" = Some s) by (unfold env; by rewrite Hrs).
  set (ws := invocations (4, 1, 1) ≫= _).
  assert (Hws : ws =
    [mkWrite "u_Data" 0 (add n one); mkWrite "u_Data" 1 (add n0 zero);
     mkWrite "u_Data" 2 (add n1 zero); mkWrite "u_Data" 3 (add n2 zero);
     mkWrite "u_Data" 4 (add n3 one); mkWrite "u_Data" 5 (add n4 zero);
     mkWrite "u_Data" 6 (add n5 zero); mkWrite "u_Data" 7 (add n6 zero);
     mkWrite "u_Data" 8 (add n7 one); mkWrite "u_Data" 9 (add n8 zero);
     mkWrite "u_Data" 10 (add n9 zero); mkWrite "u_Data" 11 (add n10 zero);
     mkWrite "u_Data" 12 (add n11 one); mkWrite "u_Data" 13 (add n12 zero);
     mkWrite "u_Data" 14 (add n13 zero); mkWrite "u_Data" 15 (add n14 zero)]).
  { unfold ws. change (invocations (4, 1, 1)) with [(0, 0, 0); (1, 0, 0); (2, 0, 0); (3, 0, 0)].
    cbn [mbind list_bind app program increment_kernel increment_first].
    rewrite Henv. reflexivity. }
  rewrite Hws.
  rewrite (foldl_apply_write_same rs b)
    by (repeat constructor; cbn [w_binding]; by rewrite Hrs).
  split; [done|].
  cbn [handoffs snapshot omap list_omap activeBufferSet active_of readBuffer buffers].
  unfold readBuffer. cbn [buffers]. rewrite list_lookup_alter_eq, Hsb.
  eexists. split; [reflexivity|]. split; [reflexivity|].
  intros i Hi. do 4 (destruct i as [|i]; [cbn; by rewrite !Hadd|]). lia.
Qed.

End Scenario.

(** **** Runs on concrete inputs *)

(** A second dispatch fails: the run ends in [Failed] after one completed
    iteration and two dispatch calls, and hands nothing over. *)
Example failed_run_hands_nothing_over :
  let r := run 0%Z (increment_kernel 0%Z 1%Z Z.add) three_iterations
             seed_table None never failing_backend in
  final r = Failed ∧ failure r = Some (EBackend 1) ∧ handoffs r = []
  ∧ length (issued failing_backend r) = 2.
Proof. vm_compute. repeat split. Qed.

(** A cancellation request seen at the second iteration boundary: two
    dispatches, then [Cancelled], and no handoff. *)
Example cancelled_run_hands_nothing_over :
  let r := run 0%Z (increment_kernel 0%Z 1%Z Z.add) three_iterations
             seed_table None (λ n, bool_decide (2 ≤ n)) fresh_backend in
  final r = Cancelled ∧ handoffs r = [] ∧ length (issued fresh_backend r) = 2.
Proof. vm_compute. repeat split. Qed.

(** The increment scenario on integers. *)
Lemma increment_scenario_witness :
  let r := run 0%Z (increment_kernel 0%Z 1%Z Z.add) increment_dispatch
             seed_table None (λ _, false) fresh_backend in
  final r = Completed
  ∧ ∃ out, handoffs r = [[("u_Data", out)]]
      ∧ length out = length seed_data
      ∧ ∀ i, i < 4 →
          out !! (4 * i) = (λ v, (v + 1)%Z) <$> seed_data !! (4 * i)
          ∧ out !! (4 * i + 1) = seed_data !! (4 * i + 1)
          ∧ out !! (4 * i + 2) = seed_data !! (4 * i + 2)
          ∧ out !! (4 * i + 3) = seed_data !! (4 * i + 3).
Proof.
  apply (increment_scenario 0%Z 1%Z Z.add seed_data seed_table fresh_backend).
  - intros x. lia.
  - reflexivity.
  - apply lookup_singleton_eq.
  - reflexivity.
Defined.

(** Three iterations asked for, three dispatches issued. *)
Lemma maxIterations_dispatches_then_Completed_witness :
  let r := run 0%Z (increment_kernel 0%Z 1%Z Z.add) three_iterations
             seed_table None never fresh_backend in
  visited r = [Idle; Compiling; Ready; Running; Completed]
  ∧ final r = Completed
  ∧ length (issued fresh_backend r) = 3
  ∧ currentIteration (iteration r) = 3.
Proof.
  intros r.
  destruct (maxIterations_dispatches_then_Completed 0%Z
              (increment_kernel 0%Z 1%Z Z.add) three_iterations seed_table
              None never fresh_backend)
    as (Hv & Hf & Hn & Hi & _).
  - simpl. lia.
  - reflexivity.
  - reflexivity.
  - reflexivity.
  - intros e. vm_compute. discriminate.
  - repeat split; assumption.
Defined.

End PipelineFacts.

(* ===================================================================== *)
(** ** Facts about the resolver: missing and output bindings *)
(* ===================================================================== *)

Module ResolutionFacts.
Import Pipeline Resolution PipelineFacts.

Section WithNumbers.
Context {num : Type} (zero : num).
Implicit Types (be : @Backend num) (rb : list (string * @Resolved num)).

Lemma binding_by_name (bs : list Binding) (b o : Binding) :
  NoDup (name <$> bs) → b ∈ bs → o ∈ bs → name b = name o → b = o.
Proof.
  intros Hnd Hb Ho Hn.
  apply list_elem_of_lookup in Hb as [i Hi]. apply list_elem_of_lookup in Ho as [j Hj].
  assert (i = j) as ->; [|congruence].
  apply (NoDup_lookup _ i j (name o) Hnd); rewrite list_lookup_fmap.
  - by rewrite Hi, <- Hn.
  - by rewrite Hj.
Qed.

Lemma plan_agree (table1 table2 : gmap string (@HostValue num)) d bs :
  Forall (λ b, plan_binding table1 d b = plan_binding table2 d b) bs →
  plan table1 d bs = plan table2 d bs.
Proof.
  induction 1 as [|b bs Hb _ IH]; simpl; [done|]. by rewrite Hb, IH.
Qed.

Lemma plan_without_Out (table : gmap string (@HostValue num)) d bs (o : Binding) :
  NoDup (name <$> bs) → o ∈ bs →
  direction o = Out → isCompileTimeConstant o = false →
  plan (delete (name o) table) d bs = plan table d bs.
Proof.
  intros Hnd Ho Hdir Hc. apply plan_agree, Forall_forall. intros b Hb.
  destruct (decide (name b = name o)) as [Hn|Hn].
  - assert (b = o) as -> by (by eapply binding_by_name).
    by rewrite !plan_binding_Out.
  - unfold plan_binding. by rewrite lookup_delete_ne.
Qed.

Lemma allocate_Output (ps : list (string * @Planned num)) : ∀ be i n size,
  ps !! i = Some (n, POutput size) →
  ∃ h, (allocate zero ps be).1 !! i = Some (n, ROutput h)
       ∧ length (buffers be) ≤ h
       ∧ buffers (allocate zero ps be).2 !! h = Some (replicate size zero).
Proof.
  induction ps as [|[n0 p0] ps IH]; intros be i n size Hi; [done|].
  simpl. pose proof (allocate_one_spec zero p0 be) as H1.
  destruct (allocate_one zero p0 be) as [r0 be1] eqn:H0.
  destruct H1 as (_ & _ & [new1 B1] & _).
  pose proof (allocate_spec zero ps be1) as H2.
  specialize (IH be1). destruct (allocate zero ps be1) as [rs be2].
  destruct H2 as (_ & _ & [new2 B2] & _).
  destruct i as [|i]; simpl in *.
  - simplify_eq. simpl in H0. simplify_eq. simpl in *.
    exists (length (buffers be)). split; [done|]. split; [done|].
    rewrite B2. simpl. rewrite lookup_app_l by (rewrite length_app; simpl; lia).
    by rewrite lookup_app_r, Nat.sub_diag by lia.
  - destruct (IH i n size Hi) as (h & Hh & Hle & Hbuf).
    exists h. split; [done|]. split; [|done].
    rewrite B1, length_app in Hle. lia.
Qed.

Lemma resolve_Output (table : gmap string (@HostValue num)) ctx d be rb be1
    (o : Binding) :
  NoDup (name <$> bindings ctx) → o ∈ bindings ctx →
  direction o = Out → isCompileTimeConstant o = false →
  resolve zero table ctx d be = inl (rb, be1) →
  ∃ h, assoc (name o) rb = Some (ROutput h)
       ∧ length (buffers be) ≤ h
       ∧ readBuffer be1 h
         = Some (replicate (extent d * arity (elementType o)) zero).
Proof.
  intros Hnd Ho Hdir Hc Hres. unfold resolve in Hres.
  destruct (plan table d (bindings ctx)) as [ps|] eqn:Hplan; [|done].
  apply list_elem_of_lookup in Ho as [i Hi].
  destruct (plan_lookup _ _ _ _ _ _ Hplan Hi) as (p & Hps & Hp).
  rewrite plan_binding_Out in Hp by done. simplify_eq.
  destruct (allocate_Output ps be i _ _ Hps) as (h & Hh & Hle & Hbuf).
  pose proof (allocate_spec zero ps be) as Ha.
  destruct (allocate zero ps be) as [rb' be1']. simplify_eq. simpl in *.
  destruct Ha as (_ & _ & _ & _ & Hnames).
  exists h. split; [|done].
  eapply assoc_NoDup; [|exact Hh]. rewrite Hnames. by erewrite plan_names.
Qed.

Section run.
Context (k : @CompiledKernel num) (d : DispatchDescriptor).
Context (table : gmap string (@HostValue num)).
Context (completed : option (nat → bool)) (cancelRequested : nat → bool).
Context (be : @Backend num).

Local Abbreviation r := (run zero k d table completed cancelRequested be).


End run.

End WithNumbers.



End ResolutionFacts.

(* ===================================================================== *)
(** ** Facts about the scheduler's state machine *)
(* ===================================================================== *)

Module SchedulerFacts.
Import Pipeline Scheduler PipelineFacts.

Section WithNumbers.

Context {num : Type} (zero : num).

Abbreviation Machine := (@Machine num).
Abbreviation Event := (@Event num).
Implicit Types (evs pre rest : list (@Scheduler.Event num)).
Implicit Types (be : @Backend num) (m : @Scheduler.Machine num).


Lemma calm_app evs1 evs2 : calm evs1 → calm evs2 → calm (evs1 ++ evs2).
Proof. apply Forall_app_2. Qed.

Lemma calm_handoffs evs : calm evs → handoffs_of evs = [].
Proof.
  induction 1 as [|e evs He _ IH]; [done|].
  unfold handoffs_of in *. cbn. destruct e; try done. 
Qed.

Lemma calm_errors evs : calm evs → errors_of evs = [].
Proof.
  induction 1 as [|e evs He _ IH]; [done|].
  unfold errors_of in *. cbn. destruct e; try done.
Qed.

Lemma calm_lookup evs i e : calm evs → evs !! i = Some e → closing e = false.
Proof. intros H Hi. exact (proj1 (Forall_lookup _ _) H i e Hi). Qed.

Lemma calm_elem_of evs e : calm evs → e ∈ evs → closing e = false.
Proof. intros H Hi. exact (proj1 (Forall_forall _ _) H e Hi). Qed.

Lemma handoffs_of_app (evs1 evs2 : list Event) :
  handoffs_of (evs1 ++ evs2) = handoffs_of evs1 ++ handoffs_of evs2.
Proof. apply omap_app. Qed.

Lemma errors_of_app (evs1 evs2 : list Event) :
  errors_of (evs1 ++ evs2) = errors_of evs1 ++ errors_of evs2.
Proof. apply omap_app. Qed.

Lemma states_of_app (evs1 evs2 : list Event) :
  states_of (evs1 ++ evs2) = states_of evs1 ++ tail (states_of evs2).
Proof. unfold states_of. rewrite omap_app. done. Qed.

Lemma completed_dispatches_app (evs1 evs2 : list Event) :
  completed_dispatches (evs1 ++ evs2)
  = completed_dispatches evs1 + completed_dispatches evs2.
Proof. unfold completed_dispatches. rewrite omap_app, length_app. done. Qed.

Lemma closing_lookup pre rest i (e : Event) :
  calm pre → (pre ++ rest) !! i = Some e → closing e = true →
  ∃ j, i = length pre + j ∧ rest !! j = Some e.
Proof.
  intros Hpre Hi He. apply lookup_app_Some in Hi as [Hi|[Hle Hi]].
  - apply (calm_lookup _ _ _ Hpre) in Hi. congruence.
  - exists (i - length pre). split; [lia | done].
Qed.

Lemma closing_elem_of pre rest (e : Event) :
  calm pre → e ∈ pre ++ rest → closing e = true → e ∈ rest.
Proof.
  intros Hpre Hi He. apply elem_of_app in Hi as [Hi|Hi]; [|done].
  apply (calm_elem_of _ _ Hpre) in Hi. congruence.
Qed.

Section run.

Variables (k : @CompiledKernel num) (d : DispatchDescriptor)
  (table : gmap string (@HostValue num)) (completed : option (nat → bool))
  (cancelRequested : nat → bool).

Abbreviation advance := (advance zero k d table completed cancelRequested).
Abbreviation execute := (execute zero k d table completed cancelRequested).


Lemma settled_idle be : settled (idle be).
Proof. split; [done|]. cbn. constructor. Qed.

Ltac calm_tac :=
  unfold calm in *; cbn beta iota in *;
  repeat first [ assumption
               | apply Forall_app_2
               | apply Forall_cons_2; [reflexivity|]
               | apply Forall_nil_2 ].

Lemma advance_settled m m' : settled m → advance m = Some m' → settled m'.
Proof.
  destruct m as [st it rb be evs]. intros [Hn Hs]. unfold Scheduler.advance.
  cbn [m_state m_iteration m_resolved m_backend m_events] in *.
  destruct st; try discriminate.
  - intros [= <-]. split; cbn [m_state m_iteration m_resolved m_backend m_events currentIteration activeBufferSet].
    + rewrite completed_dispatches_app, Hn. cbn. lia.
    + calm_tac.
  - destruct (resolve zero table (context k) d be) as [[rb1 be1]|e];
      intros [= <-]; (split; cbn [m_state m_iteration m_resolved m_backend m_events currentIteration activeBufferSet]; [rewrite completed_dispatches_app, Hn; cbn; lia|]).
    + calm_tac.
    + exists evs, Compiling, (EBinding e). split; [done|]. split; [done|]. discriminate.
  - destruct (maxIterations d) as [|mx], completed as [p|];
      intros [= <-]; (split; cbn [m_state m_iteration m_resolved m_backend m_events currentIteration activeBufferSet]; [rewrite completed_dispatches_app, Hn; cbn; lia|]);
      try calm_tac.
    exists evs, Ready, (EScheduler NoTerminationCondition).
    split; [done|]. split; [done|]. discriminate.
  - destruct (cancelRequested (currentIteration it)).
    { intros [= <-]. split; cbn [m_state m_iteration m_resolved m_backend m_events currentIteration activeBufferSet]; [rewrite completed_dispatches_app, Hn; cbn; lia|].
      by exists evs. }
    destruct (reports completed (currentIteration it)
              || bool_decide (maxIterations d ≤ currentIteration it)).
    { intros [= <-]. split; cbn [m_state m_iteration m_resolved m_backend m_events currentIteration activeBufferSet]; [rewrite completed_dispatches_app, Hn; cbn; lia|].
      by exists evs. }
    destruct (dispatch _ _ _ _ be) as [be1 [|]]; intros [= <-];
      (split; cbn [m_state m_iteration m_resolved m_backend m_events currentIteration activeBufferSet]; [rewrite completed_dispatches_app, Hn; cbn; lia|]).
    + calm_tac.
    + exists (evs ++ [Dispatched false]), Running, (EBackend (currentIteration it)).
      split; [calm_tac|]. split; [by rewrite <- app_assoc|].
      intros n [= <-]. split; [done|]. apply elem_of_app. right. by left.
Qed.

Lemma execute_settled steps : ∀ m, settled m → settled (execute steps m).
Proof.
  induction steps as [|steps IH]; intros m Hm; cbn; [done|].
  destruct (advance m) as [m'|] eqn:Hadv; [|done].
  apply IH. by apply (advance_settled m).
Qed.

Lemma execute_terminal steps m : advance m = None → execute steps m = m.
Proof. intros H. destruct steps; cbn; [done|]. by rewrite H. Qed.

Lemma execute_S steps m :
  execute (S steps) m
  = match advance m with Some m' => execute steps m' | None => m end.
Proof. reflexivity. Qed.


(** The steps of the machine while [Running] are the rounds of
    [dispatchLoop]. *)
Lemma execute_dispatchLoop rb rem : ∀ it be evs exit it' be' extra,
  rem + currentIteration it = maxIterations d →
  dispatchLoop rem (program k) rb (counts d) (workgroupSize (context k))
    completed cancelRequested it be = (exit, it', be') →
  ∃ evs',
    execute (S rem + extra) (mkMachine Running it rb be evs)
    = mkMachine (exit_state exit) it' rb be' (evs ++ evs')
    ∧ tail (states_of evs') = [exit_state exit]
    ∧ handoffs_of evs'
      = match exit with
        | ExitCompleted => [snapshot (activeBufferSet it') rb be']
        | _ => []
        end
    ∧ errors_of evs'
      = match exit with
        | ExitFailed => [EBackend (currentIteration it')]
        | _ => []
        end.
Proof.
  induction rem as [|rem IH]; intros it be evs exit it' be' extra Hrem;
    cbn [dispatchLoop]; rewrite Nat.add_succ_l, execute_S; unfold Scheduler.advance;
    cbn [m_state m_iteration m_resolved m_backend m_events].
  - destruct (cancelRequested (currentIteration it)).
    { intros [= <- <- <-]. eexists; cbv beta iota zeta; rewrite execute_terminal by reflexivity; repeat split; reflexivity. }
    destruct (reports completed (currentIteration it)); cbn [orb].
    { intros [= <- <- <-]. eexists; cbv beta iota zeta; rewrite execute_terminal by reflexivity; repeat split; reflexivity. }
    rewrite bool_decide_eq_true_2 by lia.
    intros [= <- <- <-]. eexists; cbv beta iota zeta; rewrite execute_terminal by reflexivity; repeat split; reflexivity.
  - destruct (cancelRequested (currentIteration it)).
    { intros [= <- <- <-]. eexists; cbv beta iota zeta; rewrite execute_terminal by reflexivity; repeat split; reflexivity. }
    destruct (reports completed (currentIteration it)); cbn [orb].
    { intros [= <- <- <-]. eexists; cbv beta iota zeta; rewrite execute_terminal by reflexivity; repeat split; reflexivity. }
    rewrite bool_decide_eq_false_2 by lia.
    destruct (dispatch _ _ _ _ be) as [be1 [|]].
    + intros Hloop.
      assert (Hrem' : rem + S (currentIteration it) = maxIterations d) by lia.
      destruct (IH {| currentIteration := S (currentIteration it);
                      activeBufferSet := swap (activeBufferSet it) |}
                  _ (evs ++ [Dispatched true]) _ _ _ extra
                  Hrem' Hloop) as (evs' & Hex & Hst & Hh & He).
      exists (Dispatched true :: evs'). cbv beta iota zeta.
      rewrite Hex, <- app_assoc. done.
    + intros [= <- <- <-]. eexists; cbv beta iota zeta; rewrite execute_terminal by reflexivity; repeat split; reflexivity.
Qed.

(** What the shape of the events says about the handoff. *)
Lemma settled_handoff (m : Machine) :
  settled m →
  let evs := m_events m in
  length (handoffs_of evs) ≤ 1
  ∧ (∀ i s, evs !! i = Some (Handoff s) →
       ∃ i', i = S i'
         ∧ evs !! i' = Some (Transition Running Completed)
         ∧ length evs = S i
         ∧ m_state m = Completed
         ∧ s = snapshot (activeBufferSet (m_iteration m)) (m_resolved m)
                 (m_backend m))
  ∧ (∀ i from, evs !! i = Some (Transition from Completed) →
       from = Running ∧ ∃ s, evs !! S i = Some (Handoff s))
  ∧ (∀ from, Transition from Failed ∈ evs ∨ Transition from Cancelled ∈ evs →
       handoffs_of evs = []
       ∧ (m_state m = Failed ∨ m_state m = Cancelled)
       ∧ advance m = None)
  ∧ (∀ e, Surfaced e ∈ evs →
       handoffs_of evs = [] ∧ m_state m = Failed ∧ advance m = None
       ∧ ∀ n, e = EBackend n →
           n = completed_dispatches evs ∧ Dispatched false ∈ evs)
  ∧ (m_state m = Completed ↔ length (handoffs_of evs) = 1).
Proof.
  destruct m as [st it rb be0 evs].
  cbn [m_state m_iteration m_resolved m_backend m_events].
  intros [Hn Hs]. cbn [m_state m_iteration m_resolved m_backend m_events] in Hn, Hs.
  assert (Hcalm : calm evs →
            length (handoffs_of evs) ≤ 1
            ∧ (∀ i s, evs !! i = Some (Handoff s) → False)
            ∧ (∀ i from, evs !! i = Some (Transition from Completed) → False)
            ∧ (∀ from, Transition from Failed ∈ evs ∨ Transition from Cancelled ∈ evs
                 → False)
            ∧ (∀ e, Surfaced e ∈ evs → False)
            ∧ length (handoffs_of evs) ≠ 1).
  { intros Hc. rewrite (calm_handoffs _ Hc). cbn. repeat split; try lia.
    - intros i s Hi. by apply (calm_lookup _ _ _ Hc) in Hi.
    - intros i from Hi. by apply (calm_lookup _ _ _ Hc) in Hi.
    - intros from [Hi|Hi]; by apply (calm_elem_of _ _ Hc) in Hi.
    - intros e Hi. by apply (calm_elem_of _ _ Hc) in Hi. }
  destruct st;
    try (destruct (Hcalm Hs) as (H1 & H2 & H3 & H4 & H5 & H6);
         split; [exact H1|]; split; [by intros i s Hi; destruct (H2 i s Hi)|];
         split; [by intros i from Hi; destruct (H3 i from Hi)|];
         split; [by intros from Hi; destruct (H4 from Hi)|];
         split; [by intros e Hi; destruct (H5 e Hi)|];
         by split).
  - (* Completed *)
    clear Hcalm. destruct Hs as (pre & Hpre & ->).
    rewrite handoffs_of_app, (calm_handoffs _ Hpre). cbn [handoffs_of omap app length].
    split; [cbn; lia|].
    split.
    { intros i s Hi.
      destruct (closing_lookup _ _ _ _ Hpre Hi eq_refl) as (j & -> & Hj).
      destruct j as [|[|j]]; try discriminate. injection Hj as <-.
      exists (length pre). split; [lia|].
      split; [by rewrite lookup_app_r, Nat.sub_diag by lia|].
      split; [rewrite length_app; cbn; lia | done]. }
    split.
    { intros i from Hi.
      destruct (closing_lookup _ _ _ _ Hpre Hi eq_refl) as (j & -> & Hj).
      destruct j as [|[|j]]; try discriminate. injection Hj as <-.
      split; [done|]. eexists.
      rewrite lookup_app_r by lia.
      by replace (S (length pre + 0) - length pre) with 1 by lia. }
    split.
    { intros from [Hi|Hi]; apply (closing_elem_of _ _ _ Hpre) in Hi; try done;
        apply elem_of_cons in Hi as [Hi|Hi]; try discriminate;
        apply list_elem_of_singleton in Hi; discriminate. }
    split.
    { intros e Hi. apply (closing_elem_of _ _ _ Hpre) in Hi; try done.
      apply elem_of_cons in Hi as [Hi|Hi]; try discriminate.
      apply list_elem_of_singleton in Hi; discriminate. }
    done.
  - (* Failed *)
    clear Hcalm. destruct Hs as (pre & from0 & e0 & Hpre & -> & He0).
    assert (Hh : handoffs_of (pre ++ [Transition from0 Failed; Surfaced e0]) = [])
      by (by rewrite handoffs_of_app, (calm_handoffs _ Hpre)).
    rewrite Hh. split; [cbn; lia|].
    split.
    { intros i s Hi.
      destruct (closing_lookup _ _ _ _ Hpre Hi eq_refl) as (j & -> & Hj).
      destruct j as [|[|j]]; discriminate. }
    split.
    { intros i from Hi.
      destruct (closing_lookup _ _ _ _ Hpre Hi eq_refl) as (j & -> & Hj).
      destruct j as [|[|j]]; discriminate. }
    split; [intros from _; repeat split; by left|].
    split; [|done].
    intros e Hi. do 3 (split; [done|]).
    intros n ->. apply (closing_elem_of _ _ _ Hpre) in Hi; [|done].
    apply elem_of_cons in Hi as [Hi|Hi]; [discriminate|].
    apply list_elem_of_singleton in Hi. injection Hi as <-.
    destruct (He0 _ eq_refl) as [-> Hfalse]. split; [by rewrite Hn|].
    apply elem_of_app. by left.
  - (* Cancelled *)
    clear Hcalm. destruct Hs as (pre & Hpre & ->).
    assert (Hh : handoffs_of (pre ++ [Transition Running Cancelled]) = [])
      by (by rewrite handoffs_of_app, (calm_handoffs _ Hpre)).
    rewrite Hh. split; [cbn; lia|].
    split.
    { intros i s Hi.
      destruct (closing_lookup _ _ _ _ Hpre Hi eq_refl) as (j & -> & Hj).
      destruct j as [|j]; discriminate. }
    split.
    { intros i from Hi.
      destruct (closing_lookup _ _ _ _ Hpre Hi eq_refl) as (j & -> & Hj).
      destruct j as [|j]; discriminate. }
    split; [intros from _; repeat split; by right|].
    split; [|done].
    intros e Hi. apply (closing_elem_of _ _ _ Hpre) in Hi; [|done].
    apply list_elem_of_singleton in Hi. discriminate.
Qed.


Variable be : @Backend num.

Let r := run zero k d table completed cancelRequested be.

(** The machine run to its end is [run]. *)
Lemma execute_run steps :
  maxIterations d + 4 ≤ steps →
  let m := execute steps (idle be) in
  m_state m = final r
  ∧ states_of (m_events m) = visited r
  ∧ handoffs_of (m_events m) = handoffs r
  ∧ errors_of (m_events m) = option_list (failure r)
  ∧ m_iteration m = iteration r
  ∧ m_resolved m = resolved r
  ∧ m_backend m = backend r.
Proof.
  intros Hsteps m. assert (Hm : m = execute steps (idle be)) by reflexivity.
  clearbody m. subst r. unfold run.
  destruct steps as [|[|[|steps]]]; try lia.
  rewrite execute_S in Hm. unfold Scheduler.advance at 1, idle in Hm.
  cbn [m_state m_iteration m_resolved m_backend m_events] in Hm.
  cbv beta iota zeta in Hm.
  rewrite execute_S in Hm. unfold Scheduler.advance at 1 in Hm.
  cbn [m_state m_iteration m_resolved m_backend m_events] in Hm.
  cbv beta iota zeta in Hm.
  destruct (resolve zero table (context k) d be) as [[rb be1]|e].
  2:{ rewrite execute_terminal in Hm by reflexivity. subst m.
      repeat split; reflexivity. }
  rewrite execute_S in Hm. unfold Scheduler.advance at 1 in Hm.
  cbn [m_state m_iteration m_resolved m_backend m_events] in Hm.
  cbv beta iota zeta in Hm.
  destruct (dispatchLoop (maxIterations d) (program k) rb (counts d)
              (workgroupSize (context k)) completed cancelRequested
              {| currentIteration := 0; activeBufferSet := Front |} be1)
    as [[exit it'] be'] eqn:Hloop.
  assert (Hgo : ∀ evs, ∃ evs',
             execute steps (mkMachine Running
                              {| currentIteration := 0; activeBufferSet := Front |}
                              rb be1 evs)
             = mkMachine (exit_state exit) it' rb be' (evs ++ evs')
             ∧ tail (states_of evs') = [exit_state exit]
             ∧ handoffs_of evs'
               = match exit with
                 | ExitCompleted => [snapshot (activeBufferSet it') rb be']
                 | _ => []
                 end
             ∧ errors_of evs'
               = match exit with
                 | ExitFailed => [EBackend (currentIteration it')]
                 | _ => []
                 end).
  { intros evs.
    replace steps with (S (maxIterations d) + (steps - S (maxIterations d))) by lia.
    apply execute_dispatchLoop; [cbn; lia | exact Hloop]. }
  assert (Hrunning :
            m = execute steps
                  (mkMachine Running
                     {| currentIteration := 0; activeBufferSet := Front |} rb be1
                     ([Transition Idle Compiling; Transition Compiling Ready;
                       Transition Ready Running])) →
            m_state m = exit_state exit
            ∧ states_of (m_events m)
              = [Idle; Compiling; Ready; Running; exit_state exit]
            ∧ handoffs_of (m_events m)
              = match exit with
                | ExitCompleted => [snapshot (activeBufferSet it') rb be']
                | _ => []
                end
            ∧ errors_of (m_events m)
              = match exit with
                | ExitFailed => [EBackend (currentIteration it')]
                | _ => []
                end
            ∧ m_iteration m = it' ∧ m_resolved m = rb ∧ m_backend m = be').
  { intros ->. destruct (Hgo [Transition Idle Compiling; Transition Compiling Ready;
                              Transition Ready Running])
      as (evs' & -> & Hst & Hh & He).
    cbn [m_state m_iteration m_resolved m_backend m_events].
    rewrite states_of_app, handoffs_of_app, errors_of_app, Hst, Hh, He.
    repeat split; reflexivity. }
  assert (Hterm : ∀ m0, advance m0 = None → execute steps m0 = m0)
    by (intros; by apply execute_terminal).
  destruct (maxIterations d) as [|mx] eqn:Hmx, completed as [p|] eqn:Hc;
    cbv beta iota zeta in Hm.
  2:{ rewrite Hterm in Hm by reflexivity. subst m.
      repeat split; reflexivity. }
  all: destruct (Hrunning Hm) as (H1 & H2 & H3 & H4 & H5 & H6 & H7);
    rewrite H1, H2, H3, H4, H5, H6, H7; destruct exit; repeat split; reflexivity.
Qed.


End run.

End WithNumbers.


(** What a run does when its second dispatch fails, and when it is
    cancelled at the second iteration boundary. *)
Example failing_dispatch_events :
  m_events (execute 0%Z (increment_kernel 0%Z 1%Z Z.add) three_iterations
              seed_table None never 7 (idle failing_backend))
  = [Transition Idle Compiling; Transition Compiling Ready;
     Transition Ready Running; Dispatched true; Dispatched false;
     Transition Running Failed; Surfaced (EBackend 1)].
Proof. vm_compute. reflexivity. Qed.

Example cancelled_run_events :
  m_events (execute 0%Z (increment_kernel 0%Z 1%Z Z.add) three_iterations
              seed_table None (λ n, bool_decide (2 ≤ n)) 7 (idle fresh_backend))
  = [Transition Idle Compiling; Transition Compiling Ready;
     Transition Ready Running; Dispatched true; Dispatched true;
     Transition Running Cancelled].
Proof. vm_compute. reflexivity. Qed.

End SchedulerFacts.

(* ===================================================================== *)
(** ** Facts about the ping-pong buffers *)
(* ===================================================================== *)

Module PingPongFacts.
Import Pipeline PingPong PipelineFacts.

Section WithNumbers.
Context {num : Type} (zero : num).
Implicit Types (be : @Backend num) (rb : list (string * @Resolved num)).
Implicit Types (rs : list (string * @Resource num)) (bufs : list (list num)).

Lemma overwrite_length x (ws : list (@Write num)) : ∀ old,
  length (overwrite x old ws) = length old.
Proof.
  unfold overwrite. induction ws as [|w ws IH]; intros old; cbn [foldl]; [done|].
  rewrite IH. case_decide; [by rewrite length_insert | done].
Qed.

Lemma overwrite_lookup x e (ws : list (@Write num)) : ∀ old,
  e < length old →
  overwrite x old ws !! e
  = match last_write x e ws with Some v => Some v | None => old !! e end.
Proof.
  unfold overwrite. induction ws as [|w ws IH]; intros old He; cbn [foldl last_write];
    [done|].
  rewrite IH by (case_decide; [by rewrite length_insert | done]).
  destruct (last_write x e ws) as [v|]; [done|].
  destruct (decide (w_binding w = x)) as [Hx|Hx].
  - destruct (decide (w_index w = e)) as [Hi|Hi].
    + rewrite decide_True by done. subst e. by rewrite list_lookup_insert_eq.
    + rewrite decide_False by (intros [_ ?]; done).
      by rewrite list_lookup_insert_ne.
  - rewrite decide_False by (intros [? _]; done). done.
Qed.

Lemma hit_length rs h (ws : list (@Write num)) : ∀ buf,
  length (foldl (hit rs h) buf ws) = length buf.
Proof.
  induction ws as [|w ws IH]; intros buf; cbn [foldl]; [done|].
  rewrite IH. unfold hit. case_decide; [by rewrite length_insert | done].
Qed.

Lemma apply_write_lookup rs (h : nat) (w : @Write num) bufs :
  apply_write rs bufs w !! h = (λ buf, hit rs h buf w) <$> bufs !! h.
Proof.
  unfold apply_write, hit.
  destruct (assoc (w_binding w) rs ≫= write_handle) as [h'|] eqn:Hw.
  - destruct (decide (h' = h)) as [->|Hne].
    + rewrite list_lookup_alter_eq. case_decide; [reflexivity|done].
    + rewrite list_lookup_alter_ne by done.
      case_decide; [congruence|]. symmetry. exact (option_fmap_id _).
  - case_decide; [congruence|]. symmetry. exact (option_fmap_id _).
Qed.

(** What a dispatch's writes do to the buffer at one handle. *)
Lemma foldl_apply_write_lookup rs (h : nat) (ws : list (@Write num)) : ∀ bufs,
  foldl (apply_write rs) bufs ws !! h
  = (λ buf, foldl (hit rs h) buf ws) <$> bufs !! h.
Proof.
  induction ws as [|w ws IH]; intros bufs; cbn [foldl].
  - destruct (lookup h bufs); reflexivity.
  - rewrite IH, apply_write_lookup. destruct (lookup h bufs); reflexivity.
Qed.

Lemma foldl_agree {A B} (f g : A → B → A) (l : list B) : ∀ a,
  (∀ a b, b ∈ l → f a b = g a b) → foldl f a l = foldl g a l.
Proof.
  induction l as [|b l IH]; intros a H; cbn [foldl]; [done|].
  rewrite H by (by left). apply IH. intros a' b' Hb'. apply H. by right.
Qed.

(** **** Allocation hands out new handles, one after the other *)

Lemma allocate_handles (ps : list (string * @Planned num)) : ∀ be,
  let '(rb, be') := allocate zero ps be in
  flat_map (λ nr, handles nr.2) rb
  = seq (length (buffers be)) (length (buffers be') - length (buffers be)).
Proof.
  induction ps as [|[n p] ps IH]; intros be; cbn [allocate].
  - by rewrite Nat.sub_diag.
  - pose proof (allocate_spec zero ps) as Hs.
    destruct p as [vs|data|size|seed]; cbn [allocate_one allocateBuffer];
      match goal with
      | |- context [allocate zero ps ?b] =>
          specialize (IH b); specialize (Hs b);
          destruct (allocate zero ps b) as [rb be2];
          destruct Hs as (_ & _ & [new Hnew] & _)
      end;
      cbn [flat_map handles snd buffers] in *; rewrite IH, Hnew;
      rewrite ?length_app; cbn [length].
    + done.
    + replace (length (buffers be) + 1 + length new - length (buffers be))
        with (S (length (buffers be) + 1 + length new - (length (buffers be) + 1)))
        by lia.
      cbn [seq app]. do 2 f_equal. lia.
    + replace (length (buffers be) + 1 + length new - length (buffers be))
        with (S (length (buffers be) + 1 + length new - (length (buffers be) + 1)))
        by lia.
      cbn [seq app]. do 2 f_equal. lia.
    + replace (length (buffers be) + 1 + 1 + length new - length (buffers be))
        with (S (S (length (buffers be) + 1 + 1 + length new
                    - (length (buffers be) + 1 + 1))))
        by lia.
      cbn [seq app]. do 2 f_equal; [lia|]. f_equal. lia.
Qed.

Lemma NoDup_flat_map_lookup {A B} (f : A → list B) (l : list A) i j a b x :
  NoDup (flat_map f l) → l !! i = Some a → l !! j = Some b →
  x ∈ f a → x ∈ f b → i = j.
Proof.
  revert i j. induction l as [|c l IH]; intros i j Hnd Hi Hj Ha Hb; [done|].
  cbn [flat_map] in Hnd. apply NoDup_app in Hnd as (_ & Hdis & Hnd).
  assert (Hin : ∀ n y, l !! n = Some y → x ∈ f y → x ∈ flat_map f l).
  { intros n y Hn Hy. apply list_elem_of_In, in_flat_map. exists y.
    split; apply list_elem_of_In; [by eapply list_elem_of_lookup_2 | done]. }
  destruct i as [|i], j as [|j]; cbn in Hi, Hj; simplify_eq.
  - done.
  - destruct (Hdis x Ha). by eapply Hin.
  - destruct (Hdis x Hb). by eapply Hin.
  - f_equal. by eapply IH.
Qed.

Lemma allocate_exclusive (ps : list (string * @Planned num)) be i x f b :
  (allocate zero ps be).1 !! i = Some (x, RPingPong f b) →
  ∀ y r h, assoc y (allocate zero ps be).1 = Some r →
    h ∈ handles r → h = f ∨ h = b → y = x.
Proof.
  intros Hi y r h Hy Hh Hfb.
  pose proof (allocate_handles ps be) as Hseq.
  destruct (allocate zero ps be) as [rb be']. cbn [fst] in *.
  apply assoc_elem_of, list_elem_of_lookup in Hy as [j Hj].
  assert (Hnd : NoDup (flat_map (λ nr : string * @Resolved num, handles nr.2) rb))
    by (rewrite Hseq; apply NoDup_seq).
  assert (j = i) as ->.
  { eapply (NoDup_flat_map_lookup _ rb j i _ _ h Hnd Hj Hi); cbn [snd handles];
      [done|]. destruct Hfb as [-> | ->]; [by left | right; by left]. }
  congruence.
Qed.

Lemma allocate_PingPong (ps : list (string * @Planned num)) : ∀ be i n seed,
  ps !! i = Some (n, PPingPong seed) →
  ∃ f b, (allocate zero ps be).1 !! i = Some (n, RPingPong f b)
       ∧ buffers (allocate zero ps be).2 !! f = Some seed
       ∧ buffers (allocate zero ps be).2 !! b
         = Some (replicate (length seed) zero).
Proof.
  induction ps as [|[n0 p0] ps IH]; intros be i n seed Hi; [done|].
  simpl. pose proof (allocate_one_spec zero p0 be) as H1.
  destruct (allocate_one zero p0 be) as [r0 be1] eqn:H0.
  destruct H1 as (_ & _ & [new1 B1] & _).
  pose proof (allocate_spec zero ps be1) as H2.
  specialize (IH be1). destruct (allocate zero ps be1) as [rs be2].
  destruct H2 as (_ & _ & [new2 B2] & _).
  destruct i as [|i]; simpl in *.
  - simplify_eq. simpl in H0. simplify_eq. simpl in *.
    exists (length (buffers be)), (length (buffers be ++ [seed])).
    split; [done|]. rewrite B2. simpl. split.
    + rewrite lookup_app_l by (rewrite !length_app; simpl; lia).
      rewrite lookup_app_l by (rewrite !length_app; simpl; lia).
      by rewrite lookup_app_r, Nat.sub_diag by lia.
    + rewrite lookup_app_l by (rewrite !length_app; simpl; lia).
      by rewrite lookup_app_r, Nat.sub_diag by lia.
  - by apply IH.
Qed.

Lemma plan_binding_seed table d (b : Binding) seed :
  direction b = InOut → kind b = ArrayBuffer → isCompileTimeConstant b = false →
  plan_binding (num:=num) table d b = inl (PPingPong seed) →
  table !! name b = Some (NumericArray seed).
Proof.
  intros Hd Hk Hc. unfold plan_binding. rewrite Hc, Hd, Hk.
  destruct (table !! name b) as [[v|vs]|]; try done.
  case_decide; [|done]. by intros [= <-].
Qed.

(** **** What a call reads *)

Lemma assoc_contents_absent (look : @Resource num → option (list num)) rs x :
  x ∉ rs.*1 → assoc x (contents look rs) = None.
Proof.
  induction rs as [|[n res] rs IH]; intros Hx; [done|].
  rewrite fmap_cons in Hx. apply not_elem_of_cons in Hx as [Hn Hx].
  unfold contents in *. cbn [omap list_omap]. destruct (look res); cbn.
  - rewrite decide_False by done. by apply IH.
  - by apply IH.
Qed.

Lemma assoc_contents_look (look : @Resource num → option (list num)) rs x :
  NoDup rs.*1 → assoc x (contents look rs) = assoc x rs ≫= look.
Proof.
  induction rs as [|[n res] rs IH]; intros Hnd; [done|].
  rewrite fmap_cons in Hnd. apply NoDup_cons in Hnd as [Hn Hnd].
  cbn [assoc]. unfold contents in *. cbn [omap list_omap].
  destruct (decide (x = n)) as [->|Hx].
  - cbn. destruct (look res) eqn:Hl; cbn.
    + by rewrite decide_True.
    + by apply (assoc_contents_absent look).
  - destruct (look res); cbn; [rewrite decide_False by done|]; by apply IH.
Qed.

Lemma resources_names a rb : (resources a rb).*1 = rb.*1.
Proof.
  unfold resources. rewrite <- list_fmap_compose. apply list_fmap_ext.
  by intros ? [].
Qed.

(** **** The buffers from dispatch to dispatch *)

Section loop.
Context (prog : @Program num) (rb : list (string * @Resolved num)).
Context (ext wg : nat * nat * nat).
Context (completed : option (nat → bool)) (cancelRequested : nat → bool).

Lemma buffers_at_shift j : ∀ a bufs,
  buffers_at prog rb ext (S j) a bufs
  = buffers_at prog rb ext j (swap a) (settle prog rb ext a bufs).
Proof.
  induction j as [|j IH]; intros a bufs; [done|].
  change (buffers_at prog rb ext (S (S j)) a bufs)
    with (settle prog rb ext (Nat.iter (S j) swap a)
            (buffers_at prog rb ext (S j) a bufs)).
  rewrite IH. cbn [buffers_at]. by rewrite Nat.iter_swap.
Qed.

Lemma dispatch_settle a be be1 ok :
  dispatch prog (resources a rb) ext wg be = (be1, ok) →
  (ok = true → buffers be1 = settle prog rb ext a (buffers be))
  ∧ ∃ c, dispatchLog be1 = dispatchLog be ++ [c]
      ∧ call_resources c = resources a rb
      ∧ call_read c = contents (readable (buffers be)) (resources a rb)
      ∧ (ok = true →
         call_written c
         = contents (write_target (settle prog rb ext a (buffers be)))
             (resources a rb)).
Proof.
  unfold dispatch. destruct (dispatchFails be _); intros [= <- <-]; cbn.
  - split; [done|]. eexists. repeat split; done.
  - split; [done|]. eexists. repeat split; done.
Qed.

Lemma dispatchLoop_buffers rem : ∀ it be exit it' be',
  dispatchLoop rem prog rb ext wg completed cancelRequested it be
  = (exit, it', be') →
  ∃ calls,
    dispatchLog be' = dispatchLog be ++ calls
    ∧ ∀ j c, calls !! j = Some c →
        let a := Nat.iter j swap (activeBufferSet it) in
        call_resources c = resources a rb
        ∧ call_read c
          = contents
              (readable (buffers_at prog rb ext j (activeBufferSet it) (buffers be)))
              (resources a rb)
        ∧ (is_Some (calls !! S j) →
           call_written c
           = contents
               (write_target
                  (buffers_at prog rb ext (S j) (activeBufferSet it) (buffers be)))
               (resources a rb)).
Proof.
  induction rem as [|rem IH]; intros it be exit it' be'; cbn [dispatchLoop].
  - destruct (cancelRequested _); [|destruct (reports _ _)];
      intros [= <- <- <-]; exists []; (split; [by rewrite app_nil_r | done]).
  - destruct (cancelRequested _); [|destruct (reports _ _)].
    1,2: intros [= <- <- <-]; exists []; (split; [by rewrite app_nil_r | done]).
    destruct (dispatch _ _ _ _ be) as [be1 ok] eqn:Hd.
    apply dispatch_settle in Hd as (Hbufs & c & Hlog & Hres & Hread & Hwr).
    destruct ok.
    + intros Hl. apply IH in Hl as (calls & Hlog' & Hcalls).
      cbn [activeBufferSet currentIteration] in Hcalls.
      exists (c :: calls). split; [by rewrite Hlog', Hlog, <- app_assoc|].
      intros [|j] c0 Hj; cbn in Hj.
      * simplify_eq. cbn [Nat.iter]. repeat split; try done.
        intros _. by apply Hwr.
      * destruct (Hcalls j c0 Hj) as (H1 & H2 & H3).
        rewrite Hbufs in H2, H3 by done.
        rewrite <- buffers_at_shift in H2, H3. cbn zeta. cbn [Nat.iter].
        rewrite Nat.iter_swap in H1, H2, H3. repeat split; try done.
    + intros [= <- <- <-]. exists [c]. split; [done|].
      intros [|j] c0 Hj; cbn in Hj; [|done]. simplify_eq. cbn [Nat.iter].
      repeat split; try done. intros [? ?]. done.
Qed.

End loop.

Lemma buffers_at_lookup_length (prog : @Program num) rb ext j : ∀ a bufs (h : nat) v,
  bufs !! h = Some v →
  ∃ v', buffers_at prog rb ext j a bufs !! h = Some v' ∧ length v' = length v.
Proof.
  induction j as [|j IH]; intros a bufs h v Hv; [by exists v|].
  destruct (IH a bufs h v Hv) as (v1 & Hv1 & Hl1).
  cbn [buffers_at]. unfold settle. rewrite foldl_apply_write_lookup, Hv1.
  eexists. split; [reflexivity|]. by rewrite hit_length.
Qed.

(** **** One [InOut] binding and its two buffers *)

Section pair.
Context (prog : @Program num) (rb : list (string * @Resolved num)).
Context (ext : nat * nat * nat) (x : string) (f b : BufferHandle).
Hypothesis Hnames : NoDup rb.*1.
Hypothesis Hx : assoc x rb = Some (RPingPong f b).
Hypothesis Hfb : f ≠ b.
Hypothesis Hexclusive : ∀ y r h,
  assoc y rb = Some r → h ∈ handles r → h = f ∨ h = b → y = x.

Lemma write_handle_handles a (r : @Resolved num) h :
  write_handle (resource_of a r) = Some h → h ∈ handles r.
Proof.
  destruct r as [vs|h0|h0|f0 b0]; cbn; try done.
  - intros [= <-]. by left.
  - intros [= <-]. destruct a; cbn; [right|]; by left.
Qed.

Lemma write_handle_pair a h y :
  h = f ∨ h = b →
  assoc y (resources a rb) ≫= write_handle = Some h
  ↔ y = x ∧ h = active_of (swap a) f b.
Proof.
  intros Hh. rewrite assoc_resources. split.
  - destruct (assoc y rb) as [r|] eqn:Hy; [|done]. cbn. intros Hw.
    assert (y = x) as -> by (eapply Hexclusive; eauto using write_handle_handles).
    rewrite Hx in Hy. injection Hy as <-. cbn in Hw. by injection Hw as <-.
  - intros [-> ->]. by rewrite Hx.
Qed.

Lemma foldl_keep {A B} (l : list B) (a : A) : foldl (λ a _, a) a l = a.
Proof. induction l; [done|]. cbn. done. Qed.

Lemma settle_pair a bufs :
  let rd := active_of a f b in
  let wr := active_of (swap a) f b in
  let env : Env := λ n, assoc n (resources a rb) ≫= readable bufs in
  settle prog rb ext a bufs !! rd = bufs !! rd
  ∧ settle prog rb ext a bufs !! wr
    = (λ old, overwrite x old (dispatch_writes prog env ext)) <$> bufs !! wr.
Proof.
  intros rd wr env. unfold settle. rewrite !foldl_apply_write_lookup.
  fold env. set (ws := dispatch_writes prog env ext).
  assert (Hrd : rd = f ∨ rd = b) by (subst rd; destruct a; cbn; auto).
  assert (Hwr : wr = f ∨ wr = b) by (subst wr; destruct a; cbn; auto).
  assert (Hne : rd ≠ wr) by (subst rd wr; destruct a; cbn; congruence).
  split.
  - transitivity (id <$> bufs !! rd); [|apply option_fmap_id].
    apply option_fmap_ext. intros buf.
    rewrite (foldl_agree _ (λ a _, a)); [apply foldl_keep|].
    intros buf' w _. unfold hit. case_decide as Hw; [|done].
    apply (write_handle_pair a rd _ Hrd) in Hw as [_ Hw]. done.
  - apply option_fmap_ext. intros buf. unfold overwrite.
    apply foldl_agree. intros buf' w _. unfold hit.
    destruct (decide (w_binding w = x)) as [Hw|Hw].
    + rewrite decide_True; [done|]. by apply write_handle_pair.
    + rewrite decide_False; [done|]. intros Hw'.
      by apply (write_handle_pair a wr _ Hwr) in Hw' as [? _].
Qed.

Context (bufs : list (list num)) (seed : list num).
Hypothesis Hf : bufs !! f = Some seed.
Hypothesis Hb : bufs !! b = Some (replicate (length seed) zero).

Lemma pair_at j :
  let a := Nat.iter j swap Front in
  ∃ before old,
    buffers_at prog rb ext j Front bufs !! active_of a f b = Some before
    ∧ buffers_at prog rb ext j Front bufs !! active_of (swap a) f b = Some old
    ∧ length before = length seed ∧ length old = length seed
    ∧ (j = 0 → before = seed ∧ old = replicate (length seed) zero)
    ∧ (∀ j', j = S j' →
         buffers_at prog rb ext j' Front bufs
           !! active_of (Nat.iter j' swap Front) f b = Some old).
Proof.
  intros a.
  destruct (buffers_at_lookup_length prog rb ext j Front bufs f seed Hf)
    as (vf & Hvf & Hlf).
  destruct (buffers_at_lookup_length prog rb ext j Front bufs b _ Hb)
    as (vb & Hvb & Hlb).
  rewrite length_replicate in Hlb.
  assert (∃ before old,
            buffers_at prog rb ext j Front bufs !! active_of a f b = Some before
            ∧ buffers_at prog rb ext j Front bufs !! active_of (swap a) f b
              = Some old
            ∧ length before = length seed ∧ length old = length seed)
    as (before & old & Hbefore & Hold & Hl1 & Hl2).
  { destruct a; cbn; [exists vf, vb | exists vb, vf]; done. }
  exists before, old. do 4 (split; [done|]). split.
  - intros ->. cbn in Hbefore, Hold. split; congruence.
  - intros j' ->. subst a. cbn [buffers_at Nat.iter] in Hold.
    destruct (settle_pair (Nat.iter j' swap Front)
                (buffers_at prog rb ext j' Front bufs)) as [Hkeep _].
    rewrite <- Hkeep. rewrite <- Hold. f_equal.
    change (Nat.iter (S j') swap Front) with (swap (Nat.iter j' swap Front)).
    by destruct (Nat.iter j' swap Front).
Qed.

(** What the calls of a loop read and write for the binding. *)
Lemma pair_calls (calls : list (@DispatchCall num)) :
  (∀ j c, calls !! j = Some c →
     let a := Nat.iter j swap Front in
     call_resources c = resources a rb
     ∧ call_read c
       = contents (readable (buffers_at prog rb ext j Front bufs)) (resources a rb)
     ∧ (is_Some (calls !! S j) →
        call_written c
        = contents (write_target (buffers_at prog rb ext (S j) Front bufs))
            (resources a rb))) →
  ∀ j c, calls !! j = Some c →
    let rd := active_of (active_at j) f b in
    let wr := active_of (swap (active_at j)) f b in
    assoc x (call_resources c) = Some (ReadWrite rd wr)
    ∧ rd ≠ wr
    ∧ ∃ before old,
        assoc x (call_read c) = Some before
        ∧ length before = length seed ∧ length old = length seed
        ∧ (j = 0 → before = seed ∧ old = replicate (length seed) zero)
        ∧ (∀ j' c0, j = S j' → calls !! j' = Some c0 →
             assoc x (call_read c0) = Some old)
        ∧ ∀ c', calls !! S j = Some c' →
            assoc x (call_resources c') = Some (ReadWrite wr rd)
            ∧ ∃ env : Env,
                (∀ n, env n = assoc n (call_read c))
                ∧ let ws := dispatch_writes prog env ext in
                  let next := overwrite x old ws in
                  assoc x (call_written c) = Some next
                  ∧ assoc x (call_read c') = Some next
                  ∧ ∀ e, e < length seed →
                      next !! e = match last_write x e ws with
                                  | Some v => Some v
                                  | None => old !! e
                                  end.
Proof.
  intros Hcalls j c Hj rd wr. unfold active_at in rd, wr.
  set (a := Nat.iter j swap Front) in *.
  assert (Hxa : ∀ a', assoc x (resources a' rb)
                      = Some (ReadWrite (active_of a' f b) (active_of (swap a') f b)))
    by (intros a'; by rewrite assoc_resources, Hx).
  assert (Hnd : ∀ a', NoDup (resources a' rb).*1)
    by (intros a'; by rewrite resources_names).
  destruct (Hcalls j c Hj) as (Hres & Hread & Hwritten). fold a in Hres, Hread, Hwritten.
  destruct (pair_at j) as (before & old & Hbefore & Hold & Hl1 & Hl2 & H0 & HS).
  fold a in Hbefore, Hold. fold rd in Hbefore. fold wr in Hold.
  split; [by rewrite Hres, Hxa|].
  split; [subst rd wr; destruct a; cbn; congruence|].
  exists before, old.
  split; [by rewrite Hread, assoc_contents_look, Hxa by done|].
  do 3 (split; [done|]). split.
  { intros j' c0 -> Hj'. destruct (Hcalls j' c0 Hj') as (_ & Hread0 & _).
    rewrite Hread0, assoc_contents_look, Hxa by done. cbn. by apply HS. }
  intros c' Hc'. destruct (Hcalls (S j) c' Hc') as (Hres' & Hread' & _).
  change (Nat.iter (S j) swap Front) with (swap a) in Hres', Hread'.
  assert (Hswap : swap (swap a) = a) by (by destruct a).
  split; [by rewrite Hres', Hxa, Hswap|].
  exists (λ n, assoc n (resources a rb) ≫= readable (buffers_at prog rb ext j Front bufs)).
  split; [by intros n; rewrite Hread, assoc_contents_look|].
  intros ws next.
  destruct (settle_pair a (buffers_at prog rb ext j Front bufs)) as [_ Hnext].
  fold wr in Hnext. rewrite Hold in Hnext. cbn [fmap option_fmap option_map] in Hnext.
  change (settle prog rb ext a (buffers_at prog rb ext j Front bufs))
    with (buffers_at prog rb ext (S j) Front bufs) in Hnext.
  fold ws in Hnext. fold next in Hnext.
  split; [|split].
  - rewrite Hwritten by eauto. rewrite assoc_contents_look, Hxa by done. exact Hnext.
  - rewrite Hread', assoc_contents_look, Hxa by done. exact Hnext.
  - intros e He. subst next. apply overwrite_lookup. lia.
Qed.

End pair.

Section ping_pong.
Context (k : @CompiledKernel num) (d : DispatchDescriptor).
Context (table : gmap string (@HostValue num)).
Context (completed : option (nat → bool)) (cancelRequested : nat → bool).
Context (be : @Backend num).

Local Abbreviation r := (run zero k d table completed cancelRequested be).


End ping_pong.

End WithNumbers.



End PingPongFacts.

(* ===================================================================== *)
(** ** Facts about the code generators *)
(* ===================================================================== *)

Module CodegenFacts.
Import Pipeline Codegen.

Section WithNumbers.
Context {num : Type}.
Implicit Types (e : @Expr num) (s : @Stmt num) (ts : list (@Token num)).
Implicit Types (values : gmap string num).

Lemma fmap_flat_map {A B C} (h : B → C) (f : A → list B) (l : list A) :
  h <$> flat_map f l = flat_map (λ a, h <$> f a) l.
Proof. induction l as [|a l IH]; simpl; [done|]. by rewrite fmap_app, IH. Qed.

Lemma flat_map_map {A B C} (f : B → list C) (g : A → B) (l : list A) :
  flat_map f (map g l) = flat_map (λ a, f (g a)) l.
Proof. induction l as [|a l IH]; simpl; [done|]. by rewrite IH. Qed.

Lemma flat_map_ext_Forall {A B} (f g : A → list B) (l : list A) :
  Forall (λ a, f a = g a) l → flat_map f l = flat_map g l.
Proof. induction 1 as [|a l Ha _ IH]; simpl; [done|]. by rewrite Ha, IH. Qed.

Section emit.
Context (syntax : @DialectSyntax num) (dialect : TargetDialect).
Context (values : gmap string num).

Local Abbreviation stands := (inlined (λ x, values !! x)).

(** Generating after inlining is inlining the generated tokens. *)
Lemma emit_inline_expr e :
  emit_expr syntax dialect (inline_expr values e)
  = stands <$> emit_expr syntax dialect e.
Proof.
  induction e as [v | x | | x | a i IHa IHi | op e IHe | op l r IHl IHr
                  | c a b IHc IHa IHb | f args Hargs] using Expr_induction;
    cbn [emit_expr inline_expr];
    rewrite ?fmap_app, ?IHa, ?IHi, ?IHe, ?IHl, ?IHr, ?IHc, ?IHb; try done.
  - cbn. by destruct (values !! x).
  - cbn. by destruct (values !! x).
  - cbn. do 2 f_equal. rewrite flat_map_map, fmap_flat_map. f_equal.
    apply flat_map_ext_Forall. eapply Forall_impl; [exact Hargs|].
    intros a Ha. cbn beta in *. by rewrite fmap_app, Ha.
Qed.

Lemma emit_inline_stmt s :
  emit_stmt syntax dialect (inline_stmt values s)
  = stands <$> emit_stmt syntax dialect s.
Proof.
  induction s as [x ty init | t v | c thn els Hthn Hels
                  | init c step body IHinit IHstep Hbody | | e | e]
    using Stmt_induction;
    cbn [emit_stmt inline_stmt emit_init];
    rewrite ?fmap_app, ?emit_inline_expr, ?IHinit, ?IHstep,
      ?flat_map_map, ?fmap_flat_map,
      ?(flat_map_ext_Forall _ _ _ Hthn), ?(flat_map_ext_Forall _ _ _ Hels),
      ?(flat_map_ext_Forall _ _ _ Hbody); try done.
  - destruct ty as [t|], init as [e0|]; cbn; try done;
      by rewrite emit_inline_expr.
  - destruct e as [e|]; cbn; [|done]. by rewrite emit_inline_expr.
Qed.

Lemma emit_inline_function entry (f : @FunctionDecl num) :
  emit_function syntax dialect entry (inline_function values f)
  = stands <$> emit_function syntax dialect entry f.
Proof.
  unfold emit_function. cbn [inline_function f_name f_params f_return f_body].
  rewrite !fmap_app, flat_map_map, !fmap_flat_map.
  assert (Hhead : stands (if entry then TKeyword "entry"
                          else emit_type syntax dialect (f_return f))
                  = (if entry then TKeyword "entry"
                     else emit_type syntax dialect (f_return f)))
    by (by destruct entry, (f_return f)).
  cbn [fmap list_fmap]. rewrite Hhead. cbn [inlined].
  do 4 f_equal.
  apply flat_map_ext_Forall, Forall_forall. intros s _. apply emit_inline_stmt.
Qed.

Lemma emit_binding_stands (b : Binding) :
  stands <$> emit_binding syntax dialect b = emit_binding syntax dialect b.
Proof. done. Qed.

End emit.

Lemma find_function_inline values (ast : @AST num) n :
  find_function (inlineConstants values ast) n
  = inline_function values <$> find_function ast n.
Proof.
  unfold find_function. simpl. induction (functions ast) as [|f fs IH]; simpl; [done|].
  destruct (bool_decide (f_name f = n)); [done | exact IH].
Qed.

Lemma generated_functions_inline values ctx (ast : @AST num) :
  generated_functions ctx (inlineConstants values ast)
  = (λ he, (map (inline_function values) he.1, inline_function values he.2))
    <$> generated_functions ctx ast.
Proof.
  unfold generated_functions.
  assert (mapM (find_function (inlineConstants values ast)) (helperFunctions ctx)
          = map (inline_function values)
            <$> mapM (find_function ast) (helperFunctions ctx)) as ->.
  { induction (helperFunctions ctx) as [|n ns IH]; simpl; [done|].
    rewrite find_function_inline, IH.
    destruct (find_function ast n); simpl; [|done].
    by destruct (mapM (find_function ast) ns). }
  rewrite find_function_inline.
  destruct (mapM (find_function ast) (helperFunctions ctx)); simpl; [|done].
  by destruct (find_function ast (entryPoint ctx)).
Qed.

Lemma generate_tokens_inline (syntax : @DialectSyntax num) values ctx
    (ast : @AST num) dialect :
  generate_tokens syntax ctx (inlineConstants values ast) dialect
  = match generate_tokens syntax ctx ast dialect with
    | inl source => inl (inlined (λ x, values !! x) <$> source)
    | inr e => inr e
    end.
Proof.
  unfold generate_tokens. rewrite generated_functions_inline.
  destruct (generated_functions ctx ast) as [[helpers entry]|]; [|done].
  cbn [fmap option_fmap option_map fst snd]. f_equal.
  rewrite !fmap_app, !fmap_flat_map, flat_map_map.
  f_equal. f_equal.
  - apply flat_map_ext_Forall, Forall_forall. intros f _.
    apply emit_inline_function.
  - apply emit_inline_function.
Qed.

Lemma constant_values_lookup (table : gmap string (@HostValue num)) names values x :
  constant_values table names = inl values →
  values !! x
  = if bool_decide (x ∈ names)
    then match table !! x with
         | Some (Scalar v) => Some v
         | _ => None
         end
    else None.
Proof.
  revert values. induction names as [|n names IH]; intros values H; simpl in *.
  - by simplify_eq.
  - destruct (table !! n) as [[v|?]|] eqn:Hn; [|done..].
    destruct (constant_values table names) as [values'|]; [|done]. simplify_eq.
    rewrite lookup_insert. destruct (decide (n = x)) as [<-|Hx].
    + rewrite bool_decide_eq_true_2 by (by left). by rewrite Hn.
    + rewrite (IH _ eq_refl).
      destruct (decide (x ∈ names)) as [Hin|Hin].
      * rewrite !bool_decide_eq_true_2; [done | by right | done].
      * rewrite !bool_decide_eq_false_2; [done | | done].
        intros [?|?]%elem_of_cons; done.
Qed.

Lemma constant_values_total (table : gmap string (@HostValue num)) names values :
  constant_values table names = inl values →
  ∀ n, n ∈ names → ∃ v, table !! n = Some (Scalar v).
Proof.
  revert values. induction names as [|n0 names IH]; intros values H n Hn; simpl in *.
  - by apply elem_of_nil in Hn.
  - destruct (table !! n0) as [[v|?]|] eqn:Hn0; [|done..].
    destruct (constant_values table names) as [values'|]; [|done].
    apply elem_of_cons in Hn as [->|Hn]; [eauto|]. by eapply IH.
Qed.

End WithNumbers.

(** **** The words of the generated text *)

Lemma fields_word (w text : string) :
  spaceless w = true → fields (w +:+ (" " +:+ text)) = w :: fields text.
Proof.
  induction w as [|c w IH]; intros Hw; [reflexivity|].
  cbn [spaceless] in Hw. destruct (Ascii.eqb c Ascii.Space) eqn:Hc; [done|].
  change (String c w +:+ (" " +:+ text)) with (String c (w +:+ (" " +:+ text))).
  cbn [fields]. rewrite Hc, IH by exact Hw. reflexivity.
Qed.

Lemma fields_render {num} (syntax : @DialectSyntax num) dialect ts :
  Forall (λ t, spaceless (spelling syntax dialect t) = true) ts →
  fields (render syntax dialect ts)
  = (spelling syntax dialect <$> ts) ++ [EmptyString].
Proof.
  induction 1 as [|t ts Ht _ IH]; [done|].
  cbn [render foldr fmap list_fmap app]. rewrite fields_word by done.
  f_equal. exact IH.
Qed.

Lemma inlined_not_reference {num} (value : string → option num) N v
    (t : @Token num) :
  value N = Some v → ¬ references N (inlined value t).
Proof.
  intros HN [Ht|Ht]; destruct t as [w|x|x|x|x|x|x|x]; cbn in Ht; try done;
    destruct (value x) eqn:Hx; simplify_eq.
Qed.

Lemma inlined_reference {num} (value : string → option num) N v
    (t : @Token num) :
  value N = Some v → references N t → inlined value t = TLiteral v.
Proof. intros HN [-> | ->]; cbn; by rewrite HN. Qed.

(** Claim C5.  When compiling succeeds, every compile-time constant of the
    kernel (a binding the context marks as one, or a constant the source
    declares without a value) has a scalar value in the binding table, and
    the generated text is the text of the kernel source generated
    structurally in which every reference to such a constant, written as
    [N] or as [this.N], stands as the literal of its value and nothing
    else is changed.  So no token of the generated text references a
    bound constant; and, when no spelling contains a space, the words of
    the text are the spellings of these tokens in order: at every place
    where the source references [N] the text has the dialect's literal of
    [v], and unless the source spells something else [N], or a constant's
    literal is written [N], the word [N] does not occur in the text. *)
Theorem compile_inlines_constants {num} (syntax : @DialectSyntax num)
    (table : gmap string (@HostValue num)) ctx (ast : @AST num) dialect text :
  compile syntax table ctx ast dialect = inl text →
  let value := constant_value table ctx ast in
  (∀ N, N ∈ constant_names ctx ast →
     ∃ v, table !! N = Some (Scalar v) ∧ value N = Some v)
  ∧ ∃ source,
      generate_tokens syntax ctx ast dialect = inl source
      ∧ let tokens := inlined value <$> source in
        text = render syntax dialect tokens
        ∧ (∀ N v, value N = Some v →
             (∀ t, t ∈ tokens → ¬ references N t)
             ∧ ∀ p t, source !! p = Some t → references N t →
                 tokens !! p = Some (TLiteral v))
        ∧ (Forall (λ t, spaceless (spelling syntax dialect t) = true) tokens →
           fields text = (spelling syntax dialect <$> tokens) ++ [EmptyString]
           ∧ ∀ N v, value N = Some v →
               (∀ p t, source !! p = Some t → references N t →
                  fields text !! p = Some (literal_text syntax dialect v))
               ∧ ((∀ t, t ∈ source → spelling syntax dialect t = N →
                     references N t) →
                  (∀ y w, value y = Some w → literal_text syntax dialect w ≠ N) →
                  N ≠ EmptyString →
                  N ∉ fields text)).
Proof.
  intros H value. unfold compile, generate in H.
  destruct (constant_values table (constant_names ctx ast)) as [values|] eqn:Hvalues;
    [|done].
  assert (Hvalue : ∀ x, values !! x = value x)
    by (intros x; by apply constant_values_lookup).
  split.
  { intros N HN. destruct (constant_values_total _ _ _ Hvalues N HN) as [v Hv].
    exists v. split; [done|]. subst value. unfold constant_value.
    by rewrite bool_decide_eq_true_2, Hv. }
  rewrite generate_tokens_inline in H.
  destruct (generate_tokens syntax ctx ast dialect) as [source|]; [|done].
  injection H as <-. exists source. split; [done|]. intros tokens.
  assert (Htokens : inlined (λ x, values !! x) <$> source = tokens).
  { apply list_fmap_ext. intros _ [w|x|x|x|x|x|x|x] _; cbn; by rewrite ?Hvalue. }
  rewrite Htokens. split; [done|].
  assert (Hplace : ∀ N v, value N = Some v →
            ∀ p t, source !! p = Some t → references N t →
              tokens !! p = Some (TLiteral v)).
  { intros N v HN p t Hp Ht. subst tokens. rewrite list_lookup_fmap, Hp. cbn.
    f_equal. by eapply inlined_reference. }
  split.
  { intros N v HN. split; [|by apply Hplace].
    intros t' Ht'. apply list_elem_of_fmap in Ht' as (t & -> & _).
    by eapply inlined_not_reference. }
  intros Hspaceless. rewrite fields_render by done. split; [done|].
  intros N v HN. split.
  { intros p t Hp Ht. rewrite lookup_app_l.
    - rewrite list_lookup_fmap, (Hplace N v HN p t Hp Ht). done.
    - rewrite length_fmap. subst tokens. rewrite length_fmap.
      by eapply lookup_lt_Some. }
  intros Hsource Hliteral Hne Hin.
  apply elem_of_app in Hin as [Hin|Hin];
    [|apply list_elem_of_singleton in Hin; done].
  apply list_elem_of_fmap in Hin as (t' & Hspell & Ht').
  apply list_elem_of_fmap in Ht' as (t & -> & Ht).
  destruct t as [w|x|x|x|x|x|x|x]; cbn in Hspell;
    try (destruct (Hsource _ Ht (eq_sym Hspell)) as [?|?]; done).
  - destruct (value x) as [w|] eqn:Hx; cbn in Hspell.
    + by apply (Hliteral x w).
    + congruence.
  - destruct (value x) as [w|] eqn:Hx; cbn in Hspell.
    + by apply (Hliteral x w).
    + congruence.
Qed.

(** The counting kernel with [VERTEX_COUNT] bound to 4 and
    [MAX_EDGE_PER_VERTEX] to 7: the text has [4] and [7] where the source
    has the constants, and neither name. *)
Lemma compile_inlines_constants_witness :
  ∃ text,
    compile plain_syntax count_table count_context count_ast WGSL = inl text
    ∧ fields text
      = ["buffer"; "vec4"; "u_Data"; ";";
         "entry"; "compute"; "("; ")"; "{";
         "int"; "i"; "="; "invocation_id"; ";";
         "for"; "("; "int"; "j"; "="; "0"; ";";
         "("; "j"; "<"; "4"; ")"; ";"; "++"; "j"; ";"; ")"; "{";
         "if"; "("; "("; "i"; ">="; "7"; ")"; ")"; "{"; "break"; ";"; "}";
         "else"; "{"; "}";
         "u_Data"; "["; "i"; "]"; "="; "u_Data"; "["; "j"; "]"; ";";
         "}"; "}"; EmptyString]
    ∧ ("VERTEX_COUNT" ∉ fields text)
    ∧ ("MAX_EDGE_PER_VERTEX" ∉ fields text).
Proof.
  eexists. split; [vm_compute; reflexivity|].
  destruct (compile_inlines_constants plain_syntax count_table count_context
              count_ast WGSL _ eq_refl)
    as (_ & source & Hsource & _ & _ & Htext).
  vm_compute in Hsource. injection Hsource as <-.
  destruct Htext as [Hfields Hconst].
  { vm_compute. repeat constructor. }
  split; [etrans; [exact Hfields|]; vm_compute; reflexivity|].
  split.
  - destruct (Hconst "VERTEX_COUNT" 4%Z eq_refl) as [_ Hnot]. apply Hnot.
    + intros t Ht Hs. vm_compute in Ht.
      repeat (apply elem_of_cons in Ht as [->|Ht]; [vm_compute in Hs; first [done | by left | by right]|]).
      by apply elem_of_nil in Ht.
    + intros y w Hy. unfold constant_value in Hy.
      case_bool_decide as Hin; [|done]. vm_compute in Hin.
      apply elem_of_cons in Hin as [->|Hin]; [vm_compute in Hy; by injection Hy as <-|].
      apply list_elem_of_singleton in Hin as ->. vm_compute in Hy. by injection Hy as <-.
    + done.
  - destruct (Hconst "MAX_EDGE_PER_VERTEX" 7%Z eq_refl) as [_ Hnot]. apply Hnot.
    + intros t Ht Hs. vm_compute in Ht.
      repeat (apply elem_of_cons in Ht as [->|Ht]; [vm_compute in Hs; first [done | by left | by right]|]).
      by apply elem_of_nil in Ht.
    + intros y w Hy. unfold constant_value in Hy.
      case_bool_decide as Hin; [|done]. vm_compute in Hin.
      apply elem_of_cons in Hin as [->|Hin]; [vm_compute in Hy; by injection Hy as <-|].
      apply list_elem_of_singleton in Hin as ->. vm_compute in Hy. by injection Hy as <-.
    + done.
Defined.

End CodegenFacts.

(* ===================================================================== *)
(** ** Further facts about [buildTextureData] *)
(* ===================================================================== *)

Module BuildTextureDataFacts.
Import Fruchterman Render FruchtermanFacts.

Section WithCoordinates.
Context {coord : Type} (fround : coord -> coord).
Implicit Types (nodes : list (@node coord)) (edges : list edge).
Implicit Types (m : gmap string nat) (nd : list (list nat)).
Implicit Types (d : list (@value coord)).

Lemma loop_edges_line_indices edges : ∀ nd m li nd' li',
  loop_edges edges nd m li = inl (nd', li') → li' = li ++ line_indices m edges.
Proof.
  induction edges as [|e rest IH]; intros nd m li nd' li' H; simpl in H.
  - simplify_eq. by rewrite app_nil_r.
  - unfold get_prop in H. unfold line_indices. simpl.
    destruct (m !! source e) as [s|] eqn:Hs; [|done].
    destruct (m !! target e) as [t|] eqn:Ht; [|done].
    destruct (push_at nd s t) as [nd1|]; [|done].
    destruct (push_at nd1 t s) as [nd2|]; [|done].
    apply IH in H. rewrite H. by rewrite <- app_assoc.
Qed.

Lemma line_indices_app m edges1 edges2 :
  line_indices m (edges1 ++ edges2) = line_indices m edges1 ++ line_indices m edges2.
Proof. unfold line_indices. by rewrite flat_map_app. Qed.

Lemma length_line_indices m edges :
  Forall (resolved m) edges → length (line_indices m edges) = 2 * length edges.
Proof.
  induction 1 as [|e rest [[s Hs] [t Ht]] _ IH]; [done|].
  unfold line_indices in *. simpl. rewrite Hs, Ht. simpl. lia.
Qed.

Lemma loop_edges_inr_prefix edges : ∀ nd m li li',
  (∀ k p, m !! k = Some p → p < length nd) →
  loop_edges edges nd m li = inr li' →
  ∃ pre e post, edges = pre ++ e :: post ∧ Forall (resolved m) pre
    ∧ ¬ resolved m e ∧ li' = li ++ line_indices m pre.
Proof.
  induction edges as [|e rest IH]; intros nd m li li' Hm H; simpl in H; [done|].
  unfold get_prop in H.
  destruct (m !! source e) as [s|] eqn:Hs; cycle 1.
  { simplify_eq. exists [], e, rest. split; [done|]. split; [constructor|].
    split; [|by rewrite app_nil_r]. intros [[? ?] _]. congruence. }
  destruct (m !! target e) as [t|] eqn:Ht; cycle 1.
  { simplify_eq. exists [], e, rest. split; [done|]. split; [constructor|].
    split; [|by rewrite app_nil_r]. intros [_ [? ?]]. congruence. }
  destruct (push_at_is_Some nd s t) as [nd1 H1]; [by eapply Hm|].
  rewrite H1 in H. apply push_at_Some in H1 as H1'. destruct H1' as [L1 _].
  destruct (push_at_is_Some nd1 t s) as [nd2 H2]; [rewrite L1; by eapply Hm|].
  rewrite H2 in H. apply push_at_Some in H2 as [L2 _].
  apply IH in H as (pre & e' & post & -> & HF & He' & ->).
  - exists (e :: pre), e', post. split; [done|].
    split; [constructor; [split; eauto | done]|]. split; [done|].
    unfold line_indices. simpl. rewrite Hs, Ht. by rewrite <- app_assoc.
  - intros k p Hk. rewrite L2, L1. by eapply Hm.
Qed.

Lemma sum_list_with_fmap {A B} (f : B → nat) (h : A → B) (l : list A) :
  sum_list_with f (h <$> l) = sum_list_with (λ a, f (h a)) l.
Proof. induction l as [|a l IH]; simpl; [done | f_equal; exact IH]. Qed.

Lemma sum_list_with_agree {A} (f1 f2 : A → nat) (l : list A) :
  (∀ a, a ∈ l → f1 a = f2 a) → sum_list_with f1 l = sum_list_with f2 l.
Proof.
  induction l as [|a l IH]; intros H; simpl; [done|].
  rewrite H by (by left). f_equal. apply IH. intros b Hb. apply H. by right.
Qed.

Lemma sum_list_with_add {A} (f1 f2 : A → nat) (l : list A) :
  sum_list_with (λ a, f1 a + f2 a) l = sum_list_with f1 l + sum_list_with f2 l.
Proof. induction l as [|a l IH]; simpl; [done | rewrite IH; lia]. Qed.

Lemma sum_list_with_zero {A} (l : list A) : sum_list_with (λ _, 0) l = 0.
Proof. induction l as [|a l IH]; simpl; [done | by rewrite IH]. Qed.

Lemma sum_indicator (s n : nat) (v : nat) :
  sum_list_with (λ i, length (if decide (s = i) then [v] else [])) (seq 0 n)
  = if decide (s < n) then 1 else 0.
Proof.
  induction n as [|n IH]; [done|].
  rewrite seq_S, sum_list_with_app, IH. simpl.
  repeat case_decide; simpl; lia.
Qed.

Lemma sum_dests_of m edges n :
  Forall (resolved m) edges → (∀ k p, m !! k = Some p → p < n) →
  sum_list_with length (dests_of m edges <$> seq 0 n) = 2 * length edges.
Proof.
  intros HF Hm. rewrite sum_list_with_fmap.
  induction HF as [|e rest [[s Hs] [t Ht]] _ IH].
  - unfold dests_of. simpl. apply sum_list_with_zero.
  - unfold dests_of in *. simpl. rewrite Hs, Ht.
    rewrite (sum_list_with_agree _ (λ i,
       (length (if decide (s = i) then [t] else [])
        + length (if decide (t = i) then [s] else []))
       + length (flat_map (λ e0,
           match m !! source e0, m !! target e0 with
           | Some s0, Some t0 =>
               (if decide (s0 = i) then [t0] else [])
               ++ (if decide (t0 = i) then [s0] else [])
           | _, _ => []
           end) rest)) (seq 0 n)).
    + rewrite !sum_list_with_add, IH, !sum_indicator.
      rewrite !decide_True by (by eapply Hm). lia.
    + intros i _. by rewrite !length_app.
Qed.

Lemma pad_loop_minimal fuel d d' :
  pad_loop fuel d = Some d' →
  d' = d ++ replicate ((4 - length d mod 4) mod 4) (VInt 0%Z).
Proof.
  revert d d'. induction fuel as [|fuel IH]; intros d d'; cbn [pad_loop];
    case_decide as Hm.
  - intros [= <-]. rewrite Hm. by rewrite app_nil_r.
  - done.
  - intros [= <-]. rewrite Hm. by rewrite app_nil_r.
  - intros H. apply IH in H as ->. rewrite length_app. cbn [length].
    rewrite <- app_assoc. f_equal.
    destruct (mod4_cases (length d)) as [[E E']|[[E E']|[[E E']|[E E']]]];
      rewrite E in *; rewrite E'; done.
Qed.

Lemma header_lookup nodes j n0 :
  nodes !! j = Some n0 →
  header nodes !! (j * 4) = Some (VCoord (x n0))
  ∧ header nodes !! (j * 4 + 1) = Some (VCoord (y n0)).
Proof.
  revert j. induction nodes as [|n rest IH]; intros j Hj; [done|].
  destruct j as [|j]; simpl in Hj.
  - by simplify_eq.
  - apply IH in Hj as [H0 H1]. unfold header in *. cbn [flat_map].
    replace (S j * 4) with (4 + j * 4) by lia.
    replace (4 + j * 4 + 1) with (4 + (j * 4 + 1)) by lia.
    split; [exact H0 | exact H1].
Qed.

Lemma pad_amount (n e : nat) :
  (4 - (4 * n + 2 * e) mod 4) mod 4 = 2 * (e mod 2).
Proof.
  pose proof (Nat.div_mod_eq e 2) as He.
  pose proof (Nat.mod_upper_bound e 2) as Hb.
  assert ((4 * n + 2 * e) mod 4 = 2 * (e mod 2)) as ->.
  { symmetry. apply (Nat.mod_unique _ 4 (n + e / 2)); lia. }
  assert (e mod 2 = 0 ∨ e mod 2 = 1) as [->| ->] by lia; done.
Qed.

(** The globals, the length, the coordinates and the padding of a returned
    array, read off the loops. *)
Lemma buildTextureData_array fuel nodes edges g arr g' :
  buildTextureData fround fuel nodes edges g = Return (arr, g') →
  let m := register nodes 0 ∅ in
  let body := 4 * length nodes + 2 * length edges in
  g' = {| lineIndexBufferData := lineIndexBufferData g ++ line_indices m edges;
          maxEdgePerVetex :=
            Some (max_list_with length
                    (dests_of m edges <$> seq 0 (length nodes))) |}
  ∧ sum_list_with length (dests_of m edges <$> seq 0 (length nodes))
    = 2 * length edges
  ∧ length arr = body + 2 * (length edges mod 2)
  ∧ (∀ j n0, nodes !! j = Some n0 →
       arr !! (j * 4) = Some (FCoord (fround (x n0)))
       ∧ arr !! (j * 4 + 1) = Some (FCoord (fround (y n0))))
  ∧ (∀ p, body ≤ p < length arr → arr !! p = Some (FInt 0%Z)).
Proof.
  intros H m body. subst body.
  unfold buildTextureData in H. rewrite loop_nodes_spec in H. simpl in H.
  destruct (loop_edges _ _ _ _) as [[nd' li']|] eqn:He; [|done].
  pose proof (nodeDict_after_edges _ _ _ _ _ He) as Hnd.
  pose proof (loop_edges_line_indices _ _ _ _ _ _ He) as Hli.
  apply loop_edges_inl in He as (_ & _ & HF).
  fold m in Hnd, HF, Hli.
  assert (Hlen : length nd' = length nodes)
    by (by rewrite Hnd, length_fmap, length_seq).
  assert (Hsum : sum_list_with length (dests_of m edges <$> seq 0 (length nodes))
                 = 2 * length edges).
  { apply sum_dests_of; [done|]. intros k p Hp.
    apply register_bound in Hp as [Hp|Hp]; [done | lia]. }
  destruct (loop_offsets_spec (length nodes) 0 nd' (header nodes) 0)
    as (d' & Hrun & Hl' & Hkeep & _);
    [lia | rewrite length_header; lia |].
  rewrite Hrun in H. rewrite drop_0 in *. rewrite firstn_all2 in * by lia.
  destruct (pad_loop fuel d') as [padded|] eqn:Hp; [|done].
  injection H as <- <-. apply pad_loop_minimal in Hp as ->.
  rewrite length_header in *. rewrite <- Hnd in Hsum. rewrite Hsum in Hl'.
  split; [by rewrite Hli, Hnd|]. split; [by rewrite <- Hnd|].
  unfold Float32Array.
  change (map (toFloat32 fround)) with (fmap (M:=list) (toFloat32 fround)).
  split; [by rewrite length_fmap, length_app, length_replicate, Hl', pad_amount|].
  split.
  - intros j n0 Hj. pose proof (lookup_lt_Some _ _ _ Hj) as Hjn.
    destruct (header_lookup _ _ _ Hj) as [H0 H1].
    rewrite !list_lookup_fmap, !lookup_app_l by lia.
    rewrite !Hkeep by (lia || intros; lia). by rewrite H0, H1.
  - intros p Hp. rewrite length_fmap, length_app, length_replicate in Hp.
    rewrite list_lookup_fmap, lookup_app_r by lia.
    rewrite lookup_replicate_2 by lia. done.
Qed.

(** Property X1.  A returned array has one vec4 per node, one element per
    edge endpoint, and two elements of padding exactly when the number of
    edges is odd. *)
Theorem buildTextureData_length fuel nodes edges g arr g' :
  buildTextureData fround fuel nodes edges g = Return (arr, g') →
  length arr
  = 4 * length nodes + 2 * length edges + 2 * (length edges mod 2).
Proof. intros H. by apply buildTextureData_array in H as (_ & _ & Hl & _). Qed.

Lemma loop_edges_restart edges : ∀ nd m li nd' li' li0,
  loop_edges edges nd m li = inl (nd', li') →
  loop_edges edges nd m li0 = inl (nd', li0 ++ line_indices m edges).
Proof.
  induction edges as [|e rest IH]; intros nd m li nd' li' li0 H; simpl in *.
  - simplify_eq. by rewrite app_nil_r.
  - unfold get_prop in *. unfold line_indices. simpl.
    destruct (m !! source e) as [s|] eqn:Hs; [|done].
    destruct (m !! target e) as [t|] eqn:Ht; [|done].
    destruct (push_at nd s t) as [nd1|]; [|done].
    destruct (push_at nd1 t s) as [nd2|]; [|done].
    rewrite (IH _ _ _ _ _ (li0 ++ [s; t]) H). by rewrite <- app_assoc.
Qed.

(** Property X2.  The returned array and the new [maxEdgePerVetex] do not
    depend on the module-level variables the call starts from, but
    [lineIndexBufferData] is appended to and never cleared: a call adds two
    entries per edge behind whatever earlier calls left there. *)
Theorem buildTextureData_appends_line_indices fuel nodes edges g arr g' :
  buildTextureData fround fuel nodes edges g = Return (arr, g') →
  ∃ added,
    buildTextureData fround fuel nodes edges fresh_globals
    = Return (arr, {| lineIndexBufferData := added;
                      maxEdgePerVetex := maxEdgePerVetex g' |})
    ∧ lineIndexBufferData g' = lineIndexBufferData g ++ added
    ∧ length added = 2 * length edges.
Proof.
  intros H. exists (line_indices (register nodes 0 ∅) edges).
  pose proof (buildTextureData_array _ _ _ _ _ _ H) as (Hg & _).
  pose proof (buildTextureData_Return _ _ _ _ _ _ _ H) as (HF & _).
  split; [|split; [by rewrite Hg | by apply length_line_indices]].
  unfold buildTextureData in *. rewrite loop_nodes_spec in *. simpl in *.
  destruct (loop_edges _ _ _ (lineIndexBufferData g)) as [[nd' li']|] eqn:He;
    [|done].
  rewrite (loop_edges_restart _ _ _ _ _ _ [] He). simpl.
  destruct (loop_offsets _ _ _ _ _) as [[d' mx]|]; [|done].
  destruct (pad_loop fuel d') as [padded|]; [|done].
  by simplify_eq.
Qed.

Lemma line_indices_positions nodes edges :
  NoDup (id <$> nodes) → Forall (resolved (register nodes 0 ∅)) edges →
  line_indices (register nodes 0 ∅) edges
  = flat_map (endpoint_positions nodes) edges.
Proof.
  intros Hnd HF. induction HF as [|e rest [[s Hs] [t Ht]] _ IH]; [done|].
  unfold line_indices in *. cbn [flat_map]. rewrite IH, Hs, Ht.
  apply (register_position nodes Hnd) in Hs as [Hs _].
  apply (register_position nodes Hnd) in Ht as [Ht _].
  unfold endpoint_positions. by rewrite Hs, Ht.
Qed.

(** Property X3.  With pairwise distinct node ids, a returning call appends
    to [lineIndexBufferData], for each edge in order, the position of its
    source node followed by the position of its target node. *)
Theorem buildTextureData_line_indices fuel nodes edges g arr g' :
  NoDup (id <$> nodes) →
  buildTextureData fround fuel nodes edges g = Return (arr, g') →
  lineIndexBufferData g'
  = lineIndexBufferData g ++ flat_map (endpoint_positions nodes) edges
  ∧ Forall (λ e, ∃ s t, endpoint_positions nodes e = [s; t]
                        ∧ s < length nodes ∧ t < length nodes) edges.
Proof.
  intros Hnd H.
  pose proof (buildTextureData_array _ _ _ _ _ _ H) as (Hg & _).
  pose proof (buildTextureData_Return _ _ _ _ _ _ _ H) as (HF & _).
  split; [rewrite Hg; simpl; by rewrite line_indices_positions|].
  eapply Forall_impl; [exact HF|]. intros e [[s Hs] [t Ht]].
  exists s, t. unfold endpoint_positions.
  pose proof (register_bound _ _ _ _ _ Hs) as [?|?]; [done|].
  pose proof (register_bound _ _ _ _ _ Ht) as [?|?]; [done|].
  apply (register_position nodes Hnd) in Hs as [-> _].
  apply (register_position nodes Hnd) in Ht as [-> _].
  split; [done | lia].
Qed.


(** Property X18.  [lineIndexBufferData] holds whole pairs: if its length
    is even before a call of [buildTextureData], it is even after the
    call, whether the call returns or throws. *)
Theorem lineIndexBufferData_stays_even fuel nodes edges g :
  Nat.Even (length (lineIndexBufferData g)) →
  match buildTextureData fround fuel nodes edges g with
  | Return (_, g') | TypeError g' =>
      Nat.Even (length (lineIndexBufferData g'))
  | OutOfFuel => True
  end.
Proof.
  intros [k Hk].
  destruct (buildTextureData fround fuel nodes edges g)
    as [[arr g']| g' |] eqn:H; [| |done].
  - pose proof (buildTextureData_array _ _ _ _ _ _ H) as (Hg & _).
    pose proof (buildTextureData_Return _ _ _ _ _ _ _ H) as (HF & _).
    exists (k + length edges). rewrite Hg. cbn [lineIndexBufferData].
    rewrite length_app, length_line_indices by done. lia.
  - unfold buildTextureData in H. rewrite loop_nodes_spec in H. simpl in H.
    destruct (loop_edges _ _ _ _) as [[nd' li']|li'] eqn:He.
    + exfalso. apply loop_edges_inl in He as (L & _ & _).
      rewrite length_replicate in L.
      destruct (loop_offsets_spec (length nodes) 0 nd' (header nodes) 0)
        as (d' & Hrun & _); [lia | rewrite length_header; lia |].
      rewrite Hrun in H. destruct (pad_loop fuel d'); done.
    + simplify_eq. simpl.
      apply loop_edges_inr_prefix in He as (pre & e & post & _ & HF & _ & ->).
      * exists (k + length pre).
        rewrite length_app, length_line_indices by done. lia.
      * intros k0 p Hp. rewrite length_replicate.
        apply register_bound in Hp as [Hp|Hp]; [done | lia].
Qed.

(** Property X5.  A returned array holds the coordinates of node [i],
    converted to float32, at elements [4i] and [4i+1], whatever the ids
    and the edges are. *)
Theorem buildTextureData_coordinates fuel nodes edges g arr g' i n :
  buildTextureData fround fuel nodes edges g = Return (arr, g') →
  nodes !! i = Some n →
  arr !! (4 * i) = Some (FCoord (fround (x n)))
  ∧ arr !! (4 * i + 1) = Some (FCoord (fround (y n))).
Proof.
  intros H Hi. apply buildTextureData_array in H as (_ & _ & _ & Hxy & _).
  rewrite (Nat.mul_comm 4 i). by apply Hxy.
Qed.

Lemma position_in_lists (ls : list (list nat)) : ∀ p,
  p < sum_list_with length ls →
  ∃ i l q, ls !! i = Some l ∧ q < length l
    ∧ p = sum_list_with length (take i ls) + q.
Proof.
  induction ls as [|l rest IH]; intros p Hp; simpl in Hp; [lia|].
  destruct (decide (p < length l)) as [Hl|Hl].
  - exists 0, l, p. by repeat split.
  - destruct (IH (p - length l)) as (i & l' & q & Hi & Hq & Hpq); [lia|].
    exists (S i), l', q. split; [done|]. split; [done|]. simpl. lia.
Qed.

Lemma dests_of_bound m edges i n dest :
  (∀ k p, m !! k = Some p → p < n) → dest ∈ dests_of m edges i → dest < n.
Proof.
  intros Hm Hq. unfold dests_of in Hq.
  apply list_elem_of_In, in_flat_map in Hq as (e & _ & Hq).
  apply list_elem_of_In in Hq.
  destruct (m !! source e) as [s|] eqn:Hs; [|by apply elem_of_nil in Hq].
  destruct (m !! target e) as [t|] eqn:Ht; [|by apply elem_of_nil in Hq].
  apply Hm in Hs, Ht.
  apply elem_of_app in Hq as [Hq|Hq]; case_decide;
    (by apply elem_of_nil in Hq) || (apply list_elem_of_singleton in Hq; lia).
Qed.

Lemma register_below nodes k p : register nodes 0 ∅ !! k = Some p → p < length nodes.
Proof. intros Hp. apply register_bound in Hp as [Hp|Hp]; [done | lia]. Qed.

(** Property X6.  Behind the node headers a returned array holds nothing
    but positions of nodes as converted to float32: every entry of an
    adjacency list, and every padding element, is the conversion of the
    index of one of the nodes passed in.  While the array has at most
    [2^24] elements the conversion changes nothing, and the entry is that
    index itself. *)
Theorem buildTextureData_entries_are_nodes fuel nodes edges g arr g' p :
  buildTextureData fround fuel nodes edges g = Return (arr, g') →
  4 * length nodes ≤ p < length arr →
  ∃ j, j < length nodes
    ∧ arr !! p = Some (FInt (fround_Z (Z.of_nat j)))
    ∧ ((Z.of_nat (length arr) ≤ 2 ^ 24)%Z →
       arr !! p = Some (FInt (Z.of_nat j))).
Proof.
  intros H Hp.
  pose proof (buildTextureData_array _ _ _ _ _ _ H)
    as (_ & Hsum & Hlen & _ & Hpad).
  pose proof (buildTextureData_Return _ _ _ _ _ _ _ H)
    as (HF & _ & _ & _ & Hat).
  set (m := register nodes 0 ∅) in *. set (dests := dests_of m edges) in *.
  enough (∃ j, j < length nodes
               ∧ arr !! p = Some (FInt (fround_Z (Z.of_nat j)))) as (j & Hj & Hpj).
  { exists j. split; [done|]. split; [done|]. intros Hsmall.
    rewrite Hpj, fround_Z_exact; [done | lia]. }
  destruct (decide (p < 4 * length nodes + 2 * length edges)) as [Hin|Hout].
  - destruct (position_in_lists (dests <$> seq 0 (length nodes))
                (p - 4 * length nodes)) as (i & l & q & Hi & Hq & Hpq); [lia|].
    rewrite list_lookup_fmap in Hi.
    destruct (seq 0 (length nodes) !! i) as [i'|] eqn:Hseq; [|done].
    apply lookup_seq in Hseq as [-> Hil]. simpl in Hi, Hil. simplify_eq.
    rewrite <- fmap_take, take_seq, Nat.min_l in Hpq by lia.
    destruct (lookup_lt_is_Some_2 (dests i) q Hq) as [dest Hdest].
    destruct (Hat i Hil) as (_ & _ & Hd).
    exists dest. split.
    + eapply dests_of_bound; [apply register_below|].
      by eapply list_elem_of_lookup_2.
    + rewrite <- (Hd q dest Hdest). f_equal. lia.
  - exists 0. rewrite Hpad by lia. split; [|done].
    destruct edges as [|e rest]; [simpl in *; lia|].
    apply Forall_cons in HF as [[[s Hs] _] _].
    apply register_below in Hs. lia.
Qed.

Lemma sum_list_fmap {A} (f : A → nat) (l : list A) :
  sum_list (f <$> l) = sum_list_with f l.
Proof. induction l as [|a l IH]; simpl; [done | f_equal; exact IH]. Qed.

Lemma max_list_fmap {A} (f : A → nat) (l : list A) :
  max_list (f <$> l) = max_list_with f l.
Proof. induction l as [|a l IH]; simpl; [done | f_equal; exact IH]. Qed.

(** Property X7.  Whatever the ids, the headers of a returned array chain
    up: there is one count per node, the counts add up to twice the
    number of edges, [maxEdgePerVetex] is the largest of them, the first
    offset is [4 * nodes.length], and each further offset is the previous
    offset plus the previous count. *)
Theorem buildTextureData_offsets_chain fuel nodes edges g arr g' :
  buildTextureData fround fuel nodes edges g = Return (arr, g') →
  ∃ counts : list nat,
    length counts = length nodes
    ∧ sum_list counts = 2 * length edges
    ∧ maxEdgePerVetex g' = Some (max_list counts)
    ∧ ∀ i c, counts !! i = Some c →
        arr !! (4 * i + 2)
        = Some (FInt (fround_Z
                  (Z.of_nat (4 * length nodes + sum_list (take i counts)))))
        ∧ arr !! (4 * i + 3) = Some (FInt (fround_Z (Z.of_nat c))).
Proof.
  intros H.
  pose proof (buildTextureData_array _ _ _ _ _ _ H) as (Hg & Hsum & _).
  pose proof (buildTextureData_Return _ _ _ _ _ _ _ H)
    as (_ & _ & _ & Hmax & Hat).
  set (m := register nodes 0 ∅) in *. set (dests := dests_of m edges) in *.
  exists ((λ i, length (dests i)) <$> seq 0 (length nodes)).
  split; [by rewrite length_fmap, length_seq|].
  split; [by rewrite sum_list_fmap, <- Hsum, sum_list_with_fmap|].
  split; [by rewrite Hmax, max_list_fmap, max_list_with_fmap|].
  intros i c Hi. rewrite list_lookup_fmap in Hi.
  destruct (seq 0 (length nodes) !! i) as [i'|] eqn:Hseq; [|done].
  apply lookup_seq in Hseq as [-> Hil]. simpl in Hi, Hil. simplify_eq.
  destruct (Hat i Hil) as (H2 & H3 & _).
  rewrite (Nat.mul_comm 4 i), H2, H3. split; [|done].
  rewrite <- fmap_take, take_seq, Nat.min_l by lia.
  by rewrite sum_list_fmap, sum_list_with_fmap.
Qed.

Lemma stored_slice {A B} (f : A → B) (l : list A) (arr : list B) off :
  (∀ p a, l !! p = Some a → arr !! (off + p) = Some (f a)) →
  take (length l) (drop off arr) = f <$> l.
Proof.
  intros Hd. apply list_eq. intros p. rewrite list_lookup_fmap.
  destruct (decide (p < length l)) as [Hp|Hp].
  - rewrite lookup_take_lt, lookup_drop by done.
    destruct (lookup_lt_is_Some_2 l p Hp) as [a Ha].
    rewrite Ha. simpl. by apply Hd.
  - rewrite lookup_take_ge by lia. by rewrite lookup_ge_None_2 by lia.
Qed.

Lemma dests_of_symmetric m edges i j :
  length (filter (λ v, v = j) (dests_of m edges i))
  = length (filter (λ v, v = i) (dests_of m edges j)).
Proof.
  unfold dests_of. induction edges as [|e rest IH]; [done|].
  cbn [flat_map]. rewrite !filter_app, !length_app, IH. f_equal.
  destruct (m !! source e) as [s|]; [|done].
  destruct (m !! target e) as [t|]; [|done].
  rewrite !filter_app, !length_app.
  repeat case_decide; subst; rewrite ?filter_cons, ?filter_nil;
    repeat case_decide; simpl; try lia; congruence.
Qed.

(** Property X8.  The adjacency lists of a returned array describe an
    undirected graph: node [j] occurs in the list stored for node [i] as
    often as node [i] occurs in the list stored for node [j]. *)
Theorem buildTextureData_adjacency_symmetric fuel nodes edges g arr g' :
  buildTextureData fround fuel nodes edges g = Return (arr, g') →
  ∃ adj : list (list nat),
    length adj = length nodes
    ∧ (∀ i l, adj !! i = Some l →
         ∃ offset : nat,
           arr !! (4 * i + 2) = Some (FInt (fround_Z (Z.of_nat offset)))
           ∧ arr !! (4 * i + 3) = Some (FInt (fround_Z (Z.of_nat (length l))))
           ∧ take (length l) (drop offset arr)
             = (λ p, FInt (fround_Z (Z.of_nat p))) <$> l)
    ∧ ∀ i j li lj, adj !! i = Some li → adj !! j = Some lj →
        length (filter (λ v, v = j) li) = length (filter (λ v, v = i) lj).
Proof.
  intros H.
  pose proof (buildTextureData_Return _ _ _ _ _ _ _ H)
    as (_ & _ & _ & _ & Hat).
  set (m := register nodes 0 ∅) in *. set (dests := dests_of m edges) in *.
  assert (Hadj : ∀ i l, (dests <$> seq 0 (length nodes)) !! i = Some l →
            i < length nodes ∧ l = dests i).
  { intros i l Hi. rewrite list_lookup_fmap in Hi.
    destruct (seq 0 (length nodes) !! i) as [i'|] eqn:Hseq; [|done].
    apply lookup_seq in Hseq as [-> Hil]. simpl in Hi. by simplify_eq. }
  exists (dests <$> seq 0 (length nodes)).
  split; [by rewrite length_fmap, length_seq|]. split.
  - intros i l Hi. apply Hadj in Hi as [Hil ->].
    destruct (Hat i Hil) as (H2 & H3 & Hd).
    eexists. rewrite (Nat.mul_comm 4 i). split; [exact H2|].
    split; [exact H3|]. by apply stored_slice.
  - intros i j li lj Hi Hj.
    apply Hadj in Hi as [_ ->]. apply Hadj in Hj as [_ ->].
    apply dests_of_symmetric.
Qed.

Lemma length_flat_map_4 {A B} (f : A → list B) (l : list A) :
  (∀ a, length (f a) = 4) → length (flat_map f l) = 4 * length l.
Proof.
  intros Hf. induction l as [|a l IH]; [done|].
  cbn [flat_map length]. rewrite length_app, Hf, IH. lia.
Qed.

Lemma map_flat_map {A B C} (h : B → C) (f : A → list B) (l : list A) :
  map h (flat_map f l) = flat_map (λ a, map h (f a)) l.
Proof.
  induction l as [|a l IH]; [done|].
  cbn [flat_map]. by rewrite map_app, IH.
Qed.

Lemma loop_offsets_no_edges (rest : list (@node coord)) : ∀ A i N,
  length A = 4 * i → i + length rest ≤ N →
  loop_offsets (length rest) i (replicate N []) (A ++ header rest) 0
  = Some (A ++ flat_map (λ n, [VCoord (x n); VCoord (y n);
                               VInt (Z.of_nat (length A + 4 * length rest));
                               VInt 0%Z]) rest, 0).
Proof.
  induction rest as [|n rest IH]; intros A i N HA HN; [done|].
  cbn [length loop_offsets]. rewrite lookup_replicate_2 by (cbn [length] in HN; lia).
  cbn [length push_dests Nat.max].
  assert (HL : length (A ++ header (n :: rest)) = length A + 4 * S (length rest))
    by (rewrite length_app, length_header; done).
  rewrite HL.
  change (header (n :: rest))
    with ([VCoord (x n); VCoord (y n); VInt 0%Z; VInt 0%Z] ++ header rest).
  rewrite (js_set_in_range (A ++ _)) by (rewrite length_app; simpl; lia).
  rewrite js_set_in_range by (rewrite length_insert, length_app; simpl; lia).
  replace (i * 4 + 2) with (length A + 2) by lia.
  replace (i * 4 + 3) with (length A + 3) by lia.
  rewrite !insert_app_r. cbn [insert list_insert app].
  rewrite (cons_middle _ A), app_assoc, (cons_middle _ (A ++ _)), app_assoc.
  rewrite (cons_middle _ (_ ++ _)), app_assoc, (cons_middle _ ((_ ++ _) ++ _)), app_assoc.
  rewrite (IH _ (S i) N) by (rewrite ?length_app; simpl in *; lia).
  rewrite !length_app. cbn [length flat_map]. rewrite <- !app_assoc. cbn [app].
  f_equal. f_equal. f_equal. do 4 f_equal.
  apply flat_map_ext. intros n0. do 3 f_equal. f_equal. lia.
Qed.

(** Property X9.  For a graph without edges the call returns on every node
    list, needs no padding, and the array consists of the node headers
    alone: the coordinates, the offset [4 * nodes.length] and the count 0
    for every node.  [maxEdgePerVetex] becomes 0 and [lineIndexBufferData]
    stays as it was. *)
Theorem buildTextureData_no_edges fuel nodes g :
  buildTextureData fround fuel nodes [] g
  = Return
      (flat_map (λ n, [FCoord (fround (x n)); FCoord (fround (y n));
                       FInt (fround_Z (Z.of_nat (4 * length nodes)));
                       FInt 0%Z]) nodes,
       {| lineIndexBufferData := lineIndexBufferData g;
          maxEdgePerVetex := Some 0 |}).
Proof.
  unfold buildTextureData. rewrite loop_nodes_spec. simpl.
  pose proof (loop_offsets_no_edges nodes [] 0 (length nodes) eq_refl) as Hrun.
  simpl in Hrun. rewrite Hrun by lia.
  set (d := flat_map _ nodes).
  assert (Hd : length d = 4 * length nodes)
    by (apply length_flat_map_4; by intros n).
  assert (Hp : pad_loop fuel d = Some d).
  { destruct fuel; cbn [pad_loop]; rewrite decide_True; try done;
      rewrite Hd, Nat.mul_comm; apply Nat.Div0.mod_mul. }
  rewrite Hp. f_equal. f_equal. unfold d, Float32Array.
  rewrite map_flat_map. apply flat_map_ext. intros n. simpl.
  by do 2 f_equal.
Qed.

(** Property X10.  The id [__proto__] cannot be used: an edge that names
    it as source or target makes the call throw, also when a node with
    that id is in the node list. *)
Theorem buildTextureData_proto_id_throws fuel nodes edges g e :
  3 ≤ fuel → e ∈ edges →
  source e = "__proto__" ∨ target e = "__proto__" →
  ∃ g', buildTextureData fround fuel nodes edges g = TypeError g'.
Proof.
  intros Hfuel He Hproto.
  pose proof (buildTextureData_outcome fround fuel nodes edges g Hfuel) as Ho.
  destruct (buildTextureData fround fuel nodes edges g) as [[arr g']| g' |];
    [|by eauto|done].
  exfalso. eapply Forall_forall in Ho; [|exact He].
  destruct Ho as [[Hs _] [Ht _]]. by destruct Hproto.
Qed.

Lemma max_list_with_ge {A} (f : A → nat) (l : list A) a :
  a ∈ l → f a ≤ max_list_with f l.
Proof.
  induction 1 as [a l|a a' l _ IH]; simpl; lia.
Qed.

(** The layout of a small array for nodes with distinct ids, in the form
    the kernel relies on. *)
Lemma layout_exact fuel nodes edges g arr g' i :
  NoDup (id <$> nodes) →
  buildTextureData fround fuel nodes edges g = Return (arr, g') →
  (Z.of_nat (length arr) ≤ 2 ^ 24)%Z →
  i < length nodes →
  ∃ offset maxE : nat,
    let adj := adjacency nodes edges i in
    arr !! (4 * i + 2) = Some (FInt (Z.of_nat offset))
    ∧ arr !! (4 * i + 3) = Some (FInt (Z.of_nat (length adj)))
    ∧ 4 * length nodes ≤ offset
    ∧ offset + length adj ≤ length arr
    ∧ length arr mod 4 = 0
    ∧ maxEdgePerVetex g' = Some maxE ∧ length adj ≤ maxE
    ∧ ∀ p j, adj !! p = Some j →
        arr !! (offset + p) = Some (FInt (Z.of_nat j)) ∧ j < length nodes.
Proof.
  intros Hnd H Hsmall Hi.
  apply buildTextureData_Return in H as (HF & Hmod & Hlen & Hmax & Hat).
  set (m := register nodes 0 ∅) in *. set (dests := dests_of m edges) in *.
  destruct (dests_of_adjacency nodes Hnd edges i HF Hi) as [Hadj _].
  fold m in Hadj. fold dests in Hadj.
  destruct (Hat i Hi) as (H2 & H3 & Hd).
  set (offset := 4 * length nodes + sum_list_with length (dests <$> seq 0 i)) in *.
  assert (Hle : offset + length (dests i) ≤ length arr).
  { etrans; [|exact Hlen]. unfold offset.
    replace (length nodes) with (i + S (length nodes - S i)) at 3 by lia.
    rewrite seq_app, fmap_app, sum_list_with_app. simpl. lia. }
  assert (Hex : ∀ k : nat, k ≤ length arr → fround_Z (Z.of_nat k) = Z.of_nat k).
  { intros k Hk. apply fround_Z_exact. lia. }
  exists offset, (max_list_with length (dests <$> seq 0 (length nodes))).
  cbn zeta. rewrite <- Hadj. rewrite (Nat.mul_comm 4 i).
  rewrite Hex in H2 by lia. rewrite Hex in H3 by lia.
  split; [done|]. split; [done|]. split; [unfold offset; lia|].
  split; [done|]. split; [done|]. split; [done|]. split.
  { apply (max_list_with_ge length). apply list_elem_of_fmap_2.
    apply elem_of_seq. lia. }
  intros p j Hp.
  assert (j < length nodes) as Hj.
  { eapply dests_of_bound; [apply register_below|].
    by eapply list_elem_of_lookup_2. }
  rewrite (Hd p j Hp), Hex by lia. done.
Qed.

Lemma register_grows nodes : ∀ i m k q,
  m !! k = Some q →
  ∃ p, register nodes i m !! k = Some p ∧ (p = q ∨ i ≤ p).
Proof.
  induction nodes as [|n rest IH]; intros i m k q Hq; simpl; [by eauto|].
  destruct (decide (id n = k ∧ id n ≠ "__proto__")) as [Hk|Hk].
  - destruct (IH (S i) (set_prop m (id n) i) k i) as (p & Hp & Hpi).
    { rewrite set_prop_lookup. by rewrite decide_True. }
    exists p. split; [done|]. right. lia.
  - destruct (IH (S i) (set_prop m (id n) i) k q) as (p & Hp & Hpi).
    { rewrite set_prop_lookup. by rewrite decide_False. }
    exists p. split; [done|]. destruct Hpi; [by left | right; lia].
Qed.

Lemma register_later nodes : ∀ i m j n,
  nodes !! j = Some n → id n ≠ "__proto__" →
  ∃ p, register nodes i m !! id n = Some p ∧ i + j ≤ p.
Proof.
  induction nodes as [|n0 rest IH]; intros i m j n Hj Hn; [done|].
  destruct j as [|j]; simpl in *.
  - simplify_eq.
    destruct (register_grows rest (S i) (set_prop m (id n) i) (id n) i)
      as (p & Hp & Hpi).
    { rewrite set_prop_lookup. by rewrite decide_True. }
    exists p. split; [done | lia].
  - destruct (IH (S i) (set_prop m (id n0) i) j n Hj Hn) as (p & Hp & Hpi).
    exists p. split; [done | lia].
Qed.

Lemma register_shadowed nodes i j n n' k :
  nodes !! i = Some n → nodes !! j = Some n' → i < j → id n' = id n →
  register nodes 0 ∅ !! k ≠ Some i.
Proof.
  intros Hi Hj Hij Hid Hk.
  pose proof (register_inv _ _ _ _ _ Hk) as [?|(_ & Hproto & n0 & Hn0 & <-)];
    [done|].
  rewrite Nat.sub_0_r in Hn0. assert (n0 = n) as -> by congruence.
  destruct (register_later nodes 0 ∅ j n' Hj) as (p & Hp & Hjp);
    [by rewrite Hid|].
  rewrite Hid in Hp. simplify_eq. lia.
Qed.

(** Property X16.  A node whose id is carried again by a later node is cut
    out of the graph: whatever edges name that id, its stored count is 0
    and none of the index pairs appended to [lineIndexBufferData] mentions
    its position. *)
Theorem buildTextureData_shadowed_node fuel nodes edges g arr g' i j n n' :
  buildTextureData fround fuel nodes edges g = Return (arr, g') →
  nodes !! i = Some n → nodes !! j = Some n' → i < j → id n' = id n →
  arr !! (4 * i + 3) = Some (FInt 0%Z)
  ∧ ∃ added, lineIndexBufferData g' = lineIndexBufferData g ++ added
             ∧ i ∉ added.
Proof.
  intros H Hi Hj Hij Hid.
  assert (Hno : ∀ k, register nodes 0 ∅ !! k ≠ Some i)
    by (intros k; by eapply register_shadowed).
  pose proof (buildTextureData_array _ _ _ _ _ _ H) as (Hg & _).
  pose proof (buildTextureData_Return _ _ _ _ _ _ _ H)
    as (_ & _ & _ & _ & Hat).
  set (m := register nodes 0 ∅) in *.
  split.
  - destruct (Hat i) as (_ & H3 & _); [by eapply lookup_lt_Some|].
    rewrite (Nat.mul_comm 4 i), H3.
    assert (dests_of m edges i = []) as ->; [|done].
    unfold dests_of. clear -Hno. induction edges as [|e rest IH]; [done|].
    cbn [flat_map]. rewrite IH, app_nil_r.
    destruct (m !! source e) as [s|] eqn:Hs; [|done].
    destruct (m !! target e) as [t|] eqn:Ht; [|done].
    rewrite !decide_False; [done|..]; intros ->; by eapply Hno.
  - exists (line_indices m edges). split; [by rewrite Hg|].
    unfold line_indices. intros Hin.
    apply list_elem_of_In, in_flat_map in Hin as (e & _ & Hin).
    apply list_elem_of_In in Hin.
    destruct (m !! source e) as [s|] eqn:Hs; [|by apply elem_of_nil in Hin].
    destruct (m !! target e) as [t|] eqn:Ht; [|by apply elem_of_nil in Hin].
    apply elem_of_cons in Hin as [->|Hin]; [by eapply Hno|].
    apply list_elem_of_singleton in Hin as ->. by eapply Hno.
Qed.

End WithCoordinates.

(** The length formula on the path: twelve header elements, six
    neighbours and, the number of edges being odd, two zeros. *)
Lemma buildTextureData_length_witness :
  ∃ arr g',
    buildTextureData no_rounding 3 path_nodes path_edges fresh_globals
    = Return (arr, g')
    ∧ length arr = 4 * 3 + 2 * 3 + 2 * (3 mod 2).
Proof.
  eexists _, _. split; [reflexivity|].
  exact (buildTextureData_length no_rounding 3 path_nodes path_edges
           fresh_globals _ _ eq_refl).
Defined.

(** A call that finds the pair of an earlier call in place. *)
Lemma buildTextureData_appends_line_indices_witness :
  ∃ arr g' added,
    buildTextureData no_rounding 3 path_nodes path_edges earlier_globals
    = Return (arr, g')
    ∧ buildTextureData no_rounding 3 path_nodes path_edges fresh_globals
      = Return (arr, {| lineIndexBufferData := added;
                        maxEdgePerVetex := maxEdgePerVetex g' |})
    ∧ lineIndexBufferData g' = [0; 1] ++ added
    ∧ length added = 2 * 3.
Proof.
  destruct (buildTextureData_appends_line_indices no_rounding 3 path_nodes
              path_edges earlier_globals _ _ eq_refl) as (added & H1 & H2 & H3).
  eexists _, _, added. split; [reflexivity|]. split; [exact H1|].
  split; [exact H2 | exact H3].
Defined.

Lemma buildTextureData_line_indices_witness :
  ∃ arr g',
    buildTextureData no_rounding 3 path_nodes path_edges earlier_globals
    = Return (arr, g')
    ∧ lineIndexBufferData g'
      = [0; 1] ++ flat_map (endpoint_positions path_nodes) path_edges.
Proof.
  eexists _, _. split; [reflexivity|].
  exact (proj1 (buildTextureData_line_indices no_rounding 3 path_nodes
                  path_edges earlier_globals _ _ path_nodes_NoDup eq_refl)).
Defined.


Lemma buildTextureData_coordinates_witness :
  ∃ arr g',
    buildTextureData no_rounding 3 path_nodes path_edges fresh_globals
    = Return (arr, g')
    ∧ arr !! (4 * 1) = Some (FCoord tt)
    ∧ arr !! (4 * 1 + 1) = Some (FCoord tt).
Proof.
  eexists _, _. split; [reflexivity|].
  exact (buildTextureData_coordinates no_rounding 3 path_nodes path_edges
           fresh_globals _ _ 1 (plain_node "b") eq_refl eq_refl).
Defined.

(** Element 13 of the array of the path is the index of a node. *)
Lemma buildTextureData_entries_are_nodes_witness :
  ∃ arr g',
    buildTextureData no_rounding 3 path_nodes path_edges fresh_globals
    = Return (arr, g')
    ∧ ∃ j, j < 3 ∧ arr !! 13 = Some (FInt (Z.of_nat j)).
Proof.
  eexists _, _. split; [reflexivity|].
  destruct (buildTextureData_entries_are_nodes no_rounding 3 path_nodes
              path_edges fresh_globals _ _ 13 eq_refl)
    as (j & Hj & _ & Hexact).
  - simpl. lia.
  - exists j. split; [exact Hj|]. apply Hexact. vm_compute. discriminate.
Defined.

Lemma buildTextureData_offsets_chain_witness :
  ∃ arr g' (counts : list nat),
    buildTextureData no_rounding 3 path_nodes path_edges fresh_globals
    = Return (arr, g')
    ∧ length counts = 3
    ∧ sum_list counts = 2 * 3
    ∧ maxEdgePerVetex g' = Some (max_list counts).
Proof.
  destruct (buildTextureData_offsets_chain no_rounding 3 path_nodes
              path_edges fresh_globals _ _ eq_refl)
    as (counts & H1 & H2 & H3 & _).
  eexists _, _, counts. split; [reflexivity|]. split; [exact H1|].
  split; [exact H2 | exact H3].
Defined.

Lemma buildTextureData_adjacency_symmetric_witness :
  ∃ arr g' (adj : list (list nat)),
    buildTextureData no_rounding 3 path_nodes path_edges fresh_globals
    = Return (arr, g')
    ∧ length adj = 3
    ∧ ∀ i j li lj, adj !! i = Some li → adj !! j = Some lj →
        length (filter (λ v, v = j) li) = length (filter (λ v, v = i) lj).
Proof.
  destruct (buildTextureData_adjacency_symmetric no_rounding 3 path_nodes
              path_edges fresh_globals _ _ eq_refl) as (adj & H1 & _ & H3).
  eexists _, _, adj. split; [reflexivity|]. split; [exact H1 | exact H3].
Defined.

(** The node with the id [__proto__] is in the list, and the edge to it
    still throws. *)
Lemma buildTextureData_proto_id_throws_witness :
  ∃ g',
    buildTextureData no_rounding 3 proto_nodes [mkEdge "a" "__proto__"]
      fresh_globals
    = TypeError g'.
Proof.
  apply (buildTextureData_proto_id_throws no_rounding 3 proto_nodes
           [mkEdge "a" "__proto__"] fresh_globals (mkEdge "a" "__proto__")).
  - lia.
  - apply list_elem_of_here.
  - right. reflexivity.
Defined.

(** Even before, even after: a returning and a throwing call. *)
Lemma lineIndexBufferData_stays_even_witness :
  match buildTextureData no_rounding 3 path_nodes path_edges earlier_globals with
  | Return (_, g') | TypeError g' =>
      Nat.Even (length (lineIndexBufferData g'))
  | OutOfFuel => True
  end
  ∧ match buildTextureData no_rounding 3 path_nodes dangling_edges
            earlier_globals with
    | Return (_, g') | TypeError g' =>
        Nat.Even (length (lineIndexBufferData g'))
    | OutOfFuel => True
    end.
Proof.
  split.
  - apply (lineIndexBufferData_stays_even no_rounding 3 path_nodes path_edges
             earlier_globals).
    exists 1. reflexivity.
  - apply (lineIndexBufferData_stays_even no_rounding 3 path_nodes
             dangling_edges earlier_globals).
    exists 1. reflexivity.
Defined.

(** Two nodes with the id [a]: the first one is stored without edges. *)
Lemma buildTextureData_shadowed_node_witness :
  ∃ arr g',
    buildTextureData no_rounding 3 twin_nodes twin_edges fresh_globals
    = Return (arr, g')
    ∧ arr !! (4 * 0 + 3) = Some (FInt 0%Z)
    ∧ ∃ added, lineIndexBufferData g' = [] ++ added ∧ 0 ∉ added.
Proof.
  eexists _, _. split; [reflexivity|].
  exact (buildTextureData_shadowed_node no_rounding 3 twin_nodes twin_edges
           fresh_globals _ _ 0 1 (plain_node "a") (plain_node "a")
           eq_refl eq_refl eq_refl (le_n 1) eq_refl).
Defined.

End BuildTextureDataFacts.

(* ===================================================================== *)
(** ** Further facts about the hierarchy component and about [renderCircles] *)
(* ===================================================================== *)

Module HierarchyInvariants.
Import Hierarchy.

(** Property X15.  Whatever data the constructor is given, the [parentID]
    it stores is truthy, so never the entity 0; and a component built from
    the [parentID] of another one has that same [parentID]. *)
Theorem constructor_parentID_stable (data : Data) :
  truthy (parentID (constructor data)) = true
  ∧ constructor (mkData (Some (parentID (constructor data)))) = constructor data.
Proof.
  destruct data as [[e|]]; unfold constructor; simpl; [|done].
  destruct (truthy e) eqn:He; simpl; [|done]. by rewrite He.
Qed.

End HierarchyInvariants.

Module RenderFacts.
Import Fruchterman Render FruchtermanFacts BuildTextureDataFacts.

Section WithNumbers.
Context {num : Type} `{JSNumber num}.
Context {coord : Type} (fround : coord → coord).

Lemma draw_edges_app (finalParticleData : list num) (l1 l2 : list nat) :
  Nat.Even (length l1) →
  draw_edges finalParticleData (l1 ++ l2)
  = draw_edges finalParticleData l1 ++ draw_edges finalParticleData l2.
Proof.
  intros [k Hk]. revert l1 Hk. induction k as [|k IH]; intros l1 Hk.
  - by destruct l1.
  - destruct l1 as [|a [|b l1]]; simpl in Hk; [lia..|].
    simpl. f_equal. apply IH. lia.
Qed.

Lemma draw_edges_positions (finalParticleData : list num)
    (nodes : list (@node coord)) edges :
  NoDup (id <$> nodes) → Forall (resolved (register nodes 0 ∅)) edges →
  draw_edges finalParticleData (flat_map (endpoint_positions nodes) edges)
  = (λ e, edge_line finalParticleData (position_of nodes (source e))
            (position_of nodes (target e))) <$> edges.
Proof.
  intros Hnd HF. induction HF as [|e rest [[s Hs] [t Ht]] _ IH]; [done|].
  apply (register_position nodes Hnd) in Hs as [Hs _].
  apply (register_position nodes Hnd) in Ht as [Ht _].
  cbn [flat_map fmap list_fmap]. unfold endpoint_positions at 1.
  rewrite Hs, Ht. simpl. f_equal. exact IH.
Qed.

(** Property X14.  When [buildTextureData] has returned for nodes with
    pairwise distinct ids, [renderCircles] called with the number of nodes
    adds one group per shape: first the lines left over from the pairs
    that were in [lineIndexBufferData] before the call, then for each edge
    in order one line from the place of its source node to the place of
    its target node, then one circle per node at the place of that node;
    each place is taken from elements [4k] and [4k+1] of the data passed
    in, for the node's position [k]. *)
Theorem renderCircles_draws_graph fuel (nodes : list (@node coord)) edges
    g arr g' (finalParticleData : list num) :
  NoDup (id <$> nodes) →
  Nat.Even (length (lineIndexBufferData g)) →
  buildTextureData fround fuel nodes edges g = Return (arr, g') →
  groups (renderCircles finalParticleData (length nodes) g')
  = draw_edges finalParticleData (lineIndexBufferData g)
    ++ ((λ e, edge_line finalParticleData (position_of nodes (source e))
               (position_of nodes (target e))) <$> edges)
    ++ (node_circle finalParticleData <$> seq 0 (length nodes)).
Proof.
  intros Hnd Heven Hrun.
  pose proof (buildTextureData_array _ _ _ _ _ _ _ Hrun) as (Hg & _).
  pose proof (buildTextureData_Return _ _ _ _ _ _ _ Hrun) as (HF & _).
  unfold renderCircles. cbn [groups]. rewrite Hg. cbn [lineIndexBufferData].
  rewrite draw_edges_app by done. rewrite <- app_assoc. f_equal. f_equal.
  rewrite line_indices_positions by done. by apply draw_edges_positions.
Qed.

End WithNumbers.

(** The centre of the clip space is the centre of the canvas, and a read
    past the end of the data gives NaN. *)
Example convertWebGLCoord2Canvas_centre :
  convertWebGLCoord2Canvas (H := rational_numbers) (Some (rational 0)) 600
  = rational 300
  ∧ convertWebGLCoord2Canvas (H := rational_numbers) (Some (rational (-1))) 600
    = rational 0
  ∧ convertWebGLCoord2Canvas (H := rational_numbers) None 600 = None.
Proof. repeat split; reflexivity. Qed.

(** Drawing the path after a single call: three lines and three circles. *)
Lemma renderCircles_draws_graph_witness :
  ∃ arr g',
    buildTextureData no_rounding 3 path_nodes path_edges fresh_globals
    = Return (arr, g')
    ∧ groups (renderCircles (H := rational_numbers) final_data 3 g')
      = [] ++ ((λ e, edge_line (H := rational_numbers) final_data
                       (position_of path_nodes (source e))
                       (position_of path_nodes (target e))) <$> path_edges)
        ++ (node_circle (H := rational_numbers) final_data <$> seq 0 3).
Proof.
  eexists _, _. split; [reflexivity|].
  eapply (renderCircles_draws_graph (H := rational_numbers) no_rounding 3
            path_nodes path_edges fresh_globals).
  - exact path_nodes_NoDup.
  - exists 0. reflexivity.
  - reflexivity.
Defined.

End RenderFacts.

(* ===================================================================== *)
(** ** Facts about the kernel *)
(* ===================================================================== *)

Module KernelFacts.
Import Kernel.

Lemma int32_small (z : Z) : (- 2 ^ 31 ≤ z < 2 ^ 31)%Z → int32 z = z.
Proof. intros Hz. unfold int32. rewrite Z.mod_small; lia. Qed.

Section WithDevice.
Context {float : Type} `{GLSL float} (b : Bindings float).

(** The index arithmetic of one round: the element read is element
    [arr_offset + p] of the flat array, and [node_buffer] is left holding
    the vec4 that element lies in. *)
Lemma attractive_round_reads currentNode arr_offset p node_buffer acc :
  (0 ≤ p)%Z → (0 ≤ arr_offset)%Z → (arr_offset + p < 2 ^ 31)%Z →
  (p = 0 ∨ node_buffer = u_Data b ((arr_offset + p - 1) ÷ 4))%Z →
  attractive_round b currentNode arr_offset p (node_buffer, acc)
  = (u_Data b ((arr_offset + p) ÷ 4),
     attract b currentNode acc (u_Data b (int (element b (arr_offset + p))))).
Proof.
  intros Hp Ho Hlt Hbuf. unfold attractive_round, element.
  set (a := (arr_offset + p)%Z) in *.
  assert (Ha : (0 ≤ a < 2 ^ 31)%Z) by (unfold a; lia).
  assert (H31 : (2 ^ 31 = 2147483648)%Z) by done.
  rewrite (int32_small a) by lia.
  rewrite (int32_small (a ÷ 4)) by (Z.to_euclidean_division_equations; lia).
  rewrite (int32_small (a ÷ 4 * 4)) by (Z.to_euclidean_division_equations; lia).
  rewrite (int32_small (a - a ÷ 4 * 4)) by (Z.to_euclidean_division_equations; lia).
  replace (a - a ÷ 4 * 4)%Z with (Z.rem a 4)
    by (Z.to_euclidean_division_equations; lia).
  assert (Hnb : (if (p =? 0)%Z || (Z.rem a 4 =? 0)%Z
                 then u_Data b (a ÷ 4) else node_buffer) = u_Data b (a ÷ 4)).
  { destruct (Z.eqb_spec p 0) as [|Hp0]; [done|].
    destruct (Z.eqb_spec (Z.rem a 4) 0) as [|Hr]; [done|]. simpl.
    destruct Hbuf as [ ? | -> ]; [done|]. f_equal.
    Z.to_euclidean_division_equations; lia. }
  by rewrite Hnb.
Qed.

Lemma attractive_loop_reads k : ∀ (s : nat) currentNode arr_offset length node_buffer acc,
  (0 ≤ arr_offset)%Z →
  (arr_offset + Z.min length (Z.of_nat (s + k)) ≤ 2 ^ 31)%Z →
  (s = 0 ∨ node_buffer = u_Data b ((arr_offset + Z.of_nat s - 1) ÷ 4)%Z) →
  snd (attractive_loop b (Z.of_nat <$> seq s k) currentNode arr_offset length
         (node_buffer, acc))
  = foldl (attract b currentNode) acc
      ((λ p, u_Data b (int (element b (arr_offset + p))))
       <$> (Z.of_nat <$> seq s (Z.to_nat (Z.min length (Z.of_nat (s + k))
                                          - Z.of_nat s)))).
Proof.
  induction k as [|k IH]; intros s cn off len nb acc Hoff Hmax Hbuf.
  - simpl. replace (Z.to_nat _) with 0 by lia. done.
  - cbn [seq fmap list_fmap attractive_loop].
    destruct (Z.leb_spec len (Z.of_nat s)) as [Hbreak|Hgo].
    + replace (Z.to_nat _) with 0 by lia. done.
    + rewrite attractive_round_reads;
        [| lia | done | lia | destruct Hbuf as [ -> | -> ]; [by left | by right]].
      rewrite IH; [| done | lia | right; f_equal; f_equal; lia].
      replace (Z.to_nat (Z.min len (Z.of_nat (s + S k)) - Z.of_nat s))
        with (S (Z.to_nat (Z.min len (Z.of_nat (S s + k)) - Z.of_nat (S s))))
        by lia.
      done.
Qed.

Lemma calcAttractive_flat unset currentNode :
  let arr_offset := int (floor (add (e2 currentNode) lit_0_5)) in
  let length := int (floor (add (e3 currentNode) lit_0_5)) in
  (0 ≤ arr_offset < 2 ^ 31)%Z →
  (arr_offset + Z.min length (MAX_EDGE_PER_VERTEX b) ≤ 2 ^ 31)%Z →
  calcAttractive b unset currentNode
  = foldl (attract b currentNode) (zero, zero)
      ((λ f, u_Data b (int f)) <$> adjacent b currentNode).
Proof.
  intros off len Hoff Hmax. unfold calcAttractive, adjacent, range.
  fold off len.
  rewrite attractive_loop_reads; [| lia | lia | by left].
  rewrite <- !list_fmap_compose. f_equal.
  replace (Z.to_nat (Z.min len (Z.of_nat (0 + Z.to_nat (MAX_EDGE_PER_VERTEX b)))
                     - Z.of_nat 0))
    with (Z.to_nat (Z.min len (MAX_EDGE_PER_VERTEX b))) by lia.
  done.
Qed.

(** Property X11.  [calcAttractive] goes through the flat array: when the
    offset decoded from [currentNode] is a 32-bit integer that is not
    negative and the stretch stays within the 32-bit integers, the value it returns is the pulls,
    accumulated from [(0, 0)], of the nodes whose indices are elements
    [arr_offset], [arr_offset + 1], ... of the buffer counted in floats,
    [length] of them but at most [MAX_EDGE_PER_VERTEX]; the vec4 kept in
    [node_buffer] between rounds is always the one the current element
    lies in. *)
Theorem calcAttractive_reads_adjacent unset currentNode :
  (0 ≤ int (floor (add (e2 currentNode) lit_0_5)) < 2 ^ 31)%Z →
  (int (floor (add (e2 currentNode) lit_0_5))
   + Z.min (int (floor (add (e3 currentNode) lit_0_5)))
           (MAX_EDGE_PER_VERTEX b) ≤ 2 ^ 31)%Z →
  calcAttractive b unset currentNode
  = foldl (attract b currentNode) (zero, zero)
      ((λ f, u_Data b (int f)) <$> adjacent b currentNode).
Proof. intros Hoff Hmax. by apply calcAttractive_flat. Qed.

Lemma attractive_loop_unset ps currentNode arr_offset length unset unset' acc :
  (ps = [] ∨ ∃ rest, ps = 0%Z :: rest) →
  snd (attractive_loop b ps currentNode arr_offset length (unset, acc))
  = snd (attractive_loop b ps currentNode arr_offset length (unset', acc)).
Proof.
  intros [->|[rest ->]]; [done|]. cbn [attractive_loop].
  destruct (length <=? 0)%Z; [done|]. by unfold attractive_round.
Qed.

Lemma range_head (n : Z) : range n = [] ∨ ∃ rest, range n = 0%Z :: rest.
Proof.
  unfold range. destruct (Z.to_nat n) as [|k]; [by left|].
  right. by eexists.
Qed.

(** Property X17.  [node_buffer] is never read before it is assigned:
    what it holds when [calcAttractive] starts has no influence on the
    result of [calcAttractive], nor on what [compute] stores. *)
Theorem calcAttractive_ignores_unset unset unset' currentNode i :
  calcAttractive b unset currentNode = calcAttractive b unset' currentNode
  ∧ compute b unset i = compute b unset' i.
Proof.
  assert (Hc : ∀ cn, calcAttractive b unset cn = calcAttractive b unset' cn).
  { intros cn. unfold calcAttractive.
    apply attractive_loop_unset, range_head. }
  split; [apply Hc|]. unfold compute. by rewrite Hc.
Qed.

Lemma compute_header unset i v :
  compute b unset i = Some v →
  e2 v = e2 (u_Data b i) ∧ e3 v = e3 (u_Data b i)
  ∧ ((VERTEX_COUNT b ≤ i)%Z → v = u_Data b i).
Proof.
  unfold compute. cbn zeta.
  destruct (Z.leb_spec (VERTEX_COUNT b) i) as [Hge|Hlt].
  - intros [= <-]. done.
  - destruct (gt _ zero); [|done]. intros [= <-]. simpl.
    split; [done|]. split; [done|]. lia.
Qed.

End WithDevice.

Section Iteration.
Context {float : Type} `{GLSL float}.

(** Property X13.  The stores of [compute] never change the graph: take
    any buffer in which every vec4 is either the old one or the value the
    invocation for that vec4 stores.  A node whose adjacency stretch
    begins behind the [VERTEX_COUNT] node headers then finds in the new
    buffer the same offset, the same length and the same stretch of
    neighbour indices as in the old one. *)
Theorem compute_keeps_adjacent (b b' : Bindings float) unset (i : Z) :
  (∀ q, u_Data b' q = u_Data b q ∨ compute b unset q = Some (u_Data b' q)) →
  MAX_EDGE_PER_VERTEX b' = MAX_EDGE_PER_VERTEX b →
  (4 * VERTEX_COUNT b
   ≤ int (floor (add (e2 (u_Data b i)) lit_0_5)))%Z →
  adjacent b' (u_Data b' i) = adjacent b (u_Data b i).
Proof.
  intros Hstore Hmax Hoff.
  assert (Hhead : ∀ q, e2 (u_Data b' q) = e2 (u_Data b q)
                       ∧ e3 (u_Data b' q) = e3 (u_Data b q)
                       ∧ ((VERTEX_COUNT b ≤ q)%Z → u_Data b' q = u_Data b q)).
  { intros q. destruct (Hstore q) as [->|Hc]; [done|].
    by apply compute_header in Hc. }
  unfold adjacent. destruct (Hhead i) as (-> & -> & _). rewrite Hmax.
  apply list_fmap_ext. intros k p Hp.
  unfold range in Hp. rewrite list_lookup_fmap in Hp.
  destruct (seq 0 _ !! k) as [p'|] eqn:Hseq; [|done].
  apply lookup_seq in Hseq as [-> _]. simpl in Hp. simplify_eq.
  unfold element.
  destruct (Hhead ((int (floor (add (e2 (u_Data b i)) lit_0_5))
                    + Z.of_nat k) ÷ 4)%Z) as (_ & _ & Hsame).
  rewrite Hsame; [done|]. Z.to_euclidean_division_equations; lia.
Qed.

End Iteration.

Lemma texels_component {float} (outside : vec4 float) (arr : list float)
    (q : nat) (v : float) :
  length arr mod 4 = 0 → arr !! q = Some v →
  component (texels outside arr (Z.of_nat q ÷ 4)) (Z.rem (Z.of_nat q) 4) = v.
Proof.
  intros Hmod Hq. pose proof (lookup_lt_Some _ _ _ Hq) as Hlt.
  pose proof (Nat.div_mod_eq q 4) as Hdm.
  pose proof (Nat.mod_upper_bound q 4) as Hr.
  pose proof (Nat.div_mod_eq (length arr) 4) as Hl. rewrite Hmod in Hl.
  assert (Hquot : (Z.of_nat q ÷ 4 = Z.of_nat (q / 4))%Z).
  { rewrite Z.quot_div_nonneg by lia. by rewrite Nat2Z.inj_div. }
  assert (Hrem : (Z.rem (Z.of_nat q) 4 = Z.of_nat (q mod 4))%Z).
  { rewrite Z.rem_mod_nonneg by lia. by rewrite Nat2Z.inj_mod. }
  rewrite Hquot, Hrem. unfold texels.
  destruct (Z.ltb_spec (Z.of_nat (q / 4)) 0) as [|_]; [lia|].
  rewrite Nat2Z.id.
  destruct (lookup_lt_is_Some_2 arr (4 * (q / 4))) as [a0 H0]; [lia|].
  destruct (lookup_lt_is_Some_2 arr (4 * (q / 4) + 1)) as [a1 H1]; [lia|].
  destruct (lookup_lt_is_Some_2 arr (4 * (q / 4) + 2)) as [a2 H2]; [lia|].
  destruct (lookup_lt_is_Some_2 arr (4 * (q / 4) + 3)) as [a3 H3]; [lia|].
  rewrite H0, H1, H2, H3. unfold component.
  assert (q mod 4 = 0 ∨ q mod 4 = 1 ∨ q mod 4 = 2 ∨ q mod 4 = 3)
    as [E|[E|[E|E]]] by lia; rewrite E in *; simpl.
  - rewrite Nat.add_0_r in Hdm. rewrite <- Hdm in H0. congruence.
  - rewrite <- Hdm in H1. congruence.
  - rewrite <- Hdm in H2. congruence.
  - rewrite <- Hdm in H3. congruence.
Qed.

Section AfterBuildTextureData.
Import Fruchterman FruchtermanFacts BuildTextureDataFacts.
Context {coord : Type} (fround : coord → coord).
Context `{GLSL (@float32 coord)}.

(** Property X12.  The kernel reads back what [buildTextureData] wrote.
    Let the node ids be pairwise distinct, the returned array (of at most
    [2^23] elements, up to where adding [0.5] to a stored integer is exact
    in binary32) be bound to [u_Data], and [MAX_EDGE_PER_VERTEX] be
    bound to [maxEdgePerVetex] as the driver does; let the device convert
    the integers stored in the array back exactly.  Then for node [i] the
    result of [calcAttractive] is the pulls, accumulated in edge order, of
    exactly the nodes adjacent to node [i] in the graph: the bound
    [MAX_EDGE_PER_VERTEX] cuts off no adjacency list. *)
Theorem calcAttractive_after_buildTextureData fuel
    (nodes : list (@node coord)) edges g arr g' (b : Bindings (@float32 coord))
    unset outside maxE i :
  NoDup (id <$> nodes) →
  buildTextureData fround fuel nodes edges g = Return (arr, g') →
  (Z.of_nat (length arr) ≤ 2 ^ 23)%Z →
  (∀ z, (0 ≤ z ≤ 2 ^ 23)%Z → int (floor (add (FInt z) lit_0_5)) = z) →
  (∀ z, (0 ≤ z ≤ 2 ^ 23)%Z → int (FInt z) = z) →
  (∀ q, u_Data b q = texels outside arr q) →
  maxEdgePerVetex g' = Some maxE →
  MAX_EDGE_PER_VERTEX b = Z.of_nat maxE →
  i < length nodes →
  calcAttractive b unset (u_Data b (Z.of_nat i))
  = foldl (attract b (u_Data b (Z.of_nat i))) (zero, zero)
      ((λ j, u_Data b (Z.of_nat j)) <$> adjacency nodes edges i).
Proof.
  intros Hnd Hrun Hsmall Hround Hint Hdata HmaxE HMAX Hi.
  assert (H2324 : (2 ^ 23 < 2 ^ 24)%Z) by done.
  destruct (layout_exact fround _ _ _ _ _ _ i Hnd Hrun ltac:(lia) Hi)
    as (offset & maxE' & H2 & H3 & Hoff & Hle & Hmod & Hmx & Hcnt & Hadj).
  cbn zeta in *. assert (maxE' = maxE) as -> by congruence.
  set (adj := adjacency nodes edges i) in *.
  assert (H224 : (2 ^ 24 < 2 ^ 31)%Z) by done.
  assert (He2 : e2 (u_Data b (Z.of_nat i)) = FInt (Z.of_nat offset)
                ∧ e3 (u_Data b (Z.of_nat i)) = FInt (Z.of_nat (length adj))).
  { rewrite Hdata. unfold texels.
    destruct (Z.ltb_spec (Z.of_nat i) 0) as [|_]; [lia|]. rewrite Nat2Z.id.
    destruct (lookup_lt_is_Some_2 arr (4 * i)) as [a0 H0]; [lia|].
    destruct (lookup_lt_is_Some_2 arr (4 * i + 1)) as [a1 H1]; [lia|].
    by rewrite H0, H1, H2, H3. }
  destruct He2 as [He2 He3].
  assert (Hadjacent : adjacent b (u_Data b (Z.of_nat i))
                      = (λ j, FInt (Z.of_nat j)) <$> adj).
  { unfold adjacent. rewrite He2, He3, !Hround by lia. rewrite HMAX.
    rewrite Z.min_l by lia. unfold range. rewrite Nat2Z.id.
    apply list_eq. intros p. rewrite !list_lookup_fmap.
    destruct (decide (p < length adj)) as [Hp|Hp].
    - rewrite lookup_seq_lt by done.
      destruct (lookup_lt_is_Some_2 adj p Hp) as [j Hj]. rewrite Hj. simpl.
      f_equal. destruct (Hadj p j Hj) as [Hpj _].
      unfold element. rewrite <- Nat2Z.inj_add, Hdata.
      by apply texels_component.
    - rewrite lookup_seq_ge by lia. by rewrite lookup_ge_None_2 by lia. }
  rewrite calcAttractive_flat.
  - rewrite Hadjacent, <- list_fmap_compose. f_equal.
    apply list_fmap_ext. intros p j Hj. simpl.
    destruct (Hadj p j Hj) as [_ Hjn]. rewrite Hint; [done | lia].
  - rewrite He2, Hround by lia. lia.
  - rewrite He2, He3, !Hround by lia. rewrite HMAX. lia.
Qed.

End AfterBuildTextureData.

Section Examples.
Import Fruchterman FruchtermanFacts.

#[local] Existing Instance plain_device.

(** Node 0 of the path: offset 12, three neighbours. *)
Lemma calcAttractive_reads_adjacent_witness :
  calcAttractive (H := plain_device) path_bindings no_texel
    (u_Data path_bindings 0)
  = foldl (attract (H := plain_device) path_bindings (u_Data path_bindings 0))
      (zero, zero)
      ((λ f, u_Data path_bindings (int f))
       <$> adjacent (H := plain_device) path_bindings (u_Data path_bindings 0)).
Proof.
  apply (calcAttractive_reads_adjacent (H := plain_device) path_bindings
           no_texel (u_Data path_bindings 0)).
  - simpl. lia.
  - simpl. lia.
Defined.

(** Node 0 has moved; the neighbours it reads are the same. *)
Lemma compute_keeps_adjacent_witness :
  adjacent (H := plain_device) moved_bindings (u_Data moved_bindings 0)
  = adjacent (H := plain_device) path_bindings (u_Data path_bindings 0).
Proof.
  apply (compute_keeps_adjacent (H := plain_device) path_bindings
           moved_bindings no_texel 0).
  - intros q. destruct (Z.eqb_spec q 0) as [->|Hq].
    + right. reflexivity.
    + left. unfold moved_bindings, path_bindings. cbn [u_Data].
      destruct (Z.eqb_spec q 0); [done | reflexivity].
  - reflexivity.
  - simpl. lia.
Defined.

(** The path: the kernel's result for node 0 is made of the pulls of
    nodes 1, 0 and 0, its neighbours in edge order. *)
Lemma calcAttractive_after_buildTextureData_witness :
  buildTextureData no_rounding 3 path_nodes path_edges fresh_globals
  = Return (path_array, {| lineIndexBufferData := [0; 1; 1; 2; 0; 0];
                           maxEdgePerVetex := Some 3 |})
  ∧ adjacency path_nodes path_edges 0 = [1; 0; 0]
  ∧ calcAttractive (H := plain_device) path_bindings no_texel
      (u_Data path_bindings 0)
    = foldl (attract (H := plain_device) path_bindings
               (u_Data path_bindings 0))
        (zero, zero)
        ((λ j, u_Data path_bindings (Z.of_nat j))
         <$> adjacency path_nodes path_edges 0).
Proof.
  split; [reflexivity|]. split; [reflexivity|].
  apply (calcAttractive_after_buildTextureData (H := plain_device)
           no_rounding 3 path_nodes path_edges fresh_globals path_array
           {| lineIndexBufferData := [0; 1; 1; 2; 0; 0];
              maxEdgePerVetex := Some 3 |}
           path_bindings no_texel no_texel 3 0 path_nodes_NoDup).
  - reflexivity.
  - simpl. lia.
  - intros z _. reflexivity.
  - intros z _. reflexivity.
  - intros q. reflexivity.
  - reflexivity.
  - reflexivity.
  - simpl. lia.
Defined.

End Examples.

End KernelFacts.
